(** * jhr_skip_list: a skip list with widths (jhr_skip_list.hpp)

    Shallow embedding of [jhr::Skip_List<T>] and verification of its
    specification.  Nodes live in a heap indexed by addresses; a pointer is
    an optional address ([None] is [nullptr]).  Every member function is a
    computation in a state-and-error monad over the list object: it may
    return, dereference an invalid pointer (undefined behaviour in C++), or
    exhaust the fuel that bounds its [while] loops.

    Widths and the element count are [size_t] values, modelled in [Z] with
    the wrap-around written out; levels count links of an array and index
    it, and are modelled in [nat].  The random source is the sequence of
    values [std::rand() / RAND_MAX] takes during a call. *)

From Stdlib Require Import ZArith QArith Lia.
From stdpp Require Import base gmap list option sorting.
From Stdlib Require Ascii String DecimalString.
Close Scope Q_scope.
Set Warnings "-clear-no-such-hyp".

Module jhr.

(** ** Machine integers and floats *)

(** [size_t] is a 64-bit unsigned integer; arithmetic wraps around. *)
Definition size_max : Z := 2 ^ 64.
Definition wrap (z : Z) : Z := z mod size_max.

(** A finite [float] value is a rational; only comparisons are used. *)
Definition float_lt (a b : Q) : bool := negb (Qle_bool b a).
Definition float_le (a b : Q) : bool := Qle_bool a b.
(** Implicit conversion [bool -> float] of C++. *)
Definition bool_to_float (b : bool) : Q := if b then 1%Q else 0%Q.

(** ** The element type: any type with [<] and [==] *)

Class Element (T : Type) := {
  elt_lt : T -> T -> bool;   (* operator<  *)
  elt_eq : T -> T -> bool    (* operator== *)
}.

(** [<] is a strict order, and [==] is consistent with it: two elements
    are equal exactly when neither is less than the other (so the order is
    total). *)
Class ElementLaws (T : Type) `{Element T} := {
  elt_lt_irrefl : forall a, elt_lt a a = false;
  elt_lt_trans : forall a b c,
    elt_lt a b = true -> elt_lt b c = true -> elt_lt a c = true;
  elt_eq_lt : forall a b,
    elt_eq a b = true <-> elt_lt a b = false /\ elt_lt b a = false
}.

#[export] Instance Z_Element : Element Z :=
  {| elt_lt := Z.ltb; elt_eq := Z.eqb |}.

(** ** Data model *)

Abbreviation addr := positive (only parsing).
(** [Skip_Node<T>*]: [None] is [nullptr]. *)
Abbreviation ptr := (option positive) (only parsing).

(** [struct Skip_Link { size_t width{1}; Skip_Node<T>* node{nullptr}; }] *)
Record Skip_Link := mkLink { width : Z; node : ptr }.

Definition default_link : Skip_Link := {| width := 1; node := None |}.

(** [class Skip_Node]: [ptr_] is the owned element ([None] for the
    sentinel, whose [ptr_] is [nullptr]); [forward_] is the link array. *)
Record Skip_Node (T : Type) := mkNode {
  n_level_ : nat;
  ptr_ : option T;
  forward_ : list Skip_Link
}.
Arguments mkNode {T}.
Arguments n_level_ {T}.
Arguments ptr_ {T}.
Arguments forward_ {T}.

(** [Skip_Node(ptr, level)]: [level] default-initialised links. *)
Definition Skip_Node_new {T} (p : option T) (level : nat) : Skip_Node T :=
  {| n_level_ := level; ptr_ := p; forward_ := replicate level default_link |}.

(** [class Skip_List], together with the heap its nodes are allocated in. *)
Record Skip_List (T : Type) := mkList {
  kMaxLevel_ : nat;
  p_ : Q;
  level_ : nat;
  width_ : Z;
  head_ : ptr;
  heap : gmap addr (Skip_Node T)
}.
Arguments mkList {T}.
Arguments kMaxLevel_ {T}.
Arguments p_ {T}.
Arguments level_ {T}.
Arguments width_ {T}.
Arguments head_ {T}.
Arguments heap {T}.

(** [Skip_List(max_level, p)] *)
Definition Skip_List_new {T} (max_level : nat) (p : Q) : Skip_List T :=
  let h : addr := fresh (∅ : gset addr) in
  {| kMaxLevel_ := max_level; p_ := p; level_ := 1; width_ := 0;
     head_ := Some h;
     heap := {[ h := Skip_Node_new None max_level ]} |}.

(** [Skip_List()] *)
Definition Skip_List_default {T} : Skip_List T := Skip_List_new 16 (1 # 2)%Q.

(** ** The monad of member functions *)

Inductive result (A : Type) : Type :=
| Ok (a : A)
| Undefined      (* invalid dereference: null, freed or out of bounds *)
| OutOfFuel.     (* a loop ran longer than the fuel given *)
Arguments Ok {A}.
Arguments Undefined {A}.
Arguments OutOfFuel {A}.

Definition M (T A : Type) : Type := Skip_List T -> result (A * Skip_List T).

Definition ret {T A} (a : A) : M T A := fun s => Ok (a, s).
Definition bind {T A B} (m : M T A) (k : A -> M T B) : M T B :=
  fun s => match m s with
           | Ok (a, s') => k a s'
           | Undefined => Undefined
           | OutOfFuel => OutOfFuel
           end.
Definition undefined {T A} : M T A := fun _ => Undefined.
Definition out_of_fuel {T A} : M T A := fun _ => OutOfFuel.

Notation "x <- m ;; k" := (bind m (fun x => k))
  (at level 100, m at next level, right associativity).
Notation "m ;;; k" := (bind m (fun _ => k))
  (at level 100, right associativity).

Section Primitives.
Context {T : Type}.

(** Reading a data member of the list object. *)
Definition get {A} (f : Skip_List T -> A) : M T A := fun s => Ok (f s, s).

Definition set_level_ (l : nat) : M T unit := fun s =>
  Ok (tt, mkList (kMaxLevel_ s) (p_ s) l (width_ s) (head_ s) (heap s)).
Definition set_width_ (w : Z) : M T unit := fun s =>
  Ok (tt, mkList (kMaxLevel_ s) (p_ s) (level_ s) w (head_ s) (heap s)).
Definition set_heap (h : gmap addr (Skip_Node T)) : M T unit := fun s =>
  Ok (tt, mkList (kMaxLevel_ s) (p_ s) (level_ s) (width_ s) (head_ s) h).

(** [*x] for a node pointer. *)
Definition load_node (x : ptr) : M T (Skip_Node T) := fun s =>
  match x with
  | None => Undefined
  | Some a => match heap s !! a with
              | Some n => Ok (n, s)
              | None => Undefined
              end
  end.

(** [x->forward_[i]] as an rvalue. *)
Definition load_link (x : ptr) (i : nat) : M T Skip_Link :=
  n <- load_node x ;;
  match forward_ n !! i with
  | Some l => ret l
  | None => undefined
  end.

(** [x->forward_[i] = l] *)
Definition store_link (x : ptr) (i : nat) (l : Skip_Link) : M T unit :=
  n <- load_node x ;;
  match x with
  | Some a =>
      if decide (i < length (forward_ n)) then
        h <- get heap ;;
        set_heap (<[a := mkNode (n_level_ n) (ptr_ n) (<[i := l]> (forward_ n))]> h)
      else undefined
  | None => undefined
  end.

(** [x->forward_[i].width = w] *)
Definition store_width (x : ptr) (i : nat) (w : Z) : M T unit :=
  l <- load_link x i ;; store_link x i (mkLink w (node l)).

(** [x->forward_[i].node = y] *)
Definition store_node (x : ptr) (i : nat) (y : ptr) : M T unit :=
  l <- load_link x i ;; store_link x i (mkLink (width l) y).

(** [*(x->ptr_)] *)
Definition load_elem (x : ptr) : M T T :=
  n <- load_node x ;;
  match ptr_ n with
  | Some e => ret e
  | None => undefined
  end.

(** [CreateNode(ptr, level)]: [new Skip_Node<T>(ptr, level)]. *)
Definition CreateNode (p : option T) (level : nat) : M T ptr :=
  h <- get heap ;;
  let a : addr := fresh (dom h) in
  set_heap (<[a := Skip_Node_new p level]> h) ;;;
  ret (Some a).

(** [delete x]: a no-op on [nullptr], undefined on a dangling pointer. *)
Definition delete_node (x : ptr) : M T unit :=
  match x with
  | Some a => _ <- load_node x ;; h <- get heap ;; set_heap (delete a h)
  | None => ret tt
  end.

(** Local arrays ([update], [update_width]): indexing out of bounds is
    undefined. *)
Definition arr_get {A} (a : list A) (i : nat) : M T A :=
  match a !! i with
  | Some v => ret v
  | None => undefined
  end.
Definition arr_set {A} (a : list A) (i : nat) (v : A) : M T (list A) :=
  if decide (i < length a) then ret (<[i := v]> a) else undefined.
End Primitives.

(** ** Member functions of [Skip_List<T>] *)

Section Operations.
Context {T : Type} `{Element T}.

(** *** [at] and [operator[]] *)

(** The [while] loop of [at] on lane [j = i - 1].  [inl x] is the early
    [return x]; [inr (w, x)] is the state when the loop condition fails. *)
Fixpoint at_while (fuel : nat) (j : nat) (w : Z) (x : ptr)
  : M T (ptr + Z * ptr) :=
  match fuel with
  | 0 => out_of_fuel
  | S f =>
      l <- load_link x j ;;
      if bool_decide (node l <> None) && (width l <=? w)%Z then
        let w' := wrap (w - width l) in
        let x' := node l in
        if (w' =? 0)%Z then ret (inl x') else at_while f j w' x'
      else ret (inr (w, x))
  end.

(** [for (size_t i = level_; i > 0; i--)] *)
Fixpoint at_for (fuel : nat) (i : nat) (w : Z) (x : ptr) : M T ptr :=
  match i with
  | 0 => ret None
  | S j =>
      r <- at_while fuel j w x ;;
      match r with
      | inl y => ret y
      | inr (w', x') => at_for fuel j w' x'
      end
  end.

(** [at(index)] *)
Definition at_ (fuel : nat) (index : Z) : M T ptr :=
  n <- get width_ ;;
  if (index >=? n)%Z then ret None
  else
    let w := wrap (index + 1) in
    x <- get head_ ;;
    lv <- get level_ ;;
    at_for fuel lv w x.

(** [operator[](index) { return at(index); }] *)
Definition operator_index (fuel : nat) (index : Z) : M T ptr :=
  at_ fuel index.

(** [length() { return width_; }] *)
Definition length : M T Z := get width_.

(** [empty() { return !head_->forward_[0].node; }] *)
Definition empty : M T bool :=
  h <- get head_ ;;
  l <- load_link h 0 ;;
  ret (bool_decide (node l = None)).

(** *** [find] *)

(** [while (x->forward_[i - 1].node != nullptr &&
           *(x->forward_[i - 1].node->ptr_) < *ptr)
      x = x->forward_[i - 1].node;] on lane [j = i - 1]. *)
Fixpoint find_while (fuel : nat) (j : nat) (key : T) (x : ptr) : M T ptr :=
  match fuel with
  | 0 => out_of_fuel
  | S f =>
      l <- load_link x j ;;
      match node l with
      | None => ret x
      | Some _ =>
          e <- load_elem (node l) ;;
          if elt_lt e key then find_while f j key (node l) else ret x
      end
  end.

(** [for (size_t i = level_; i > 0; i--)] *)
Fixpoint find_for (fuel : nat) (i : nat) (key : T) (x : ptr) : M T ptr :=
  match i with
  | 0 => ret x
  | S j => x' <- find_while fuel j key x ;; find_for fuel j key x'
  end.

(** [key] is [*ptr].  The step to [x->forward_[0].node] is followed by
    [*(x->ptr_)] without a null check. *)
Definition find (fuel : nat) (key : T) : M T ptr :=
  h <- get head_ ;;
  lv <- get level_ ;;
  x <- find_for fuel lv key h ;;
  l <- load_link x 0 ;;
  let x := node l in
  e <- load_elem x ;;
  if elt_eq e key then ret x else ret None.

(** *** [RandomLevel] *)

(** [draws k] is the value of the [k]-th [std::rand() / RAND_MAX] of the
    call.  The loop runs at most [cap - 1] times, so [cap] rounds of
    unfolding are exact. *)
Fixpoint RandomLevel_while (n : nat) (p : Q) (cap : Z) (draws : nat -> Q)
    (k : nat) (level : nat) : nat :=
  match n with
  | 0 => level
  | S n' =>
      if float_lt (draws k) p && (Z.of_nat level <? cap)%Z
      then RandomLevel_while n' p cap draws (S k) (S level)
      else level
  end.

Definition RandomLevel (draws : nat -> Q) : M T nat :=
  p <- get p_ ;;
  kmax <- get kMaxLevel_ ;;
  let cap := wrap (Z.of_nat kmax - 1) in
  ret (RandomLevel_while (Z.to_nat cap) p cap draws 0 1).

(** *** [insert] *)

(** The same [while] loop, summing the widths it travels. *)
Fixpoint insert_while (fuel : nat) (j : nat) (key : T) (x : ptr)
    (width_sum : Z) : M T (ptr * Z) :=
  match fuel with
  | 0 => out_of_fuel
  | S f =>
      l <- load_link x j ;;
      match node l with
      | None => ret (x, width_sum)
      | Some _ =>
          e <- load_elem (node l) ;;
          if elt_lt e key
          then insert_while f j key (node l) (wrap (width_sum + width l))
          else ret (x, width_sum)
      end
  end.

(** [for (size_t i = level_; i > 0; i--)], recording [update[i - 1]] and
    [update_width[i - 1]]. *)
Fixpoint insert_for (fuel : nat) (i : nat) (key : T) (x : ptr)
    (update : list ptr) (update_width : list Z)
  : M T (ptr * list ptr * list Z) :=
  match i with
  | 0 => ret (x, update, update_width)
  | S j =>
      r <- insert_while fuel j key x 0 ;;
      update' <- arr_set update j (fst r) ;;
      update_width' <- arr_set update_width j (snd r) ;;
      insert_for fuel j key (fst r) update' update_width'
  end.

(** [for (size_t i = level_; i < level; i++)], with [n = level - i]. *)
Fixpoint raise_for (n : nat) (i : nat) (update : list ptr)
  : M T (list ptr) :=
  match n with
  | 0 => ret update
  | S m =>
      h <- get head_ ;;
      update' <- arr_set update i h ;;
      store_width h i 0 ;;;
      raise_for m (S i) update'
  end.

(** [for (size_t i = 0; i < level; i++)], with [n = level - i]. *)
Fixpoint splice_for (n : nat) (i : nat) (new_node : ptr)
    (update : list ptr) (update_width : list Z) : M T unit :=
  match n with
  | 0 => ret tt
  | S m =>
      u <- arr_get update i ;;
      lu <- load_link u i ;;
      store_node new_node i (node lu) ;;;
      store_node u i new_node ;;;
      (if decide (0 < i) then
         uw <- arr_get update_width (i - 1) ;;
         u1 <- arr_get update (i - 1) ;;
         l1 <- load_link u1 (i - 1) ;;
         let width_before := wrap (uw + width l1) in
         lu' <- load_link u i ;;
         (if (0 <? width lu')%Z
          then store_width new_node i (wrap (width lu' + 1 - width_before))
          else store_width new_node i 0) ;;;
         store_width u i width_before
       else ret tt) ;;;
      splice_for m (S i) new_node update update_width
  end.

(** The level is drawn and [level_] raised before the test for a node
    that already holds the key. *)
Definition insert (fuel : nat) (draws : nat -> Q) (key : T) : M T ptr :=
  kmax <- get kMaxLevel_ ;;
  let update := replicate kmax (None : ptr) in
  let update_width := replicate kmax 0%Z in
  x <- get head_ ;;
  lv <- get level_ ;;
  r <- insert_for fuel lv key x update update_width ;;
  let '(x, update, update_width) := r in
  level <- RandomLevel draws ;;
  lv <- get level_ ;;
  update <- (if decide (lv < level)
             then u <- raise_for (level - lv) lv update ;;
                  set_level_ level ;;; ret u
             else ret update) ;;
  l <- load_link x 0 ;;
  dup <- match node l with
         | None => ret false
         | Some _ => e <- load_elem (node l) ;; ret (elt_eq e key)
         end ;;
  if dup : bool then ret (node l)
  else
    new_node <- CreateNode (Some key) level ;;
    splice_for level 0 new_node update update_width ;;;
    w <- get width_ ;;
    set_width_ (wrap (w + 1)) ;;;
    ret new_node.

(** *** [remove] *)

(** The [while] loop of [find] again. *)
Fixpoint remove_while (fuel : nat) (j : nat) (key : T) (x : ptr) : M T ptr :=
  match fuel with
  | 0 => out_of_fuel
  | S f =>
      l <- load_link x j ;;
      match node l with
      | None => ret x
      | Some _ =>
          e <- load_elem (node l) ;;
          if elt_lt e key then remove_while f j key (node l) else ret x
      end
  end.

(** [for (size_t i = level_; i > 0; i--)], recording [update[i - 1]]. *)
Fixpoint remove_for (fuel : nat) (i : nat) (key : T) (x : ptr)
    (update : list ptr) : M T (ptr * list ptr) :=
  match i with
  | 0 => ret (x, update)
  | S j =>
      x' <- remove_while fuel j key x ;;
      update' <- arr_set update j x' ;;
      remove_for fuel j key x' update'
  end.

(** [for (size_t i = 0; i < level_; i++)], with [n = level_ - i]. *)
Fixpoint unlink_for (n : nat) (i : nat) (x : ptr) (update : list ptr)
  : M T unit :=
  match n with
  | 0 => ret tt
  | S m =>
      u <- arr_get update i ;;
      lu <- load_link u i ;;
      (if decide (node lu <> x) then
         store_width u i (wrap (width lu - 1))
       else
         lx <- load_link x i ;;
         store_node u i (node lx) ;;;
         store_node x i None ;;;
         lx' <- load_link x i ;;
         if (0 <? width lx')%Z then
           lu' <- load_link u i ;;
           store_width u i (wrap (width lu' + wrap (width lx' - 1)))
         else store_width u i 0) ;;;
      unlink_for m (S i) x update
  end.

(** [while (level_ > 1 && head_->forward_[level_ - 1].node == nullptr)
    level_--;]  Every round decrements [level_], so [level_] rounds of
    unfolding are exact. *)
Fixpoint lower_while (n : nat) : M T unit :=
  match n with
  | 0 => ret tt
  | S m =>
      lv <- get level_ ;;
      if decide (1 < lv) then
        h <- get head_ ;;
        l <- load_link h (lv - 1) ;;
        match node l with
        | None => set_level_ (lv - 1) ;;; lower_while m
        | Some _ => ret tt
        end
      else ret tt
  end.

(** No statement of [remove] writes [width_]. *)
Definition remove (fuel : nat) (key : T) : M T (option T) :=
  lv <- get level_ ;;
  let update := replicate lv (None : ptr) in
  x <- get head_ ;;
  r <- remove_for fuel lv key x update ;;
  let '(x, update) := r in
  l <- load_link x 0 ;;
  let x := node l in
  e <- load_elem x ;;
  if negb (elt_eq e key) then ret None
  else
    lv <- get level_ ;;
    unlink_for lv 0 x update ;;;
    n <- load_node x ;;
    let old_data := ptr_ n in
    delete_node x ;;;
    lv <- get level_ ;;
    lower_while lv ;;;
    ret old_data.
End Operations.

(** *** [MaxLevel] *)

Section MaxLevel.
(** [log_ratio N p] stands for [static_cast<size_t>(log(N) / log(1 / p))],
    computed by the C library. *)
Variable log_ratio : Z -> Q -> Z.

(** [0.0F <= p <= 1.0F] parses as [(0.0F <= p) <= 1.0F]. *)
Definition MaxLevel_valid (p : Q) : bool :=
  float_le (bool_to_float (float_le 0%Q p)) 1%Q.

Definition MaxLevel (N : Z) (p : Q) : Z :=
  if negb (MaxLevel_valid p) then 0%Z else log_ratio N p.
End MaxLevel.

(** ** Vocabulary of the specification *)

(** A finite script of random draws; once it is used up every further draw
    is [1], which is never below a probability. *)
Definition draws_of (l : list Q) : nat -> Q := fun k => nth k l 1%Q.

Section Vocabulary.
Context {T : Type} `{Element T}.

(** States obtained from a constructed list by [insert] and [remove]
    calls that return. *)
Inductive reachable : Skip_List T -> Prop :=
| reachable_new (max_level : nat) (p : Q) :
    0 < max_level -> reachable (Skip_List_new max_level p)
| reachable_insert s fuel draws key r s' :
    reachable s -> insert fuel draws key s = Ok (r, s') -> reachable s'
| reachable_remove s fuel key r s' :
    reachable s -> remove fuel key s = Ok (r, s') -> reachable s'.

(** Iterating level 0 from the head, as the node-label loop of
    [DisplayList] and the destructor do:
    [while (node != nullptr) { ...; node = node->forward_[0].node; }],
    started at the first node after the sentinel. *)
Fixpoint level0_while (fuel : nat) (x : ptr) : M T (list T) :=
  match x with
  | None => ret []
  | Some _ =>
      match fuel with
      | 0 => out_of_fuel
      | S f =>
          e <- load_elem x ;;
          l <- load_link x 0 ;;
          r <- level0_while f (node l) ;;
          ret (e :: r)
      end
  end.

Definition level0_elements (fuel : nat) : M T (list T) :=
  h <- get head_ ;;
  l <- load_link h 0 ;;
  level0_while fuel (node l).

(** Number of level-0 steps leading from node [a] to node [b]. *)
Fixpoint level0_steps (fuel : nat) (h : gmap addr (Skip_Node T))
    (a b : addr) : option nat :=
  if decide (a = b) then Some 0
  else
    match fuel with
    | 0 => None
    | S f =>
        n ← h !! a;
        l ← forward_ n !! 0;
        c ← node l;
        S <$> level0_steps f h c b
    end.

(** The width invariant of the specification, on the links in use: a
    link with a target stores the number of level-0 steps to it, a link
    without a target stores [0]. *)
Definition width_invariant (s : Skip_List T) : Prop :=
  forall a n i l,
    heap s !! a = Some n -> i < level_ s -> forward_ n !! i = Some l ->
    match node l with
    | Some b =>
        Z.of_nat <$> level0_steps (size (heap s)) (heap s) a b
        = Some (width l)
    | None => width l = 0%Z
    end.

(** The same on the express lanes only.  Level 0, where every link is a
    single step and the stored width is not used, is left out. *)
Definition express_width_invariant (s : Skip_List T) : Prop :=
  forall a n i l,
    heap s !! a = Some n -> 1 <= i < level_ s -> forward_ n !! i = Some l ->
    match node l with
    | Some b =>
        Z.of_nat <$> level0_steps (size (heap s)) (heap s) a b
        = Some (width l)
    | None => width l = 0%Z
    end.

(** What the code keeps instead, on level 0 only: every level-0 link has
    width [1], which is the number of level-0 steps to its target when it
    has one. *)
Definition level0_width_invariant (s : Skip_List T) : Prop :=
  forall a n l,
    heap s !! a = Some n -> forward_ n !! 0 = Some l ->
    width l = 1%Z /\
    forall b, node l = Some b ->
      Z.of_nat <$> level0_steps (size (heap s)) (heap s) a b
      = Some (width l).
End Vocabulary.

(** ** The abstract skip list represented by a state *)

(** A node of the structure: its address, its element pointer and the
    number of lanes it is linked on. *)
Record anode (T : Type) := mkA {
  an_addr : addr;
  an_ptr : option T;
  an_level : nat
}.
Arguments mkA {T}.
Arguments an_addr {T}.
Arguments an_ptr {T}.
Arguments an_level {T}.

Section Representation.
Context {T : Type} `{Element T}.

(** The first node of [l] that is linked on lane [j]. *)
Fixpoint next_at (j : nat) (l : list (anode T)) : ptr :=
  match l with
  | [] => None
  | n :: r => if decide (j < an_level n) then Some (an_addr n) else next_at j r
  end.

(** The heap cell of [n]: its links lead where [tg] says, and its level-0
    link has width 1. *)
Definition node_ok (h : gmap addr (Skip_Node T)) (n : anode T)
    (tg : nat -> ptr) : Prop :=
  exists f,
    h !! an_addr n = Some (mkNode (an_level n) (an_ptr n) f) /\
    base.length f = an_level n /\
    forall j l, f !! j = Some l -> node l = tg j /\ (j = 0 -> width l = 1%Z).

(** Every node of [l] links, on each of its lanes [j], to the next node on
    that lane in [l ++ tl j]. *)
Fixpoint chain (h : gmap addr (Skip_Node T)) (l : list (anode T))
    (tl : nat -> list (anode T)) : Prop :=
  match l with
  | [] => True
  | n :: r => node_ok h n (fun j => next_at j (r ++ tl j)) /\ chain h r tl
  end.

Definition an_lt (a b : anode T) : Prop :=
  match an_ptr a, an_ptr b with
  | Some x, Some y => elt_lt x y = true
  | _, _ => False
  end.

Definition below (key : T) (n : anode T) : Prop :=
  exists e, an_ptr n = Some e /\ elt_lt e key = true.

Definition not_below (key : T) (n : anode T) : Prop :=
  exists e, an_ptr n = Some e /\ elt_lt e key = false.

(** The sentinel as a node of the structure. *)
Definition sentinel (s : Skip_List T) (ha : addr) : anode T :=
  mkA ha None (kMaxLevel_ s).

(** [rep s ns]: the heap of [s] holds exactly the sentinel and the nodes
    [ns], linked as a skip list in this order. *)
Record rep (s : Skip_List T) (ha : addr) (ns : list (anode T)) : Prop := mkRep {
  rep_head : head_ s = Some ha;
  rep_chain : chain (heap s) (sentinel s ha :: ns) (fun _ => []);
  rep_nodup : NoDup (an_addr <$> sentinel s ha :: ns);
  rep_dom : dom (heap s) = list_to_set (an_addr <$> sentinel s ha :: ns);
  rep_levels : Forall (fun n => 1 <= an_level n <= level_ s) ns;
  rep_level : 1 <= level_ s <= kMaxLevel_ s;
  rep_elems : Forall (fun n => is_Some (an_ptr n)) ns;
  rep_sorted : StronglySorted an_lt ns
}.

(** [x] points to the last node of [all] that is linked on lane [j]. *)
Definition lane_pred (all : list (anode T)) (j : nat) (x : ptr) : Prop :=
  exists A m B,
    all = A ++ m :: B /\ x = Some (an_addr m) /\ j < an_level m /\
    Forall (fun n => an_level n <= j) B.

(** The cell of [m] has a link on lane [j], leading to [tgt]. *)
Definition lane_link (h : gmap addr (Skip_Node T)) (m : anode T) (j : nat)
    (tgt : ptr) : Prop :=
  exists nd lk,
    h !! an_addr m = Some nd /\ forward_ nd !! j = Some lk /\ node lk = tgt.

(** A structure caught in the middle of linking or unlinking the node
    [x] between [all] and [post]: [x] is already (or still) linked from
    [all] on the lanes where [Pa] holds, and its own link on lane [j] is
    set where [Px] holds. *)
Definition mid_tail (x : anode T) (post : list (anode T)) (P : nat -> bool)
  : nat -> list (anode T) :=
  fun j => (if P j then [x] else []) ++ post.

Definition mid_target (post : list (anode T)) (P : nat -> bool)
  : nat -> ptr :=
  fun j => if P j then next_at j post else None.

Definition mixed (h : gmap addr (Skip_Node T)) (all : list (anode T))
    (x : anode T) (post : list (anode T)) (Pa Px : nat -> bool) : Prop :=
  chain h all (mid_tail x post Pa) /\
  node_ok h x (mid_target post Px) /\
  chain h post (fun _ => []).

(** [h'] has the cells of [h], with the same link targets and level-0
    widths. *)
Definition same_structure (h h' : gmap addr (Skip_Node T)) : Prop :=
  dom h' = dom h /\ forall n tg, node_ok h n tg -> node_ok h' n tg.

(** Dropping part of a result. *)
Definition forget {A B} (g : A -> B) (r : result (A * Skip_List T))
  : result (B * Skip_List T) :=
  match r with
  | Ok (a, s') => Ok (g a, s')
  | Undefined => Undefined
  | OutOfFuel => OutOfFuel
  end.

(** The elements of the represented list, in level-0 order. *)
Definition elems (ns : list (anode T)) : list T := omap an_ptr ns.

(** Outcome-based specification of a computation started in [s]: a
    result satisfies [Q], no invalid dereference happens, and the fuel
    runs out only if [F] holds. *)
Definition spec {A} (m : M T A) (s : Skip_List T)
    (Q : A -> Skip_List T -> Prop) (F : Prop) : Prop :=
  match m s with
  | Ok (a, s') => Q a s'
  | Undefined => False
  | OutOfFuel => F
  end.

(** The same with a condition [U] under which an invalid dereference may
    happen. *)
Definition outcome {A} (m : M T A) (s : Skip_List T)
    (Q : A -> Skip_List T -> Prop) (U F : Prop) : Prop :=
  match m s with
  | Ok (a, s') => Q a s'
  | Undefined => U
  | OutOfFuel => F
  end.

(** A computation that leaves the list object as it found it. *)
Definition read_only {A} (m : M T A) : Prop :=
  forall s a s', m s = Ok (a, s') -> s' = s.

(** The state [s] with heap [h]. *)
Definition with_heap (s : Skip_List T) (h : gmap addr (Skip_Node T))
  : Skip_List T :=
  mkList (kMaxLevel_ s) (p_ s) (level_ s) (width_ s) (head_ s) h.

Definition with_level (s : Skip_List T) (l : nat) : Skip_List T :=
  mkList (kMaxLevel_ s) (p_ s) l (width_ s) (head_ s) (heap s).

(** The node [n] with link [j] replaced by [l]. *)
Definition upd_link (n : Skip_Node T) (j : nat) (l : Skip_Link)
  : Skip_Node T :=
  mkNode (n_level_ n) (ptr_ n) (<[j := l]> (forward_ n)).
End Representation.

(** Concrete inputs used below. *)
Section Scenarios.
(** One draw below [p], then one above: level 2. *)
Definition grow_once : nat -> Q := draws_of [(1 # 10)%Q; (9 # 10)%Q].
(** First draw above [p]: level 1. *)
Definition grow_never : nat -> Q := draws_of [(9 # 10)%Q].
(** Two draws below [p], then one above: level 3. *)
Definition grow_twice : nat -> Q :=
  draws_of [(1 # 10)%Q; (1 # 10)%Q; (9 # 10)%Q].

Definition empty_list : Skip_List Z := Skip_List_default.

(** The state a call leaves behind. *)
Definition state_after {A} (m : M Z A) (s : Skip_List Z) : Skip_List Z :=
  match m s with
  | Ok (_, s') => s'
  | _ => s
  end.

(** The list holding 3 on two lanes, and the same after inserting 1. *)
Definition list_3 : Skip_List Z :=
  state_after (insert 4 grow_once 3%Z) empty_list.
Definition list_1_3 : Skip_List Z :=
  state_after (insert 4 grow_never 1%Z) list_3.

(** The list holding 3 on two lanes after [insert(5)] at level 1, and the
    same after [remove(5)]. *)
Definition list_3_5 : Skip_List Z :=
  state_after (insert 4 grow_never 5%Z) list_3.
Definition list_3_without_5 : Skip_List Z :=
  state_after (remove 4 5%Z) list_3_5.
End Scenarios.

(** ** The destructor *)

Section Destructor.
Context {T : Type}.

(** [while (node) { Skip_Node<T>* next_node = node->forward_[0].node;
      delete node->ptr_; delete node; node = next_node; }]
    The element a node owns is held in its cell, so [delete node->ptr_]
    and [delete node] release it together. *)
Fixpoint destructor_while (fuel : nat) (x : ptr) : M T unit :=
  match x with
  | None => ret tt
  | Some _ =>
      match fuel with
      | 0 => out_of_fuel
      | S f =>
          l <- load_link x 0 ;;
          delete_node x ;;;
          destructor_while f (node l)
      end
  end.

(** [~Skip_List()] *)
Definition Skip_List_destructor (fuel : nat) : M T unit :=
  h <- get head_ ;;
  match h with
  | None => ret tt
  | Some _ => destructor_while fuel h
  end.
End Destructor.

(** ** Lists that only grow *)

Section Histories.
Context {T : Type} `{Element T}.

(** States obtained from a constructed list by [insert] calls alone. *)
Inductive grown : Skip_List T -> Prop :=
| grown_new (max_level : nat) (p : Q) :
    0 < max_level -> grown (Skip_List_new max_level p)
| grown_insert s fuel draws key r s' :
    grown s -> insert fuel draws key s = Ok (r, s') -> grown s'.
End Histories.

(** ** What a member function may write *)

Section Frames.
Context {T : Type}.

(** A computation that writes nothing but the heap: the data members of
    the list object keep their values. *)
Definition heap_only {A} (m : M T A) : Prop :=
  forall s a s', m s = Ok (a, s') -> s' = with_heap s (heap s').
End Frames.

(** Further concrete inputs. *)
Section More_Scenarios.
(** [list_1_3] after [insert(2)] at level 1, and after [remove(3)]. *)
Definition list_1_2_3 : Skip_List Z :=
  state_after (insert 4 grow_never 2%Z) list_1_3.
Definition list_1 : Skip_List Z :=
  state_after (remove 4 3%Z) list_1_3.

(** Two inserts at level 1 into the default list. *)
Definition list_5 : Skip_List Z :=
  state_after (insert 4 grow_never 5%Z) empty_list.
Definition list_5_8 : Skip_List Z :=
  state_after (insert 4 grow_never 8%Z) list_5.

(** A list with [kMaxLevel_ = 2], filled with draws that ask for more
    levels. *)
Definition flat_list : Skip_List Z := Skip_List_new 2 (1 # 2)%Q.
Definition flat_5 : Skip_List Z :=
  state_after (insert 4 grow_twice 5%Z) flat_list.
Definition flat_5_8 : Skip_List Z :=
  state_after (insert 4 grow_twice 8%Z) flat_5.
End More_Scenarios.

(** ** Strings and [CenterString] *)

Section Strings.
Import Ascii.
Local Open Scope char_scope.

(** [std::string::max_size()], which the implementation defines.  An
    operation that asks for a longer string throws [std::length_error];
    the exception is the result [None]. *)
Variable max_size : Z.

(** [std::string(n, c)] *)
Definition string_fill (n : Z) (c : ascii) : option (list ascii) :=
  if (n <=? max_size)%Z then Some (replicate (Z.to_nat n) c) else None.

(** [a + b] *)
Definition string_append (a b : list ascii) : option (list ascii) :=
  if (Z.of_nat (List.length a + List.length b) <=? max_size)%Z
  then Some (a ++ b) else None.

(** [r.resize(n, c)]: cut to [n] characters, or filled up with [c]. *)
Definition string_resize (r : list ascii) (n : Z) (c : ascii)
  : option (list ascii) :=
  if (n <=? max_size)%Z
  then Some (take (Z.to_nat n) r ++ replicate (Z.to_nat n - List.length r) c)
  else None.

(** [std::to_string] of a [size_t]: its decimal digits. *)
Definition to_string_size (z : Z) : list ascii :=
  String.list_ascii_of_string
    (DecimalString.NilZero.string_of_uint (N.to_uint (Z.to_N z))).

(** [CenterString(s, width)]:
    [std::string r = std::string((width - 1) / 2 - s.length() / 2, ' ');
     r = r + s; r.resize(width, ' '); return r;] in [size_t] arithmetic. *)
Definition CenterString (s : list ascii) (width : Z) : option (list ascii) :=
  r ← string_fill (wrap (wrap (width - 1) / 2 - Z.of_nat (List.length s) / 2)) " ";
  r ← string_append r s;
  string_resize r width " ".
End Strings.

(** ** [DisplayList] *)

(** [std::to_string] at the element type. *)
Class Printable (T : Type) := to_string : T -> list Ascii.ascii.

(** [std::to_string(int)] *)
#[export] Instance Z_Printable : Printable Z := fun z =>
  String.list_ascii_of_string
    (DecimalString.NilZero.string_of_int (Z.to_int z)).

Section Display.
Import Ascii.
Local Open Scope char_scope.
Context {T : Type} `{Printable T}.
Variable max_size : Z.

(** What [std::endl] writes. *)
Definition endl : list ascii := ["010"].

(** The loops of [DisplayList] append to [out], the text written to
    [std::cout] so far; the result is [None] when a string operation
    throws (what had been written by then is not kept). *)

(** Draws the width labels of lane [j = i - 1]:
    [while (node != nullptr) {
       if (node->forward_[i - 1].width > 0)
         std::cout << CenterString(std::to_string(node->forward_[i - 1].width),
                                   node->forward_[i - 1].width * 6);
       node = node->forward_[i - 1].node; }] *)
Fixpoint labels_while (fuel : nat) (j : nat) (x : ptr) (out : list ascii)
  : M T (option (list ascii)) :=
  match x with
  | None => ret (Some out)
  | Some _ =>
      match fuel with
      | 0 => out_of_fuel
      | S f =>
          l <- load_link x j ;;
          if (0 <? width l)%Z then
            match CenterString max_size (to_string_size (width l))
                    (wrap (width l * 6)) with
            | Some t => labels_while f j (node l) (out ++ t)
            | None => ret None
            end
          else labels_while f j (node l) out
      end
  end.

(** Draws the arrows of lane [j = i - 1]:
    [while (node != nullptr) {
       if (node->forward_[i - 1].width > 0)
         std::cout << "o" << std::string(node->forward_[i - 1].width * 6 - 3, '-')
                   << "> ";
       else std::cout << "x ";
       node = node->forward_[i - 1].node; }] *)
Fixpoint arrows_while (fuel : nat) (j : nat) (x : ptr) (out : list ascii)
  : M T (option (list ascii)) :=
  match x with
  | None => ret (Some out)
  | Some _ =>
      match fuel with
      | 0 => out_of_fuel
      | S f =>
          l <- load_link x j ;;
          if (0 <? width l)%Z then
            match string_fill max_size (wrap (wrap (width l * 6) - 3)) "-" with
            | Some d => arrows_while f j (node l) (out ++ ["o"] ++ d ++ [">"; " "])
            | None => ret None
            end
          else arrows_while f j (node l) (out ++ ["x"; " "])
      end
  end.

(** [for (size_t i = level_; i > 0; i--)]: the two lines of each lane, the
    second ended by ["Level " << i - 1 << std::endl]. *)
Fixpoint DisplayList_for (fuel : nat) (i : nat) (out : list ascii)
  : M T (option (list ascii)) :=
  match i with
  | 0 => ret (Some out)
  | S j =>
      h <- get head_ ;;
      r <- labels_while fuel j h out ;;
      match r with
      | None => ret None
      | Some out =>
          let out := out ++ endl in
          h <- get head_ ;;
          r <- arrows_while fuel j h out ;;
          match r with
          | None => ret None
          | Some out =>
              DisplayList_for fuel j
                (out ++ ["L"; "e"; "v"; "e"; "l"; " "]
                     ++ to_string_size (Z.of_nat j) ++ endl)
          end
      end
  end.

(** The label of a node: its element in a field of 6 characters, or 6
    spaces for the sentinel:
    [if (node->ptr_)
       std::cout << std::to_string( *(node->ptr_))
                 << std::string(6 - std::to_string( *(node->ptr_)).length(), ' ');
     else std::cout << std::string(6, ' ');] *)
Definition node_label (p : option T) : option (list ascii) :=
  match p with
  | Some e =>
      pad ← string_fill max_size
              (wrap (6 - Z.of_nat (List.length (to_string e)))) " ";
      Some (to_string e ++ pad)
  | None => string_fill max_size 6 " "
  end.

(** Draws the node labels, along level 0. *)
Fixpoint names_while (fuel : nat) (x : ptr) (out : list ascii)
  : M T (option (list ascii)) :=
  match x with
  | None => ret (Some out)
  | Some _ =>
      match fuel with
      | 0 => out_of_fuel
      | S f =>
          n <- load_node x ;;
          match node_label (ptr_ n) with
          | Some t =>
              l <- load_link x 0 ;;
              names_while f (node l) (out ++ t)
          | None => ret None
          end
      end
  end.

(** [DisplayList()]; the result is the text written to [std::cout]. *)
Definition DisplayList (fuel : nat) : M T (option (list ascii)) :=
  lv <- get level_ ;;
  r <- DisplayList_for fuel lv [] ;;
  match r with
  | None => ret None
  | Some out => h <- get head_ ;; names_while fuel h out
  end.

(** The drawing of level 0 of a list of [n] elements, as in the example
    of the source: a width label [1] and an arrow for the sentinel and
    for every element. *)
Definition level0_rows (n : nat) : list ascii :=
  List.concat (replicate (S n) [" "; " "; "1"; " "; " "; " "]) ++ endl ++
  List.concat (replicate (S n) ["o"; "-"; "-"; "-"; ">"; " "]) ++
  ["L"; "e"; "v"; "e"; "l"; " "; "0"] ++ endl.

(** The line of node labels: six spaces under the sentinel, then every
    element left-aligned in a field of 6 characters. *)
Definition node_labels (l : list T) : list ascii :=
  replicate 6 " " ++
  List.concat
    (List.map (fun e => to_string e
                        ++ replicate (6 - List.length (to_string e)) " ") l).
End Display.

(** ** Behaviour on concrete inputs *)

(** [int] with its [<] and [==] is a lawful element type. *)
#[export] Instance Z_ElementLaws : ElementLaws Z.
Proof.
  split; simpl.
  - intros a. apply Z.ltb_irrefl.
  - intros a b c Hab Hbc. apply Z.ltb_lt. apply Z.ltb_lt in Hab, Hbc. lia.
  - intros a b. rewrite Z.eqb_eq, !Z.ltb_ge. lia.
Qed.


(** C1. [insert(3)] at level 2 and then [insert(1)] at level 1 leave the
    level-1 link from the head to the node of 3 with width 1, although that
    node is now two steps away.  In that two-element list [at(0)] returns
    the node holding 3 (the smallest element is 1) and [at(1)] returns
    [nullptr] although rank 1 is below the size 2. *)
Theorem at_rank_disagrees_with_sorted_order :
  exists n3 s1 n1 s2,
    insert 4 grow_once 3%Z empty_list = Ok (n3, s1) /\
    insert 4 grow_never 1%Z s1 = Ok (n1, s2) /\
    level0_elements 4 s2 = Ok ([1; 3]%Z, s2) /\
    length s2 = Ok (2%Z, s2) /\
    head_ s2 = Some 1%positive /\ n3 = Some 2%positive /\
    load_link (head_ s2) 1 s2 = Ok (mkLink 1 n3, s2) /\
    level0_steps 4 (heap s2) 1 2 = Some 2 /\
    at_ 4 0 s2 = Ok (n3, s2) /\
    load_elem n3 s2 = Ok (3%Z, s2) /\
    at_ 4 1 s2 = Ok (None, s2) /\
    operator_index 4 1 s2 = Ok (None, s2).
Proof.
  do 4 eexists.
  repeat (split; [vm_compute; reflexivity|]).
  vm_compute; reflexivity.
Qed.

(** C3. [remove] never writes [width_]: after [insert(3)] and a successful
    [remove(3)] the list is empty but [length()] still returns 1. *)
Theorem length_not_decremented_by_remove :
  exists n3 s1 s2,
    insert 4 grow_never 3%Z empty_list = Ok (n3, s1) /\
    remove 4 3%Z s1 = Ok (Some 3%Z, s2) /\
    empty s2 = Ok (true, s2) /\
    level0_elements 4 s2 = Ok ([], s2) /\
    length s2 = Ok (1%Z, s2).
Proof.
  do 3 eexists.
  repeat (split; [vm_compute; reflexivity|]).
  vm_compute; reflexivity.
Qed.

(** C5. On the empty list, and for a key above every stored element,
    [find] and [remove] step to [x->forward_[0].node], which is [nullptr],
    and dereference it: the behaviour is undefined instead of a return of
    [nullptr]. *)
Theorem find_remove_absent_key_dereference_null :
  find 4 5%Z empty_list = Undefined /\
  remove 4 5%Z empty_list = Undefined /\
  exists n3 s1,
    insert 4 grow_never 3%Z empty_list = Ok (n3, s1) /\
    find 4 5%Z s1 = Undefined /\
    remove 4 5%Z s1 = Undefined.
Proof.
  split; [vm_compute; reflexivity|].
  split; [vm_compute; reflexivity|].
  do 2 eexists.
  repeat (split; [vm_compute; reflexivity|]).
  vm_compute; reflexivity.
Qed.

(** C6. Inserting 3 into a list that already holds 3, with a draw of
    level 3, returns the existing node and keeps the size, but raises
    [level_] from 1 to 3 and overwrites the widths of the head's links 1
    and 2 with 0: the state is not the one before the call. *)
Theorem duplicate_insert_changes_state :
  exists n3 s1 s2,
    insert 4 grow_never 3%Z empty_list = Ok (n3, s1) /\
    insert 4 grow_twice 3%Z s1 = Ok (n3, s2) /\
    width_ s2 = width_ s1 /\
    level_ s1 = 1 /\ level_ s2 = 3 /\
    (l <- load_link (head_ s1) 1 ;; ret (width l)) s1 = Ok (1%Z, s1) /\
    (l <- load_link (head_ s2) 1 ;; ret (width l)) s2 = Ok (0%Z, s2) /\
    s2 <> s1.
Proof.
  do 3 eexists.
  repeat (split; [vm_compute; reflexivity|]).
  vm_compute. intros E. discriminate E.
Qed.

(** C2.  The width invariant fails on the express lanes of reachable
    lists, by two slips of the code.

    [insert] never widens a link that spans the new node: after
    [insert(3)] at level 2 and [insert(1)] at level 1 the head's link on
    lane 1 leads to the node of 3 and stores width 1, although that node is
    2 level-0 steps away.

    [remove] decrements the width of a link that does not lead to the
    removed node even when the link has no target and width 0: after
    [insert(3)] at level 2, [insert(5)] at level 1 and [remove(5)] the
    lane-1 link of the node of 3 has no target and stores [2^64 - 1].

    Both links are on lane 1, below [level_ = 2], so the invariant fails
    also when level 0 is left out. *)
Theorem width_invariant_fails_above_level_0 :
  (reachable list_1_3 /\
   (exists n l,
      heap list_1_3 !! 1%positive = Some n /\ head_ list_1_3 = Some 1%positive /\
      1 < level_ list_1_3 /\ forward_ n !! 1 = Some l /\
      node l = Some 2%positive /\ width l = 1%Z /\
      level0_steps (size (heap list_1_3)) (heap list_1_3) 1%positive 2%positive
      = Some 2) /\
   ~ express_width_invariant list_1_3 /\ ~ width_invariant list_1_3) /\
  (reachable list_3_without_5 /\
   (exists n l,
      heap list_3_without_5 !! 2%positive = Some n /\
      1 < level_ list_3_without_5 /\ forward_ n !! 1 = Some l /\
      node l = None /\ width l = (size_max - 1)%Z) /\
   ~ express_width_invariant list_3_without_5 /\
   ~ width_invariant list_3_without_5).
Proof.
  assert (Hweak : forall s : Skip_List Z,
            width_invariant s -> express_width_invariant s).
  { intros s Hinv a n i l Hn Hi Hl. apply (Hinv a n i l Hn); [lia|exact Hl]. }
  assert (H3 : reachable list_3).
  { eapply reachable_insert with (s := empty_list) (fuel := 4)
      (draws := grow_once) (key := 3%Z); [apply reachable_new; lia|].
    vm_compute; reflexivity. }
  assert (Hbad1 : ~ express_width_invariant list_1_3).
  { intros Hinv.
    specialize (Hinv 1%positive
                  (mkNode 16 None
                     (mkLink 1 (Some 3%positive) :: mkLink 1 (Some 2%positive)
                        :: replicate 14 default_link))
                  1 (mkLink 1 (Some 2%positive))).
    simpl in Hinv. discriminate Hinv.
    - vm_compute. reflexivity.
    - vm_compute. lia.
    - reflexivity. }
  assert (Hbad2 : ~ express_width_invariant list_3_without_5).
  { intros Hinv.
    specialize (Hinv 2%positive
                  (mkNode 2 (Some 3%Z)
                     [mkLink 1 None; mkLink (size_max - 1) None])
                  1 (mkLink (size_max - 1) None)).
    simpl in Hinv. discriminate Hinv.
    - vm_compute. reflexivity.
    - vm_compute. lia.
    - reflexivity. }
  split; (split; [|split; [|split]]).
  - eapply reachable_insert with (s := list_3) (fuel := 4)
      (draws := grow_never) (key := 1%Z); [exact H3|].
    vm_compute; reflexivity.
  - exists (mkNode 16 None
              (mkLink 1 (Some 3%positive) :: mkLink 1 (Some 2%positive)
                 :: replicate 14 default_link)),
      (mkLink 1 (Some 2%positive)).
    repeat (split; [vm_compute; first [reflexivity|lia]|]).
    vm_compute; reflexivity.
  - exact Hbad1.
  - intros Hinv. exact (Hbad1 (Hweak _ Hinv)).
  - eapply reachable_remove with (s := list_3_5) (fuel := 4) (key := 5%Z);
      [eapply reachable_insert with (s := list_3) (fuel := 4)
         (draws := grow_never) (key := 5%Z); [exact H3|]|];
      vm_compute; reflexivity.
  - exists (mkNode 2 (Some 3%Z) [mkLink 1 None; mkLink (size_max - 1) None]),
      (mkLink (size_max - 1) None).
    repeat (split; [vm_compute; first [reflexivity|lia]|]).
    vm_compute; reflexivity.
  - exact Hbad2.
  - intros Hinv. exact (Hbad2 (Hweak _ Hinv)).
Qed.

(** Level 0 is outside this bookkeeping: its links have the default width
    1 from construction on, with or without a target, so a freshly
    constructed list already fails [width_invariant], which reads the
    invariant on every lane. *)
Lemma width_invariant_fails_on_new_list :
  reachable empty_list /\ ~ width_invariant empty_list.
Proof.
  split.
  - apply reachable_new. lia.
  - intros Hinv.
    specialize (Hinv 1%positive (Skip_Node_new None 16) 0 default_link).
    simpl in Hinv. discriminate Hinv.
    + vm_compute. reflexivity.
    + vm_compute. lia.
    + reflexivity.
Qed.

(** C7, as stated.  With [kMaxLevel_ = 1] the generated level is 1, which
    is above [kMaxLevel_ - 1 = 0]. *)
Lemma RandomLevel_above_bound_for_max_level_one :
  exists lv s',
    RandomLevel grow_once (Skip_List_new 1 (1 # 2)%Q : Skip_List Z)
    = Ok (lv, s') /\
    ~ (1 <= Z.of_nat lv <= Z.of_nat 1 - 1)%Z.
Proof.
  do 2 eexists. split; [vm_compute; reflexivity|]. lia.
Qed.

(** C8. The validity test [(0.0F <= p) <= 1.0F] compares 0 or 1 with 1
    and always succeeds, so [MaxLevel] returns the value of the formula for
    every [p], also for [p = 2], and never the sentinel of the early
    return. *)
Theorem MaxLevel_never_rejects :
  (forall p, MaxLevel_valid p = true) /\
  (forall log_ratio N p, MaxLevel log_ratio N p = log_ratio N p) /\
  (forall log_ratio N, MaxLevel log_ratio N (2 # 1)%Q = log_ratio N (2 # 1)%Q).
Proof.
  assert (Hv : forall p, MaxLevel_valid p = true).
  { intros p. unfold MaxLevel_valid. destruct (float_le 0 p); reflexivity. }
  split; [exact Hv|].
  split; intros; unfold MaxLevel; rewrite Hv; reflexivity.
Qed.

(** C9. On the empty list [insert(5)] then [find(5)] returns the new node
    and [remove(5)] returns 5, but the [find(5)] that follows dereferences
    [nullptr]; the same happens when 5 was the largest element of a longer
    list. *)
Theorem find_after_remove_dereferences_null :
  (exists n5 s1 s2,
     insert 4 grow_never 5%Z empty_list = Ok (n5, s1) /\
     find 4 5%Z s1 = Ok (n5, s1) /\
     load_elem n5 s1 = Ok (5%Z, s1) /\
     remove 4 5%Z s1 = Ok (Some 5%Z, s2) /\
     find 4 5%Z s2 = Undefined) /\
  (exists n3 s1 n5 s2 s3,
     insert 4 grow_never 3%Z empty_list = Ok (n3, s1) /\
     insert 4 grow_never 5%Z s1 = Ok (n5, s2) /\
     remove 4 5%Z s2 = Ok (Some 5%Z, s3) /\
     find 4 5%Z s3 = Undefined).
Proof.
  split.
  - do 3 eexists.
    repeat (split; [vm_compute; reflexivity|]).
    vm_compute; reflexivity.
  - do 5 eexists.
    repeat (split; [vm_compute; reflexivity|]).
    vm_compute; reflexivity.
Qed.

(** ** Reasoning about computations *)

Section Monad_Lemmas.
Context {T : Type}.

Lemma bind_Ok {A B} (m : M T A) (k : A -> M T B) s b s' :
  (x <- m ;; k x) s = Ok (b, s') <->
  exists a s1, m s = Ok (a, s1) /\ k a s1 = Ok (b, s').
Proof.
  unfold bind. split.
  - destruct (m s) as [[a s1]| |]; [|discriminate..]. eauto.
  - intros (a & s1 & -> & Hk). exact Hk.
Qed.

Lemma bind_step {A B} (m : M T A) (k : A -> M T B) s a s1 :
  m s = Ok (a, s1) -> (x <- m ;; k x) s = k a s1.
Proof. unfold bind. intros ->. reflexivity. Qed.

Lemma load_node_eq (s : Skip_List T) a n :
  heap s !! a = Some n -> load_node (Some a) s = Ok (n, s).
Proof. unfold load_node. intros ->. reflexivity. Qed.

Lemma load_node_Ok (s : Skip_List T) x n s' :
  load_node x s = Ok (n, s') ->
  exists a, x = Some a /\ heap s !! a = Some n /\ s' = s.
Proof.
  unfold load_node. destruct x as [a|]; [|discriminate].
  destruct (heap s !! a) as [m|] eqn:E; [|discriminate].
  intros [= -> ->]. eauto.
Qed.

Lemma load_link_eq (s : Skip_List T) a n j l :
  heap s !! a = Some n -> forward_ n !! j = Some l ->
  load_link (Some a) j s = Ok (l, s).
Proof.
  intros Hn Hl. unfold load_link.
  rewrite (bind_step _ _ _ _ _ (load_node_eq _ _ _ Hn)), Hl. reflexivity.
Qed.

Lemma load_link_Ok (s : Skip_List T) x j l s' :
  load_link x j s = Ok (l, s') ->
  exists a n, x = Some a /\ heap s !! a = Some n /\
              forward_ n !! j = Some l /\ s' = s.
Proof.
  unfold load_link. intros (n & s1 & Hn & Hk)%bind_Ok.
  apply load_node_Ok in Hn as (a & -> & Hn & ->).
  destruct (forward_ n !! j) as [l'|] eqn:E; [|discriminate].
  injection Hk as -> ->. eauto 10.
Qed.

Lemma load_elem_eq (s : Skip_List T) a n e :
  heap s !! a = Some n -> ptr_ n = Some e ->
  load_elem (Some a) s = Ok (e, s).
Proof.
  intros Hn He. unfold load_elem.
  rewrite (bind_step _ _ _ _ _ (load_node_eq _ _ _ Hn)), He. reflexivity.
Qed.

Lemma load_elem_Ok (s : Skip_List T) x e s' :
  load_elem x s = Ok (e, s') ->
  exists a n, x = Some a /\ heap s !! a = Some n /\
              ptr_ n = Some e /\ s' = s.
Proof.
  unfold load_elem. intros (n & s1 & Hn & Hk)%bind_Ok.
  apply load_node_Ok in Hn as (a & -> & Hn & ->).
  destruct (ptr_ n) as [e'|] eqn:E; [|discriminate].
  injection Hk as -> ->. eauto 10.
Qed.

Lemma store_link_eq (s : Skip_List T) a n j l :
  heap s !! a = Some n -> j < List.length (forward_ n) ->
  store_link (Some a) j l s
  = Ok (tt, with_heap s (<[a := upd_link n j l]> (heap s))).
Proof.
  intros Hn Hj. unfold store_link.
  rewrite (bind_step _ _ _ _ _ (load_node_eq _ _ _ Hn)).
  destruct (decide _) as [_|Hc]; [reflexivity|contradiction].
Qed.

Lemma store_node_eq (s : Skip_List T) a n j l y :
  heap s !! a = Some n -> forward_ n !! j = Some l ->
  store_node (Some a) j y s
  = Ok (tt, with_heap s (<[a := upd_link n j (mkLink (width l) y)]> (heap s))).
Proof.
  intros Hn Hl. unfold store_node.
  rewrite (bind_step _ _ _ _ _ (load_link_eq _ _ _ _ _ Hn Hl)).
  apply store_link_eq; [exact Hn|]. eapply lookup_lt_Some, Hl.
Qed.

Lemma store_width_eq (s : Skip_List T) a n j l w :
  heap s !! a = Some n -> forward_ n !! j = Some l ->
  store_width (Some a) j w s
  = Ok (tt, with_heap s (<[a := upd_link n j (mkLink w (node l))]> (heap s))).
Proof.
  intros Hn Hl. unfold store_width.
  rewrite (bind_step _ _ _ _ _ (load_link_eq _ _ _ _ _ Hn Hl)).
  apply store_link_eq; [exact Hn|]. eapply lookup_lt_Some, Hl.
Qed.

Lemma arr_get_eq {A} (a : list A) i v (s : Skip_List T) :
  a !! i = Some v -> arr_get a i s = Ok (v, s).
Proof. unfold arr_get. intros ->. reflexivity. Qed.

Lemma arr_set_eq {A} (a : list A) i v (s : Skip_List T) :
  i < List.length a -> arr_set a i v s = Ok (<[i := v]> a, s).
Proof.
  unfold arr_set. intros Hi.
  destruct (decide _) as [_|Hc]; [reflexivity|contradiction].
Qed.

(** *** Rules for [spec] *)

Lemma spec_ret {A} (a : A) (s : Skip_List T) Q F :
  Q a s -> spec (ret a) s Q F.
Proof. intros HQ. exact HQ. Qed.

Lemma spec_bind {A B} (m : M T A) (k : A -> M T B) s R Q F :
  spec m s R F ->
  (forall a s1, R a s1 -> spec (k a) s1 Q F) ->
  spec (x <- m ;; k x) s Q F.
Proof.
  unfold spec, bind. intros Hm Hk.
  destruct (m s) as [[a s1]| |]; [|contradiction|exact Hm].
  apply Hk, Hm.
Qed.

Lemma spec_step {A B} (m : M T A) (k : A -> M T B) s a s1 Q F :
  m s = Ok (a, s1) -> spec (k a) s1 Q F -> spec (x <- m ;; k x) s Q F.
Proof. unfold spec. intros Hm Hk. rewrite (bind_step _ _ _ _ _ Hm). exact Hk. Qed.

Lemma spec_eq {A} (m : M T A) s a s1 (Q : A -> Skip_List T -> Prop) F :
  m s = Ok (a, s1) -> Q a s1 -> spec m s Q F.
Proof. intros Hm HQ. unfold spec. rewrite Hm. exact HQ. Qed.

Lemma spec_conseq {A} (m : M T A) s (Q Q' : A -> Skip_List T -> Prop)
    (F F' : Prop) :
  spec m s Q F -> (forall a s', Q a s' -> Q' a s') -> (F -> F') ->
  spec m s Q' F'.
Proof.
  unfold spec. intros Hm HQ HF.
  destruct (m s) as [[a s1]| |]; auto.
Qed.

Lemma spec_Ok {A} (m : M T A) s Q F a s' :
  spec m s Q F -> m s = Ok (a, s') -> Q a s'.
Proof. unfold spec. intros Hm E. rewrite E in Hm. exact Hm. Qed.

Lemma spec_total {A} (m : M T A) s Q F :
  spec m s Q F -> ~ F -> exists a s', m s = Ok (a, s') /\ Q a s'.
Proof.
  unfold spec. intros Hm HF.
  destruct (m s) as [[a s1]| |]; [eauto|contradiction..].
Qed.
End Monad_Lemmas.

(** ** Positional access is read-only *)

Section Read_Only.
Context {T : Type} `{Element T}.

Lemma read_only_ret {A} (a : A) : read_only (ret a : M T A).
Proof. intros s b s' [= _ ->]. reflexivity. Qed.

Lemma read_only_get {A} (f : Skip_List T -> A) : read_only (get f).
Proof. intros s b s' [= _ ->]. reflexivity. Qed.

Lemma read_only_bind {A B} (m : M T A) (k : A -> M T B) :
  read_only m -> (forall a, read_only (k a)) -> read_only (x <- m ;; k x).
Proof.
  intros Hm Hk s b s' (a & s1 & H1 & H2)%bind_Ok.
  apply Hm in H1 as ->. apply Hk in H2. exact H2.
Qed.

Lemma read_only_load_link x j : read_only (load_link x j : M T Skip_Link).
Proof. intros s l s' (a & n & _ & _ & _ & ->)%load_link_Ok. reflexivity. Qed.

Lemma read_only_load_elem x : read_only (load_elem x : M T T).
Proof. intros s l s' (a & n & _ & _ & _ & ->)%load_elem_Ok. reflexivity. Qed.

Lemma read_only_at_while fuel j : forall w x, read_only (at_while (T:=T) fuel j w x).
Proof.
  induction fuel as [|fuel IH]; intros w x; simpl.
  - intros s a s' [=].
  - apply read_only_bind; [apply read_only_load_link|].
    intros l. destruct (_ && _); [|apply read_only_ret].
    destruct (_ =? _)%Z; [apply read_only_ret|apply IH].
Qed.

Lemma read_only_at_for fuel i : forall w x, read_only (at_for (T:=T) fuel i w x).
Proof.
  induction i as [|i IH]; intros w x; simpl.
  - apply read_only_ret.
  - apply read_only_bind; [apply read_only_at_while|].
    intros [y|[w' x']]; [apply read_only_ret|apply IH].
Qed.

Lemma read_only_at fuel index : read_only (at_ (T:=T) fuel index).
Proof.
  unfold at_. apply read_only_bind; [apply read_only_get|].
  intros n. destruct (_ >=? _)%Z; [apply read_only_ret|].
  apply read_only_bind; [apply read_only_get|]. intros x.
  apply read_only_bind; [apply read_only_get|]. intros lv.
  apply read_only_at_for.
Qed.

End Read_Only.


(** ** Lanes of the abstract list *)

Section Lanes.
Context {T : Type} `{Element T}.
Implicit Types (l r : list (anode T)) (n m : anode T) (j : nat).
Implicit Types (h : gmap addr (Skip_Node T)).

Lemma next_at_app j l r :
  next_at j (l ++ r)
  = match next_at j l with Some a => Some a | None => next_at j r end.
Proof.
  induction l as [|n l IH]; simpl; [reflexivity|].
  destruct (decide (j < an_level n)); [reflexivity|exact IH].
Qed.

Lemma next_at_none j l :
  Forall (fun n => an_level n <= j) l -> next_at j l = None.
Proof.
  induction 1 as [|n l Hn _ IH]; simpl; [reflexivity|].
  destruct (decide (j < an_level n)); [lia|exact IH].
Qed.

Lemma next_at_none_inv j l :
  next_at j l = None -> Forall (fun n => an_level n <= j) l.
Proof.
  induction l as [|n l IH]; simpl; [constructor|].
  destruct (decide (j < an_level n)); [discriminate|].
  intros Hl. constructor; [lia|auto].
Qed.

Lemma next_at_skip j l r :
  Forall (fun n => an_level n <= j) l -> next_at j (l ++ r) = next_at j r.
Proof. intros Hl. rewrite next_at_app, (next_at_none _ _ Hl). reflexivity. Qed.

Lemma next_at_some j l a :
  next_at j l = Some a ->
  exists l1 n l2, l = l1 ++ n :: l2 /\ an_addr n = a /\ j < an_level n /\
                  Forall (fun n => an_level n <= j) l1.
Proof.
  induction l as [|n l IH]; simpl; [discriminate|].
  destruct (decide (j < an_level n)) as [Hj|Hj].
  - intros [= <-]. exists [], n, l. repeat split; [exact Hj|constructor].
  - intros (l1 & n' & l2 & -> & Ha & Hlt & Hl1)%IH.
    exists (n :: l1), n', l2. repeat split; try assumption.
    constructor; [lia|exact Hl1].
Qed.

Lemma next_at_elem j l a :
  next_at j l = Some a -> a ∈ an_addr <$> l.
Proof.
  intros (l1 & n & l2 & -> & <- & _ & _)%next_at_some.
  rewrite fmap_app, fmap_cons. set_solver.
Qed.

Lemma node_ok_ext h n tg tg' :
  node_ok h n tg -> (forall j, j < an_level n -> tg j = tg' j) ->
  node_ok h n tg'.
Proof.
  intros (f & Hf & Hlen & Hl) Heq. exists f.
  split; [exact Hf|]. split; [exact Hlen|].
  intros j lk Hlk. destruct (Hl j lk Hlk) as [-> Hw].
  split; [|exact Hw]. apply Heq.
  rewrite <- Hlen. eapply lookup_lt_Some, Hlk.
Qed.

Lemma node_ok_heap h h' n tg :
  node_ok h n tg -> h' !! an_addr n = h !! an_addr n -> node_ok h' n tg.
Proof. intros (f & Hf & Hrest) Heq. exists f. rewrite Heq. auto. Qed.

Lemma node_ok_link h n tg j :
  node_ok h n tg -> j < an_level n ->
  exists nd lk, h !! an_addr n = Some nd /\ ptr_ nd = an_ptr n /\
               List.length (forward_ nd) = an_level n /\
               forward_ nd !! j = Some lk /\ node lk = tg j /\
               (j = 0 -> width lk = 1%Z).
Proof.
  intros (f & Hf & Hlen & Hl) Hj.
  destruct (lookup_lt_is_Some_2 f j) as [lk Hfl]; [lia|].
  exists (mkNode (an_level n) (an_ptr n) f), lk. simpl.
  destruct (Hl j lk Hfl). auto 10.
Qed.

Lemma node_ok_cell h n tg :
  node_ok h n tg ->
  exists nd, h !! an_addr n = Some nd /\ ptr_ nd = an_ptr n /\
             List.length (forward_ nd) = an_level n.
Proof. intros (f & Hf & Hlen & _). eexists. split; [exact Hf|]. auto. Qed.

(** Overwriting link [j] of the cell of [n]. *)
Lemma node_ok_upd h n tg tg' nd j lk :
  node_ok h n tg -> h !! an_addr n = Some nd ->
  node lk = tg' j -> (j = 0 -> width lk = 1%Z) ->
  (forall j', j' <> j -> j' < an_level n -> tg' j' = tg j') ->
  node_ok (<[an_addr n := upd_link nd j lk]> h) n tg'.
Proof.
  intros (f & Hf & Hlen & Hl) Hnd Hlk Hw Heq.
  rewrite Hf in Hnd. injection Hnd as <-. unfold upd_link. simpl.
  exists (<[j := lk]> f). rewrite lookup_insert_eq, length_insert.
  split; [reflexivity|]. split; [exact Hlen|].
  intros j' lk' Hlk'.
  assert (Hj' : j' < an_level n).
  { rewrite <- Hlen, <- (length_insert f j lk). eapply lookup_lt_Some, Hlk'. }
  destruct (decide (j' = j)) as [->|Hne].
  - rewrite list_lookup_insert_eq in Hlk' by lia.
    injection Hlk' as <-. auto.
  - rewrite list_lookup_insert_ne in Hlk' by auto.
    destruct (Hl j' lk' Hlk') as [-> Hw']. split; [|exact Hw'].
    symmetry. apply Heq; assumption.
Qed.

Lemma chain_app h l r tl :
  chain h (l ++ r) tl <-> chain h l (fun j => r ++ tl j) /\ chain h r tl.
Proof.
  induction l as [|n l IH]; simpl; [tauto|].
  rewrite IH. split.
  - intros (Hn & Hl & Hr). repeat split; try assumption.
    eapply node_ok_ext; [exact Hn|]. intros j _. simpl.
    rewrite app_assoc. reflexivity.
  - intros ((Hn & Hl) & Hr). repeat split; try assumption.
    eapply node_ok_ext; [exact Hn|]. intros j _. simpl.
    rewrite app_assoc. reflexivity.
Qed.

Lemma chain_ext h l tl tl' :
  chain h l tl ->
  (forall n j, n ∈ l -> j < an_level n ->
     next_at j (tl j) = next_at j (tl' j)) ->
  chain h l tl'.
Proof.
  induction l as [|n l IH]; simpl; [auto|].
  intros [Hn Hl] Heq. split.
  - eapply node_ok_ext; [exact Hn|]. intros j Hj. simpl.
    rewrite !next_at_app, (Heq n j); [reflexivity|set_solver|exact Hj].
  - apply IH; [exact Hl|]. intros m j Hm. apply Heq. set_solver.
Qed.

Lemma chain_heap h h' l tl :
  chain h l tl ->
  (forall n, n ∈ l -> h' !! an_addr n = h !! an_addr n) ->
  chain h' l tl.
Proof.
  induction l as [|n l IH]; simpl; [auto|].
  intros [Hn Hl] Heq. split.
  - eapply node_ok_heap; [exact Hn|]. apply Heq. set_solver.
  - apply IH; [exact Hl|]. intros m Hm. apply Heq. set_solver.
Qed.

Lemma chain_elem h l tl n :
  chain h l tl -> n ∈ l ->
  exists l1 l2, l = l1 ++ n :: l2 /\
                node_ok h n (fun j => next_at j (l2 ++ tl j)).
Proof.
  induction l as [|m l IH]; simpl; [set_solver|].
  intros [Hm Hl] [->|Hn]%elem_of_cons.
  - exists [], l. auto.
  - destruct (IH Hl Hn) as (l1 & l2 & -> & Hok).
    exists (m :: l1), l2. auto.
Qed.

(** Changing the width of a link above level 0, or storing width 1 at
    level 0, keeps every chain. *)
Lemma chain_upd_width h l tl a nd j lk w :
  chain h l tl -> h !! a = Some nd -> forward_ nd !! j = Some lk ->
  (j = 0 -> w = 1%Z) ->
  chain (<[a := upd_link nd j (mkLink w (node lk))]> h) l tl.
Proof.
  intros Hc Hnd Hlk Hj. induction l as [|n l IH]; simpl; [auto|].
  destruct Hc as [Hn Hl]. split; [|auto].
  destruct (decide (an_addr n = a)) as [<-|Hne].
  - eapply node_ok_upd; [exact Hn|exact Hnd| |exact Hj|auto]. simpl.
    destruct Hn as (f & Hf & Hlen & Hfl). rewrite Hf in Hnd.
    injection Hnd as <-. simpl in Hlk. apply (Hfl j lk Hlk).
  - eapply node_ok_heap; [exact Hn|]. apply lookup_insert_ne. auto.
Qed.
End Lanes.

(** ** The key-based descent *)

Section Descent.
Context {T : Type} `{Element T}.
Implicit Types (n m : anode T) (j : nat).

Lemma insert_while_S fuel j (key : T) x ws :
  insert_while (S fuel) j key x ws
  = (lk <- load_link x j ;;
     match node lk with
     | None => ret (x, ws)
     | Some _ =>
         e <- load_elem (node lk) ;;
         if elt_lt e key
         then insert_while fuel j key (node lk) (wrap (ws + width lk))
         else ret (x, ws)
     end).
Proof. reflexivity. Qed.

Section Fixed_State.
Variables (s : Skip_List T) (key : T) (post : list (anode T)).
Hypothesis Hpost : chain (heap s) post (fun _ => []).
Hypothesis Hnb : Forall (not_below key) post.

Lemma insert_while_spec j : forall B m fuel ws,
  lane_link (heap s) m j (next_at j (B ++ post)) ->
  chain (heap s) B (fun _ => post) ->
  Forall (below key) B ->
  spec (insert_while fuel j key (Some (an_addr m)) ws) s
    (fun r s' => s' = s /\
       exists B1 m' B2, m :: B = B1 ++ m' :: B2 /\
         fst r = Some (an_addr m') /\
         (B1 = [] \/ j < an_level m') /\
         Forall (fun n => an_level n <= j) B2)
    (fuel <= List.length B).
Proof.
  induction B as [|n B IH]; intros m fuel ws Hlink Hchain Hbelow.
  - destruct fuel as [|fuel]; [simpl; unfold spec; simpl; lia|].
    rewrite insert_while_S.
    destruct Hlink as (nd & lk & Hnd & Hlk & Htgt). simpl in Htgt.
    eapply spec_step; [eapply load_link_eq; eassumption|].
    rewrite Htgt. destruct (next_at j post) as [a|] eqn:Hnext.
    + apply next_at_some in Hnext as (l1 & q & l2 & Hq & <- & Hjq & _).
      assert (Hin : q ∈ post) by (rewrite Hq; set_solver).
      destruct (chain_elem _ _ _ _ Hpost Hin) as (p1 & p2 & _ & Hok).
      apply node_ok_cell in Hok as (ndq & Hndq & Hptr & _).
      rewrite Forall_forall in Hnb.
      destruct (Hnb q Hin) as (e & He & Hlt). rewrite He in Hptr.
      eapply spec_step; [eapply load_elem_eq; eassumption|].
      rewrite Hlt. apply spec_ret. split; [reflexivity|].
      exists [], m, []. simpl. auto.
    + apply spec_ret. split; [reflexivity|].
      exists [], m, []. simpl. auto.
  - simpl in Hchain. destruct Hchain as [Hn Hchain].
    apply Forall_cons in Hbelow as [Hbn Hbelow].
    destruct (decide (j < an_level n)) as [Hj|Hj].
    + destruct fuel as [|fuel]; [simpl; unfold spec; simpl; lia|].
      rewrite insert_while_S.
      destruct Hlink as (nd & lk & Hnd & Hlk & Htgt). simpl in Htgt.
      destruct (decide (j < an_level n)); [|contradiction].
      eapply spec_step; [eapply load_link_eq; eassumption|].
      rewrite Htgt.
      destruct (node_ok_link _ _ _ _ Hn Hj)
        as (ndn & lkn & Hndn & Hptr & _ & Hlkn & Htgn & _).
      destruct Hbn as (e & He & Hlt). rewrite He in Hptr.
      eapply spec_step; [eapply load_elem_eq; eassumption|].
      rewrite Hlt.
      eapply spec_conseq; [apply IH; [|exact Hchain|exact Hbelow]| |].
      * exists ndn, lkn. auto.
      * intros r s' (-> & B1 & m' & B2 & Heq & Hr & Hlv & HB2).
        split; [reflexivity|].
        exists (m :: B1), m', B2. rewrite Heq. simpl.
        repeat split; try assumption. right.
        destruct Hlv as [->|Hlv]; [|exact Hlv].
        simpl in Heq. injection Heq as <- _. exact Hj.
      * simpl. lia.
    + eapply spec_conseq; [apply (IH m fuel ws); [|exact Hchain|exact Hbelow]| |].
      * destruct Hlink as (nd & lk & Hnd & Hlk & Htgt). simpl in Htgt.
        destruct (decide (j < an_level n)); [contradiction|].
        exists nd, lk. auto.
      * intros r s' (-> & B1 & m' & B2 & Heq & Hr & Hlv & HB2).
        split; [reflexivity|].
        destruct B1 as [|b B1]; simpl in Heq.
        -- injection Heq as <- <-. exists [], m, (n :: B). simpl.
           repeat split; auto. constructor; [lia|exact HB2].
        -- injection Heq as <- ->. exists (m :: n :: B1), m', B2. simpl.
           repeat split; auto. destruct Hlv as [[=]|Hlv]. auto.
      * simpl. lia.
Qed.

Variables (hd : anode T) (pre : list (anode T)).
Hypothesis Hchain : chain (heap s) (hd :: pre) (fun _ => post).
Hypothesis Hbelow : Forall (below key) pre.

Lemma split_suffix_below A m B :
  hd :: pre = A ++ m :: B ->
  Forall (below key) B /\ List.length B <= List.length pre.
Proof.
  destruct A as [|a A]; simpl; intros [= -> Hpre].
  - subst B. auto.
  - subst pre. apply Forall_app in Hbelow as [_ HB].
    apply Forall_cons in HB as [_ HB]. split; [exact HB|].
    rewrite length_app. simpl. lia.
Qed.

Lemma split_chain A m B :
  hd :: pre = A ++ m :: B ->
  node_ok (heap s) m (fun j => next_at j (B ++ post)) /\
  chain (heap s) B (fun _ => post).
Proof.
  intros Heq. rewrite Heq in Hchain.
  apply chain_app in Hchain as [_ Hc]. exact Hc.
Qed.

Lemma insert_for_spec fuel : forall i A m B update uw,
  hd :: pre = A ++ m :: B -> i <= an_level m ->
  Forall (fun n => an_level n <= i) B ->
  i <= List.length update -> i <= List.length uw ->
  spec (insert_for fuel i key (Some (an_addr m)) update uw) s
    (fun r s' => s' = s /\
       List.length r.1.2 = List.length update /\
       List.length r.2 = List.length uw /\
       (forall j, i <= j -> r.1.2 !! j = update !! j) /\
       (forall j, j < i ->
          exists x, r.1.2 !! j = Some x /\ lane_pred (hd :: pre) j x) /\
       exists A' m' B',
         hd :: pre = A' ++ m' :: B' /\ r.1.1 = Some (an_addr m') /\
         Forall (fun n => an_level n <= 0) B')
    (fuel <= List.length pre).
Proof.
  induction i as [|j IH]; intros A m B update uw Hsplit Hlv HB Hu Huw.
  - apply spec_ret. simpl. repeat split; try reflexivity.
    + intros j Hj. lia.
    + exists A, m, B. auto.
  - cbn [insert_for].
    destruct (split_chain _ _ _ Hsplit) as [Hm HcB].
    destruct (split_suffix_below _ _ _ Hsplit) as [HbB HlenB].
    destruct (node_ok_link _ _ _ j Hm ltac:(lia))
      as (nd & lk & Hnd & _ & _ & Hlk & Htg & _).
    eapply spec_bind.
    { eapply spec_conseq;
        [apply (insert_while_spec j B m fuel 0%Z);
           [exists nd, lk; auto|exact HcB|exact HbB]
        |intros r s' Hr; exact Hr|lia]. }
    intros [x' ws] s1 (-> & B1 & m' & B2 & Heq & Hx & Hlv' & HB2).
    simpl in Hx. subst x'. simpl fst. simpl snd.
    eapply spec_step; [apply arr_set_eq; lia|].
    eapply spec_step; [apply arr_set_eq; lia|].
    assert (Hjm : j < an_level m').
    { destruct Hlv' as [->|Hlv']; [|exact Hlv'].
      simpl in Heq. injection Heq as <- _. lia. }
    assert (Hsplit' : hd :: pre = (A ++ B1) ++ m' :: B2).
    { rewrite Hsplit, Heq, <- app_assoc. reflexivity. }
    eapply spec_conseq;
      [apply (IH (A ++ B1) m' B2); [exact Hsplit'|lia|exact HB2|..]| |auto].
    + rewrite length_insert. lia.
    + rewrite length_insert. lia.
    + intros r s' (-> & Hl1 & Hl2 & Hhigh & Hlow & Hcur).
      rewrite length_insert in Hl1. rewrite length_insert in Hl2.
      split; [reflexivity|]. split; [exact Hl1|]. split; [exact Hl2|].
      split; [|split; [|exact Hcur]].
      * intros j' Hj'. rewrite Hhigh by lia.
        apply list_lookup_insert_ne. lia.
      * intros j' Hj'. destruct (decide (j' = j)) as [->|Hne].
        -- exists (Some (an_addr m')). split.
           ++ rewrite Hhigh by lia. apply list_lookup_insert_eq. lia.
           ++ exists (A ++ B1), m', B2. auto.
        -- apply Hlow. lia.
Qed.
End Fixed_State.

(** [find] and [remove] run the same descent as [insert], keeping less. *)
Lemma spec_forget {A B} (g : A -> B) (m : M T A) (m' : M T B) s Q F :
  m' s = forget g (m s) -> spec m s Q F ->
  spec m' s (fun b s' => exists a, b = g a /\ Q a s') F.
Proof.
  unfold spec. intros ->. destruct (m s) as [[a s1]| |]; simpl; eauto.
Qed.

Lemma find_while_forget fuel j (key : T) : forall x ws s,
  find_while fuel j key x s = forget fst (insert_while fuel j key x ws s).
Proof.
  induction fuel as [|fuel IH]; intros x ws s; [reflexivity|].
  simpl. unfold bind.
  destruct (load_link x j s) as [[lk s1]| |]; try reflexivity.
  destruct (node lk); [|reflexivity].
  destruct (load_elem _ s1) as [[e s2]| |]; try reflexivity.
  destruct (elt_lt e key); [apply IH|reflexivity].
Qed.

(** The two loops are the same code. *)
Lemma remove_while_find_while fuel j (key : T) x s :
  remove_while fuel j key x s = find_while fuel j key x s.
Proof. reflexivity. Qed.

Lemma remove_for_forget fuel (key : T) : forall i x update uw s,
  i <= List.length uw ->
  remove_for fuel i key x update s
  = forget (fun r => (r.1.1, r.1.2)) (insert_for fuel i key x update uw s).
Proof.
  induction i as [|j IH]; intros x update uw s Huw; [reflexivity|].
  simpl. unfold bind.
  rewrite remove_while_find_while, (find_while_forget _ _ _ _ 0%Z).
  destruct (insert_while fuel j key x 0 s) as [[[x' ws] s1]| |];
    try reflexivity.
  simpl. unfold arr_set.
  destruct (decide (j < List.length update)); [|reflexivity].
  destruct (decide (j < List.length uw)); [|lia].
  simpl. apply IH. rewrite length_insert. lia.
Qed.

Lemma find_for_forget fuel (key : T) : forall i x update uw s,
  i <= List.length update -> i <= List.length uw ->
  find_for fuel i key x s
  = forget (fun r => r.1.1) (insert_for fuel i key x update uw s).
Proof.
  induction i as [|j IH]; intros x update uw s Hu Huw; [reflexivity|].
  simpl. unfold bind.
  rewrite (find_while_forget _ _ _ _ 0%Z).
  destruct (insert_while fuel j key x 0 s) as [[[x' ws] s1]| |];
    try reflexivity.
  simpl. unfold arr_set.
  destruct (decide (j < List.length update)); [|lia].
  destruct (decide (j < List.length uw)); [|lia].
  simpl. apply IH; rewrite length_insert; lia.
Qed.
End Descent.

(** ** Linking and unlinking one node *)

Section Mixed.
Context {T : Type} `{Element T}.
Implicit Types (n m x : anode T) (j i : nat).
Implicit Types (h : gmap addr (Skip_Node T)).

Lemma node_ok_upd_width h n tg a nd j lk w :
  node_ok h n tg -> h !! a = Some nd -> forward_ nd !! j = Some lk ->
  (j = 0 -> w = 1%Z) ->
  node_ok (<[a := upd_link nd j (mkLink w (node lk))]> h) n tg.
Proof.
  intros Hn Hnd Hlk Hj.
  destruct (decide (an_addr n = a)) as [<-|Hne].
  - eapply node_ok_upd; [exact Hn|exact Hnd| |exact Hj|auto]. simpl.
    destruct Hn as (f & Hf & Hlen & Hfl). rewrite Hf in Hnd.
    injection Hnd as <-. simpl in Hlk. apply (Hfl j lk Hlk).
  - eapply node_ok_heap; [exact Hn|]. apply lookup_insert_ne. auto.
Qed.

Lemma addr_ne_of_NoDup (l1 l2 : list (anode T)) n m :
  NoDup (an_addr <$> l1 ++ m :: l2) -> n ∈ l1 ++ l2 ->
  an_addr n <> an_addr m.
Proof.
  rewrite fmap_app, fmap_cons. intros Hnd Hn Heq.
  apply NoDup_app in Hnd as (_ & Hdisj & Hml2).
  apply NoDup_cons in Hml2 as [Hm _].
  apply elem_of_app in Hn as [Hn|Hn].
  - apply (Hdisj (an_addr n)); [apply list_elem_of_fmap_2, Hn|].
    rewrite Heq. left.
  - apply Hm. rewrite <- Heq. apply list_elem_of_fmap_2, Hn.
Qed.

Lemma mixed_upd_width h all x post Pa Px a nd j lk w :
  mixed h all x post Pa Px ->
  h !! a = Some nd -> forward_ nd !! j = Some lk -> (j = 0 -> w = 1%Z) ->
  mixed (<[a := upd_link nd j (mkLink w (node lk))]> h) all x post Pa Px.
Proof.
  intros (Hall & Hx & Hpost) Hnd Hlk Hj. repeat split.
  - eapply chain_upd_width; eassumption.
  - eapply node_ok_upd_width; eassumption.
  - eapply chain_upd_width; eassumption.
Qed.

Lemma mixed_upd_x h all x post Pa Px Px' nd i lk :
  mixed h all x post Pa Px ->
  NoDup (an_addr <$> all ++ x :: post) ->
  h !! an_addr x = Some nd ->
  node lk = mid_target post Px' i -> (i = 0 -> width lk = 1%Z) ->
  (forall j, j <> i -> j < an_level x -> Px' j = Px j) ->
  mixed (<[an_addr x := upd_link nd i lk]> h) all x post Pa Px'.
Proof.
  intros (Hall & Hx & Hpost) Hnd Hcell Hlk Hw Heq. repeat split.
  - eapply chain_heap; [exact Hall|]. intros n Hn.
    apply lookup_insert_ne. intros E. symmetry in E. revert E.
    eapply addr_ne_of_NoDup; [exact Hnd|]. set_solver.
  - eapply node_ok_upd; [exact Hx|exact Hcell|exact Hlk|exact Hw|].
    intros j Hj Hlt. unfold mid_target. rewrite (Heq j Hj Hlt). reflexivity.
  - eapply chain_heap; [exact Hpost|]. intros n Hn.
    apply lookup_insert_ne. intros E. symmetry in E. revert E.
    eapply addr_ne_of_NoDup; [exact Hnd|]. set_solver.
Qed.

Lemma mixed_upd_pred h A m B x post Pa Pa' Px nd i lk :
  mixed h (A ++ m :: B) x post Pa Px ->
  NoDup (an_addr <$> (A ++ m :: B) ++ x :: post) ->
  h !! an_addr m = Some nd ->
  i < an_level m -> Forall (fun n => an_level n <= i) B ->
  node lk = next_at i (mid_tail x post Pa' i) -> (i = 0 -> width lk = 1%Z) ->
  (forall j, j <> i -> Pa' j = Pa j) ->
  mixed (<[an_addr m := upd_link nd i lk]> h) (A ++ m :: B) x post Pa' Px.
Proof.
  intros (Hall & Hx & Hpost) Hnd Hcell Hi HB Hlk Hw Heq.
  assert (Hne : forall n, n ∈ A ++ B ++ x :: post ->
                          an_addr n <> an_addr m).
  { intros n Hn. eapply addr_ne_of_NoDup with (l1 := A) (l2 := B ++ x :: post).
    - rewrite <- app_assoc in Hnd. exact Hnd.
    - exact Hn. }
  assert (Hother : forall n, n ∈ A ++ B ++ x :: post ->
            <[an_addr m := upd_link nd i lk]> h !! an_addr n = h !! an_addr n).
  { intros n Hn. apply lookup_insert_ne. intros E. symmetry in E.
    exact (Hne n Hn E). }
  apply chain_app in Hall as [HA HmB]. simpl in HmB. destruct HmB as [Hm HB'].
  repeat split.
  - apply chain_app. split; [|simpl; split].
    + eapply chain_ext; [eapply chain_heap; [exact HA|]|].
      * intros n Hn. apply Hother. set_solver.
      * intros n j _ _. simpl. unfold mid_tail.
        destruct (decide (j < an_level m)); [reflexivity|].
        assert (j <> i) by lia. rewrite (Heq j); auto.
    + eapply node_ok_upd; [exact Hm|exact Hcell| |exact Hw|].
      * rewrite Hlk. symmetry. apply next_at_skip. exact HB.
      * intros j Hj _. simpl. unfold mid_tail. rewrite (Heq j Hj). reflexivity.
    + eapply chain_ext; [eapply chain_heap; [exact HB'|]|].
      * intros n Hn. apply Hother. set_solver.
      * intros n j Hn Hj. unfold mid_tail.
        rewrite Forall_forall in HB. specialize (HB n Hn). simpl in HB.
        rewrite (Heq j); [reflexivity|lia].
  - eapply node_ok_heap; [exact Hx|]. apply Hother. set_solver.
  - eapply chain_heap; [exact Hpost|]. intros n Hn. apply Hother. set_solver.
Qed.

Lemma mixed_ext h all x post Pa Pa' Px Px' :
  mixed h all x post Pa Px ->
  (forall j, j < an_level x -> Pa' j = Pa j) ->
  (forall j, j < an_level x -> Px' j = Px j) ->
  mixed h all x post Pa' Px'.
Proof.
  intros (Hall & Hx & Hpost) HPa HPx. repeat split; [| |exact Hpost].
  - eapply chain_ext; [exact Hall|]. intros n j _ _. unfold mid_tail.
    destruct (decide (j < an_level x)) as [Hj|Hj].
    + rewrite (HPa j Hj). reflexivity.
    + destruct (Pa j), (Pa' j); simpl; try reflexivity;
        destruct (decide (j < an_level x)); try contradiction; reflexivity.
  - eapply node_ok_ext; [exact Hx|]. intros j Hj. unfold mid_target.
    rewrite (HPx j Hj). reflexivity.
Qed.

Lemma mixed_linked h all x post :
  mixed h all x post (fun _ => true) (fun _ => true) <->
  chain h (all ++ x :: post) (fun _ => []).
Proof.
  unfold mixed. rewrite chain_app. simpl. unfold mid_tail, mid_target.
  split.
  - intros (Hall & Hx & Hpost). repeat split; [| |exact Hpost].
    + eapply chain_ext; [exact Hall|]. intros n j _ _. simpl.
      rewrite app_nil_r. reflexivity.
    + eapply node_ok_ext; [exact Hx|]. intros j _. rewrite app_nil_r.
      reflexivity.
  - intros (Hall & Hx & Hpost). repeat split; [| |exact Hpost].
    + eapply chain_ext; [exact Hall|]. intros n j _ _. simpl.
      rewrite app_nil_r. reflexivity.
    + eapply node_ok_ext; [exact Hx|]. intros j _. rewrite app_nil_r.
      reflexivity.
Qed.

Lemma mixed_unlinked h all x post Px :
  mixed h all x post (fun _ => false) Px <->
  chain h (all ++ post) (fun _ => []) /\ node_ok h x (mid_target post Px).
Proof.
  unfold mixed. rewrite chain_app. unfold mid_tail. simpl.
  split.
  - intros (Hall & Hx & Hpost). repeat split; try assumption.
    eapply chain_ext; [exact Hall|]. intros n j _ _.
    rewrite app_nil_r. reflexivity.
  - intros ((Hall & Hpost) & Hx). repeat split; try assumption.
    eapply chain_ext; [exact Hall|]. intros n j _ _.
    rewrite app_nil_r. reflexivity.
Qed.
End Mixed.

(** ** Level generation and raising the list level *)

Section Levels.
Context {T : Type} `{Element T}.
Implicit Types (h : gmap addr (Skip_Node T)).

Lemma RandomLevel_while_bounds p cap draws : forall n k level,
  level <= RandomLevel_while n p cap draws k level /\
  (RandomLevel_while n p cap draws k level = level \/
   (Z.of_nat (RandomLevel_while n p cap draws k level) <= cap)%Z).
Proof.
  induction n as [|n IH]; intros k level; simpl; [auto|].
  destruct (float_lt (draws k) p); simpl; [|auto].
  destruct (Z.ltb_spec (Z.of_nat level) cap) as [Hlt|Hge]; [|auto].
  destruct (IH (S k) (S level)) as [Hle [Heq|Hcap]].
  - split; [lia|]. right. rewrite Heq. lia.
  - split; [lia|]. right. exact Hcap.
Qed.

(** [cap] rounds are enough: more fuel does not change the level. *)
Lemma RandomLevel_while_fuel p cap draws : forall n extra k level,
  (cap <= Z.of_nat level + Z.of_nat n)%Z ->
  RandomLevel_while (n + extra) p cap draws k level
  = RandomLevel_while n p cap draws k level.
Proof.
  induction n as [|n IH]; intros extra k level Hcap; simpl.
  - destruct extra as [|extra]; simpl; [reflexivity|].
    destruct (Z.ltb_spec (Z.of_nat level) cap) as [Hlt|Hge]; [lia|].
    rewrite andb_false_r. reflexivity.
  - destruct (float_lt (draws k) p && (Z.of_nat level <? cap)%Z);
      [|reflexivity].
    apply IH. lia.
Qed.

Lemma RandomLevel_spec draws (s : Skip_List T) :
  0 < kMaxLevel_ s ->
  exists lv, RandomLevel draws s = Ok (lv, s) /\
             1 <= lv /\ lv <= Nat.max 1 (kMaxLevel_ s - 1).
Proof.
  intros Hk.
  set (cap := wrap (Z.of_nat (kMaxLevel_ s) - 1)).
  exists (RandomLevel_while (Z.to_nat cap) (p_ s) cap draws 0 1).
  split; [reflexivity|].
  assert (Hcap : (cap <= Z.of_nat (kMaxLevel_ s) - 1)%Z).
  { unfold cap, wrap, size_max. apply Z.mod_le; lia. }
  destruct (RandomLevel_while_bounds (p_ s) cap draws (Z.to_nat cap) 0 1)
    as [Hle [Heq|Hub]]; lia.
Qed.

Lemma same_structure_refl h : same_structure h h.
Proof. split; auto. Qed.

Lemma same_structure_trans h1 h2 h3 :
  same_structure h1 h2 -> same_structure h2 h3 -> same_structure h1 h3.
Proof.
  intros [Hd1 H1] [Hd2 H2]. split; [congruence|auto].
Qed.

Lemma same_structure_chain h h' l tl :
  same_structure h h' -> chain h l tl -> chain h' l tl.
Proof.
  intros [_ Hok]. induction l as [|n l IH]; simpl; [auto|].
  intros [Hn Hl]. auto.
Qed.

Lemma same_structure_upd_width h a nd j lk w :
  h !! a = Some nd -> forward_ nd !! j = Some lk -> (j = 0 -> w = 1%Z) ->
  same_structure h (<[a := upd_link nd j (mkLink w (node lk))]> h).
Proof.
  intros Hnd Hlk Hj. split.
  - apply dom_insert_lookup_L. eauto.
  - intros n tg Hn. eapply node_ok_upd_width; eassumption.
Qed.

Lemma raise_for_spec ha : forall n i update (s : Skip_List T) nd,
  head_ s = Some ha -> heap s !! ha = Some nd ->
  1 <= i -> i + n <= List.length (forward_ nd) ->
  i + n <= List.length update ->
  spec (raise_for n i update) s
    (fun u' s' => exists h',
       s' = with_heap s h' /\ same_structure (heap s) h' /\
       List.length u' = List.length update /\
       (forall j, i <= j < i + n -> u' !! j = Some (Some ha)) /\
       (forall j, ~ (i <= j < i + n) -> u' !! j = update !! j))
    False.
Proof.
  induction n as [|n IH]; intros i update s nd Hhead Hnd Hi Hlen Hu.
  - apply spec_ret. exists (heap s).
    split; [destruct s; reflexivity|].
    split; [apply same_structure_refl|]. split; [reflexivity|].
    split; [intros j Hj; lia|reflexivity].
  - cbn [raise_for].
    eapply spec_step; [reflexivity|]. rewrite Hhead.
    eapply spec_step; [apply arr_set_eq; lia|].
    destruct (lookup_lt_is_Some_2 (forward_ nd) i) as [lk Hlk]; [lia|].
    eapply spec_step; [eapply store_width_eq; eassumption|].
    eapply spec_conseq; [eapply (IH (S i)) with (nd := upd_link nd i _)| |auto].
    + exact Hhead.
    + simpl. apply lookup_insert_eq.
    + lia.
    + simpl. rewrite length_insert. lia.
    + rewrite length_insert. lia.
    + intros u' s' (h' & -> & Hsame & Hlu & Hin & Hout). exists h'.
      rewrite length_insert in Hlu. simpl in Hsame.
      split; [reflexivity|]. split; [|split; [exact Hlu|split]].
      * eapply same_structure_trans; [|exact Hsame].
        eapply same_structure_upd_width; [eassumption..|lia].
      * intros j Hj. destruct (decide (j = i)) as [->|Hne].
        -- rewrite Hout by lia. apply list_lookup_insert_eq. lia.
        -- apply Hin. lia.
      * intros j Hj. rewrite Hout by lia.
        apply list_lookup_insert_ne. lia.
Qed.
End Levels.

(** ** Splicing a new node in *)

Section Splice.
Context {T : Type} `{Element T}.
Implicit Types (n m x : anode T) (j i : nat).
Implicit Types (h : gmap addr (Skip_Node T)).

Lemma spec_assoc {A B C} (c : M T A) (k1 : A -> M T B) (k2 : B -> M T C)
    s Q F :
  spec (a <- c ;; b <- k1 a ;; k2 b) s Q F ->
  spec (b <- (a <- c ;; k1 a) ;; k2 b) s Q F.
Proof.
  unfold spec, bind. destruct (c s) as [[a s1]| |]; auto.
Qed.

Lemma mixed_pred_cell h all x post Pa Px j u :
  mixed h all x post Pa Px -> lane_pred all j u ->
  exists A m B nd lk,
    all = A ++ m :: B /\ u = Some (an_addr m) /\ j < an_level m /\
    Forall (fun n => an_level n <= j) B /\
    h !! an_addr m = Some nd /\ forward_ nd !! j = Some lk /\
    node lk = next_at j (mid_tail x post Pa j) /\
    (j = 0 -> width lk = 1%Z).
Proof.
  intros (Hall & _ & _) (A & m & B & -> & -> & Hj & HB).
  apply chain_app in Hall as [_ [Hm _]].
  destruct (node_ok_link _ _ _ j Hm Hj)
    as (nd & lk & Hnd & _ & _ & Hlk & Htg & Hw).
  rewrite next_at_skip in Htg by exact HB.
  exists A, m, B, nd, lk. auto 10.
Qed.

Lemma mixed_x_cell h all x post Pa Px j :
  mixed h all x post Pa Px -> j < an_level x ->
  exists nd lk,
    h !! an_addr x = Some nd /\ forward_ nd !! j = Some lk /\
    node lk = mid_target post Px j /\ (j = 0 -> width lk = 1%Z).
Proof.
  intros (_ & Hx & _) Hj.
  destruct (node_ok_link _ _ _ j Hx Hj)
    as (nd & lk & Hnd & _ & _ & Hlk & Htg & Hw).
  exists nd, lk. auto.
Qed.

(** A width store in the middle of a splice: above level 0, or of width 1
    at level 0. *)
Lemma store_width_mixed (s : Skip_List T) all x post Pa Px a nd j lk w :
  mixed (heap s) all x post Pa Px ->
  heap s !! a = Some nd -> forward_ nd !! j = Some lk ->
  (j = 0 -> w = 1%Z) ->
  exists h1,
    store_width (Some a) j w s = Ok (tt, with_heap s h1) /\
    dom h1 = dom (heap s) /\ mixed h1 all x post Pa Px.
Proof.
  intros Hmix Hnd Hlk Hj. eexists. split; [|split].
  - eapply store_width_eq; eassumption.
  - apply dom_insert_lookup_L. eauto.
  - eapply mixed_upd_width; eassumption.
Qed.

Lemma splice_for_spec all nn post update (uw : list Z) :
  NoDup (an_addr <$> all ++ nn :: post) ->
  (forall j, j < an_level nn ->
     exists u, update !! j = Some u /\ lane_pred all j u) ->
  an_level nn <= List.length uw ->
  forall k i (s : Skip_List T),
    i + k = an_level nn ->
    mixed (heap s) all nn post
      (fun j => bool_decide (j < i)) (fun j => bool_decide (j < i)) ->
    spec (splice_for k i (Some (an_addr nn)) update uw) s
      (fun _ s' => exists h',
         s' = with_heap s h' /\ dom h' = dom (heap s) /\
         mixed h' all nn post (fun _ => true) (fun _ => true))
      False.
Proof.
  intros Hnd Hupd Huw.
  induction k as [|k IH]; intros i s Hlv Hmix.
  - apply spec_ret. exists (heap s).
    split; [destruct s; reflexivity|]. split; [reflexivity|].
    eapply mixed_ext; [exact Hmix|..];
      intros j Hj; symmetry; apply bool_decide_eq_true; lia.
  - cbn [splice_for].
    destruct (Hupd i ltac:(lia)) as (u & Hu & Hpred).
    eapply spec_step; [apply arr_get_eq; exact Hu|].
    (* lu = update[i]->forward_[i] *)
    destruct (mixed_pred_cell _ _ _ _ _ _ _ _ Hmix Hpred)
      as (A & m & B & ndm & lkm & -> & -> & Him & HB & Hndm & Hlkm & Htgm & Hwm).
    eapply spec_step; [eapply load_link_eq; eassumption|].
    unfold mid_tail in Htgm. rewrite bool_decide_eq_false_2 in Htgm by lia.
    simpl in Htgm.
    (* new_node->forward_[i].node = lu.node *)
    destruct (mixed_x_cell _ _ _ _ _ _ i Hmix ltac:(lia))
      as (ndx & lkx & Hndx & Hlkx & _ & Hwx).
    eapply spec_step; [eapply store_node_eq; eassumption|].
    assert (Hmix1 := mixed_upd_x _ _ _ _ _ _
              (fun j => bool_decide (j < S i)) _ i
              (mkLink (width lkx) (node lkm)) Hmix Hnd Hndx).
    simpl in Hmix1. unfold mid_target at 1 in Hmix1.
    rewrite bool_decide_eq_true_2 in Hmix1 by lia.
    specialize (Hmix1 Htgm Hwx).
    assert (Hmix1' := Hmix1 ltac:(intros j Hj _; apply bool_decide_ext; lia)).
    clear Hmix1.
    set (h1 := <[an_addr nn := _]> (heap s)) in *.
    assert (Hd1 : dom h1 = dom (heap s))
      by (apply dom_insert_lookup_L; eauto).
    (* update[i]->forward_[i].node = new_node *)
    destruct (mixed_pred_cell _ _ _ _ _ _ i (Some (an_addr m)) Hmix1')
      as (A' & m' & B' & ndm1 & lkm1 & _ & [= Em] & _ & _ & Hndm1 & Hlkm1 & _ & Hwm1).
    { exists A, m, B. auto. }
    rewrite <- Em in Hndm1.
    eapply spec_step;
      [eapply (store_node_eq (with_heap s h1)); simpl; eassumption|].
    simpl.
    assert (Hmix2 := mixed_upd_pred _ _ _ _ _ _ _
              (fun j => bool_decide (j < S i)) _ _ i
              (mkLink (width lkm1) (Some (an_addr nn))) Hmix1' Hnd Hndm1 Him HB).
    unfold mid_tail at 1 in Hmix2.
    rewrite bool_decide_eq_true_2 in Hmix2 by lia. simpl in Hmix2.
    destruct (decide (i < an_level nn)) as [_|Hc]; [|lia].
    specialize (Hmix2 eq_refl Hwm1
                  ltac:(intros j Hj; apply bool_decide_ext; lia)).
    set (h2 := <[an_addr m := _]> h1) in *.
    assert (Hd2 : dom h2 = dom (heap s)).
    { rewrite <- Hd1. apply dom_insert_lookup_L. eauto. }
    clearbody h1 h2.
    clear Hmix Hmix1' Hndm Hlkm Htgm Hwm Hndx Hlkx Hwx Hndm1 Hlkm1 Hwm1 Hd1.
    destruct (decide (0 < i)) as [Hi|Hi].
    + (* width repair *)
      destruct (lookup_lt_is_Some_2 uw (i - 1)) as [w0 Hw0]; [lia|].
      apply spec_assoc.
      eapply spec_step; [apply arr_get_eq; exact Hw0|].
      destruct (Hupd (i - 1) ltac:(lia)) as (u1 & Hu1 & Hpred1).
      apply spec_assoc.
      eapply spec_step; [apply arr_get_eq; exact Hu1|].
      destruct (mixed_pred_cell _ _ _ _ _ _ _ _ Hmix2 Hpred1)
        as (A1 & m1 & B1 & nd1 & lk1 & _ & -> & _ & _ & Hnd1 & Hlk1 & _ & _).
      apply spec_assoc.
      eapply spec_step;
        [eapply (load_link_eq (with_heap s h2)); simpl; eassumption|].
      destruct (mixed_pred_cell _ _ _ _ _ _ i (Some (an_addr m)) Hmix2)
        as (A2 & m2 & B2 & nd2 & lk2 & _ & [= Em2] & _ & _ & Hnd2 & Hlk2 & _ & _).
      { exists A, m, B. auto. }
      rewrite <- Em2 in Hnd2.
      apply spec_assoc.
      eapply spec_step;
        [eapply (load_link_eq (with_heap s h2)); simpl; eassumption|].
      destruct (mixed_x_cell _ _ _ _ _ _ i Hmix2 ltac:(lia))
        as (ndx2 & lkx2 & Hndx2 & Hlkx2 & _ & _).
      set (w_new := if (0 <? width lk2)%Z
                    then wrap (width lk2 + 1 - wrap (w0 + width lk1))
                    else 0%Z).
      destruct (store_width_mixed (with_heap s h2) _ _ _ _ _ _ _ _ _ w_new
                  Hmix2 Hndx2 Hlkx2 ltac:(lia)) as (h3 & Hst3 & Hd3 & Hmix3).
      simpl in Hd3.
      apply spec_assoc.
      eapply spec_step with (a := tt) (s1 := with_heap s h3).
      { unfold w_new in Hst3. destruct (0 <? width lk2)%Z; exact Hst3. }
      destruct (mixed_pred_cell _ _ _ _ _ _ i (Some (an_addr m)) Hmix3)
        as (A3 & m3 & B3 & nd3 & lk3 & _ & [= Em3] & _ & _ & Hnd3 & Hlk3 & _ & _).
      { exists A, m, B. auto. }
      rewrite <- Em3 in Hnd3.
      destruct (store_width_mixed (with_heap s h3) _ _ _ _ _ _ _ _ _
                  (wrap (w0 + width lk1))
                  Hmix3 Hnd3 Hlk3 ltac:(lia)) as (h4 & Hst4 & Hd4 & Hmix4).
      simpl in Hd4, Hst4.
      eapply spec_step; [exact Hst4|].
      eapply spec_conseq; [apply (IH (S i) (with_heap s h4)); [lia|exact Hmix4]| |auto].
      intros _ s' (h' & -> & Hd' & Hmix'). exists h'.
      split; [reflexivity|]. split; [|exact Hmix'].
      simpl in Hd'. congruence.
    + eapply spec_step; [reflexivity|].
      eapply spec_conseq; [apply (IH (S i) (with_heap s h2)); [lia|exact Hmix2]| |auto].
      intros _ s' (h' & -> & Hd' & Hmix'). exists h'.
      split; [reflexivity|]. split; [|exact Hmix'].
      simpl in Hd'. congruence.
Qed.
End Splice.

(** ** [insert] keeps the representation *)

Section Insert.
Context {T : Type} `{ElementLaws T}.
Implicit Types (n m x : anode T) (j i : nat).
Implicit Types (h : gmap addr (Skip_Node T)).

Lemma spec_no_fuel {A} (c : M T A) s Q F :
  spec c s Q False -> spec c s Q F.
Proof. intros Hc. eapply spec_conseq; [exact Hc|auto|contradiction]. Qed.

Lemma elt_lt_connex (a b : T) :
  elt_lt a b = false -> elt_eq a b = false -> elt_lt b a = true.
Proof.
  intros Hab Hne. destruct (elt_lt b a) eqn:Hba; [reflexivity|].
  rewrite (proj2 (elt_eq_lt a b) (conj Hab Hba)) in Hne. discriminate.
Qed.

Lemma elt_eq_refl (a : T) : elt_eq a a = true.
Proof. apply elt_eq_lt. split; apply elt_lt_irrefl. Qed.

Lemma split_by_key (key : T) (ns : list (anode T)) :
  Forall (fun n => is_Some (an_ptr n)) ns -> StronglySorted an_lt ns ->
  exists pre post,
    ns = pre ++ post /\ Forall (below key) pre /\ Forall (not_below key) post.
Proof.
  induction ns as [|n ns IH]; intros Hel Hs.
  - exists [], []. auto.
  - apply Forall_cons in Hel as [[e He] Hel].
    apply StronglySorted_cons in Hs as [Hn Hs].
    destruct (elt_lt e key) eqn:Hlt.
    + destruct (IH Hel Hs) as (pre & post & -> & Hpre & Hpost).
      exists (n :: pre), post. repeat split; try assumption.
      constructor; [|exact Hpre]. exists e. auto.
    + exists [], (n :: ns). repeat split; [constructor|].
      constructor; [exists e; auto|].
      rewrite Forall_forall in Hn, Hel |- *. intros m Hm.
      specialize (Hn m Hm). destruct (Hel m Hm) as [e' He'].
      unfold an_lt in Hn. rewrite He, He' in Hn.
      exists e'. split; [exact He'|].
      destruct (elt_lt e' key) eqn:Hlt'; [|reflexivity].
      rewrite (elt_lt_trans e e' key Hn Hlt') in Hlt. discriminate.
Qed.

Lemma sorted_insert (key : T) pre nn post :
  StronglySorted an_lt (pre ++ post) ->
  Forall (below key) pre -> Forall (not_below key) post ->
  an_ptr nn = Some key ->
  (forall q post' e, post = q :: post' -> an_ptr q = Some e ->
                     elt_eq e key = false) ->
  StronglySorted an_lt (pre ++ nn :: post).
Proof.
  intros Hs Hpre Hpost Hnn Hneq.
  apply StronglySorted_app in Hs as (Hcross & Hs1 & Hs2).
  assert (Hgt : Forall (an_lt nn) post).
  { destruct post as [|q post']; [constructor|].
    apply Forall_cons in Hpost as [(e & He & Hlt) _].
    assert (Hq : an_lt nn q).
    { unfold an_lt. rewrite Hnn, He. apply elt_lt_connex; [exact Hlt|].
      apply (Hneq q post' e eq_refl He). }
    constructor; [exact Hq|].
    apply StronglySorted_cons in Hs2 as [Hall _].
    rewrite Forall_forall in Hall |- *. intros m Hm. specialize (Hall m Hm).
    unfold an_lt in *. rewrite Hnn in *. rewrite He in *.
    destruct (an_ptr m) as [e'|]; [|contradiction].
    eapply elt_lt_trans; eassumption. }
  apply StronglySorted_app. repeat split; [|exact Hs1|].
  - intros a b Ha Hb. apply elem_of_cons in Hb as [->|Hb].
    + rewrite Forall_forall in Hpre. destruct (Hpre a Ha) as (e & He & Hlt).
      unfold an_lt. rewrite He, Hnn. exact Hlt.
    + apply Hcross; assumption.
  - constructor; assumption.
Qed.

Lemma rep_raise (s : Skip_List T) ha ns h' l :
  rep s ha ns -> same_structure (heap s) h' ->
  level_ s <= l <= kMaxLevel_ s ->
  rep (with_level (with_heap s h') l) ha ns.
Proof.
  intros [Hhd Hch Hnd Hdom Hlvs Hlv Hel Hso] [Hd Hok] Hl.
  constructor.
  - exact Hhd.
  - change (chain h' (sentinel s ha :: ns) (fun _ => [])).
    eapply (same_structure_chain (heap s)); [split; assumption|exact Hch].
  - exact Hnd.
  - change (dom h' = list_to_set (an_addr <$> sentinel s ha :: ns)).
    rewrite Hd. exact Hdom.
  - eapply Forall_impl; [exact Hlvs|]. simpl. intros n Hn. lia.
  - simpl. lia.
  - exact Hel.
  - exact Hso.
Qed.

Lemma insert_raise_spec (s : Skip_List T) ha nd update level :
  head_ s = Some ha -> heap s !! ha = Some nd ->
  1 <= level_ s -> level <= List.length (forward_ nd) ->
  level <= List.length update ->
  spec (if decide (level_ s < level)
        then u <- raise_for (level - level_ s) (level_ s) update ;;
             set_level_ level ;;; ret u
        else ret update) s
    (fun u' s' => exists h',
       s' = with_level (with_heap s h') (Nat.max (level_ s) level) /\
       same_structure (heap s) h' /\
       List.length u' = List.length update /\
       (forall j, j < level_ s -> u' !! j = update !! j) /\
       (forall j, level_ s <= j < level -> u' !! j = Some (Some ha)))
    False.
Proof.
  intros Hhd Hnd Hlv Hlen Hu. destruct (decide (level_ s < level)) as [Hlt|Hge].
  - eapply spec_bind.
    { eapply raise_for_spec; [exact Hhd|exact Hnd|exact Hlv|lia|lia]. }
    intros u' s1 (h' & -> & Hsame & Hlu & Hin & Hout).
    eapply spec_step; [reflexivity|]. apply spec_ret.
    exists h'. replace (Nat.max (level_ s) level) with level by lia.
    split; [reflexivity|]. split; [exact Hsame|]. split; [exact Hlu|].
    split.
    + intros j Hj. apply Hout. lia.
    + intros j Hj. apply Hin. lia.
  - apply spec_ret. exists (heap s).
    replace (Nat.max (level_ s) level) with (level_ s) by lia.
    split; [destruct s; reflexivity|].
    split; [apply same_structure_refl|]. split; [reflexivity|].
    split; [reflexivity|]. intros j Hj. lia.
Qed.

Lemma CreateNode_eq (s : Skip_List T) p level :
  CreateNode p level s
  = Ok (Some (fresh (dom (heap s))),
        with_heap s (<[fresh (dom (heap s)) := Skip_Node_new p level]> (heap s))).
Proof. reflexivity. Qed.

Lemma node_ok_new h a (p : option T) level (tl : list (anode T)) :
  node_ok (<[a := Skip_Node_new p level]> h) (mkA a p level)
    (mid_target tl (fun _ => false)).
Proof.
  exists (replicate level default_link). simpl.
  rewrite lookup_insert_eq, length_replicate.
  split; [reflexivity|]. split; [reflexivity|].
  intros j lk [-> _]%lookup_replicate. auto.
Qed.

Lemma rep_fresh (s : Skip_List T) ha ns n :
  rep s ha ns -> n ∈ sentinel s ha :: ns ->
  an_addr n <> fresh (dom (heap s)).
Proof.
  intros Hrep Hn E.
  apply (is_fresh (dom (heap s))). rewrite <- E, (rep_dom _ _ _ Hrep).
  apply elem_of_list_to_set, list_elem_of_fmap_2, Hn.
Qed.

Theorem insert_spec fuel draws (key : T) (s : Skip_List T) ha ns :
  rep s ha ns ->
  spec (insert fuel draws key) s
    (fun r s' =>
       exists pre post,
         ns = pre ++ post /\ Forall (below key) pre /\
         Forall (not_below key) post /\
         ((exists q post' e,
             post = q :: post' /\ an_ptr q = Some e /\
             elt_eq e key = true /\ r = Some (an_addr q) /\
             rep s' ha ns /\ width_ s' = width_ s)
          \/
          (exists nn,
             an_ptr nn = Some key /\ r = Some (an_addr nn) /\
             rep s' ha (pre ++ nn :: post) /\
             width_ s' = wrap (width_ s + 1) /\
             forall q post' e, post = q :: post' -> an_ptr q = Some e ->
                               elt_eq e key = false)))
    (fuel <= List.length ns).
Proof.
  intros Hrep.
  destruct (split_by_key key ns (rep_elems _ _ _ Hrep) (rep_sorted _ _ _ Hrep))
    as (pre & post & -> & Hpre & Hpost).
  pose proof Hrep as [Hhd Hch Hnd Hdom Hlvs Hlv Hel Hso].
  set (hd := sentinel s ha) in *.
  change (hd :: pre ++ post) with ((hd :: pre) ++ post) in Hch.
  apply chain_app in Hch as [Hc1 Hc2].
  assert (Hc1' : chain (heap s) (hd :: pre) (fun _ => post)).
  { eapply chain_ext; [exact Hc1|]. intros n j _ _.
    rewrite app_nil_r. reflexivity. }
  apply Forall_app in Hlvs as [Hlpre Hlpost].
  unfold insert.
  eapply spec_step; [reflexivity|].
  eapply spec_step; [reflexivity|].
  eapply spec_step; [reflexivity|].
  rewrite Hhd.
  (* the descent *)
  eapply spec_bind.
  { eapply spec_conseq;
      [eapply (insert_for_spec s key post Hc2 Hpost hd pre Hc1' Hpre fuel
                 (level_ s) [] hd pre); [reflexivity|simpl; lia| |..]
      |intros r s' Hr; exact Hr|].
    - eapply Forall_impl; [exact Hlpre|]. simpl. intros n Hn. lia.
    - rewrite length_replicate. lia.
    - rewrite length_replicate. lia.
    - rewrite length_app. lia. }
  intros [[x update] uw] s1 (-> & Hlu & Hluw & _ & Hupd & Hcur).
  simpl in Hlu, Hluw, Hupd, Hcur.
  rewrite length_replicate in Hlu. rewrite length_replicate in Hluw.
  destruct Hcur as (A' & m' & B' & Hsplit & -> & HB').
  assert (B' = []) as ->.
  { destruct B' as [|b B']; [reflexivity|].
    apply Forall_cons in HB' as [Hb _].
    assert (Hbin : b ∈ pre).
    { destruct A' as [|a A']; simpl in Hsplit; injection Hsplit as _ ->;
        set_solver. }
    rewrite Forall_forall in Hlpre. specialize (Hlpre b Hbin). simpl in Hlpre.
    lia. }
  (* the level of the new node *)
  destruct (RandomLevel_spec draws s ltac:(lia)) as (level & Hrl & Hl1 & Hl2).
  eapply spec_step; [exact Hrl|].
  eapply spec_step; [reflexivity|].
  destruct Hc1' as [Hhdok _].
  destruct (node_ok_cell _ _ _ Hhdok) as (ndh & Hndh & _ & Hlenh).
  simpl in Hndh, Hlenh.
  eapply spec_bind.
  { apply spec_no_fuel.
    eapply (insert_raise_spec s ha ndh update level);
      [exact Hhd|exact Hndh|lia|lia|lia]. }
  intros update1 s1 (h1 & -> & Hsame & Hlu1 & Hlow & Hhigh).
  set (lv' := Nat.max (level_ s) level) in *.
  assert (Hrep1 : rep (with_level (with_heap s h1) lv') ha (pre ++ post)).
  { apply rep_raise; [exact Hrep|exact Hsame|lia]. }
  assert (Hupd1 : forall j, j < level ->
            exists u, update1 !! j = Some u /\ lane_pred (hd :: pre) j u).
  { intros j Hj. destruct (decide (j < level_ s)) as [Hjl|Hjl].
    - rewrite Hlow by exact Hjl. apply Hupd, Hjl.
    - exists (Some ha). split; [apply Hhigh; lia|].
      exists [], hd, pre. repeat split; [simpl; lia|].
      eapply Forall_impl; [exact Hlpre|]. simpl. intros n Hn. lia. }
  pose proof Hrep1 as [_ Hch1 _ Hdom1 _ _ _ _].
  change (sentinel _ ha) with hd in Hch1.
  simpl in Hdom1.
  (* the node after the predecessor *)
  assert (Hch1' := Hch1).
  change (hd :: pre ++ post) with ((hd :: pre) ++ post) in Hch1'.
  rewrite Hsplit in Hch1'. rewrite <- app_assoc in Hch1'.
  apply chain_app in Hch1' as [_ [Hm' _]]. simpl in Hm'.
  assert (Hm'lv : 0 < an_level m').
  { destruct A' as [|a A']; simpl in Hsplit.
    - injection Hsplit as <- _. simpl. lia.
    - injection Hsplit as _ ->. rewrite Forall_forall in Hlpre.
      specialize (Hlpre m' ltac:(set_solver)). simpl in Hlpre. lia. }
  destruct (node_ok_link _ _ _ 0 Hm' Hm'lv)
    as (ndm & lkm & Hndm & _ & _ & Hlkm & Htgm & _).
  simpl in Htgm. rewrite app_nil_r in Htgm.
  eapply spec_step;
    [eapply (load_link_eq (with_level (with_heap s h1) lv')); eassumption|].
  rewrite Htgm.
  assert (Hfirst : forall q post', post = q :: post' ->
            next_at 0 post = Some (an_addr q) /\
            exists ndq e, h1 !! an_addr q = Some ndq /\ ptr_ ndq = Some e /\
                          an_ptr q = Some e).
  { intros q post' ->. apply Forall_cons in Hlpost as [Hq _].
    simpl in Hq. split.
    - simpl. destruct (decide (0 < an_level q)); [reflexivity|lia].
    - change (hd :: pre ++ q :: post') with ((hd :: pre) ++ q :: post') in Hch1.
      apply chain_app in Hch1 as [_ [Hqok _]].
      destruct (node_ok_cell _ _ _ Hqok) as (ndq & Hndq & Hptr & _).
      apply Forall_cons in Hpost as [(e & He & _) _].
      exists ndq, e. rewrite Hptr. auto. }
  eapply spec_bind with
    (R := fun (dup : bool) s' =>
            s' = with_level (with_heap s h1) lv' /\
            match post with
            | [] => dup = false
            | q :: _ => exists e, an_ptr q = Some e /\ dup = elt_eq e key
            end).
  { destruct post as [|q post'].
    - simpl. apply spec_ret. auto.
    - destruct (Hfirst q post' eq_refl) as (-> & ndq & e & Hndq & Hptr & He).
      eapply spec_step;
        [eapply (load_elem_eq (with_level (with_heap s h1) lv')); eassumption|].
      apply spec_ret. eauto. }
  intros dup s1 [-> Hdup].
  destruct dup.
  - (* the key is already there *)
    apply spec_ret. exists pre, post.
    split; [reflexivity|]. split; [exact Hpre|]. split; [exact Hpost|].
    left. destruct post as [|q post']; [discriminate|].
    destruct Hdup as (e & He & Heq).
    destruct (Hfirst q post' eq_refl) as (-> & _).
    exists q, post', e.
    split; [reflexivity|]. split; [exact He|]. split; [symmetry; exact Heq|].
    split; [reflexivity|]. split; [exact Hrep1|reflexivity].
  - (* a new node *)
    assert (Hneq : forall q post' e, post = q :: post' -> an_ptr q = Some e ->
                                     elt_eq e key = false).
    { intros q post' e -> He. destruct Hdup as (e' & He' & Heq).
      rewrite He in He'. injection He' as <-. auto. }
    eapply spec_step; [apply CreateNode_eq|].
    simpl heap. set (a := fresh (dom h1)).
    set (nn := mkA a (Some key) level).
    set (h2 := <[a := Skip_Node_new (Some key) level]> h1).
    assert (Hfresh : forall n, n ∈ hd :: pre ++ post -> an_addr n <> a).
    { intros n Hn. apply (rep_fresh _ _ _ _ Hrep1 Hn). }
    assert (Hnd2 : NoDup (an_addr <$> (hd :: pre) ++ nn :: post)).
    { rewrite fmap_app.
      change (an_addr <$> nn :: post) with (an_addr nn :: (an_addr <$> post)).
      rewrite <- Permutation_middle, <- fmap_app.
      apply NoDup_cons. split; [|exact Hnd].
      intros (n & Ha & Hn)%list_elem_of_fmap. exact (Hfresh n Hn (eq_sym Ha)). }
    assert (Hmix : mixed h2 (hd :: pre) nn post
                     (fun j => bool_decide (j < 0))
                     (fun j => bool_decide (j < 0))).
    { eapply mixed_ext with (Pa := fun _ => false) (Px := fun _ => false);
        [|intros j _; apply bool_decide_eq_false; lia..].
      apply mixed_unlinked. split.
      - eapply chain_heap; [exact Hch1|]. intros n Hn.
        apply lookup_insert_ne. intros E. exact (Hfresh n Hn (eq_sym E)).
      - apply node_ok_new. }
    eapply spec_bind.
    { apply spec_no_fuel.
      eapply (splice_for_spec (hd :: pre) nn post update1 uw Hnd2);
        [exact Hupd1|simpl; lia|simpl; lia|exact Hmix]. }
    intros _ s1 (h3 & -> & Hd3 & Hmix3).
    eapply spec_step; [reflexivity|].
    eapply spec_step; [reflexivity|].
    apply spec_ret. exists pre, post.
    split; [reflexivity|]. split; [exact Hpre|]. split; [exact Hpost|].
    right. exists nn.
    split; [reflexivity|]. split; [reflexivity|].
    split; [|split; [reflexivity|exact Hneq]].
    constructor.
    + exact Hhd.
    + apply mixed_linked in Hmix3. exact Hmix3.
    + exact Hnd2.
    + change (dom h3 = list_to_set (an_addr <$> (hd :: pre) ++ nn :: post)).
      rewrite Hd3. simpl. unfold h2. rewrite dom_insert_L, Hdom1.
      rewrite !fmap_app, !list_to_set_app_L. simpl. set_solver.
    + apply Forall_app. split; [|constructor].
      * eapply Forall_impl; [exact Hlpre|]. simpl. intros n Hn. lia.
      * simpl. lia.
      * eapply Forall_impl; [exact Hlpost|]. simpl. intros n Hn. lia.
    + simpl. lia.
    + apply Forall_app in Hel as [He1 He2].
      apply Forall_app. split; [exact He1|]. constructor; [|exact He2].
      simpl. eauto.
    + apply (sorted_insert key); auto.
Qed.
End Insert.

(** ** Unlinking a node *)

Section Unlink.
Context {T : Type} `{Element T}.
Implicit Types (n m x : anode T) (j i : nat).
Implicit Types (h : gmap addr (Skip_Node T)).

Lemma outcome_bind {A B} (c : M T A) (k : A -> M T B) s R Q U F :
  spec c s R F ->
  (forall a s1, R a s1 -> outcome (k a) s1 Q U F) ->
  outcome (x <- c ;; k x) s Q U F.
Proof.
  unfold spec, outcome, bind. intros Hc Hk.
  destruct (c s) as [[a s1]| |]; [|contradiction|exact Hc].
  apply Hk, Hc.
Qed.

Lemma outcome_step {A B} (c : M T A) (k : A -> M T B) s a s1 Q U F :
  c s = Ok (a, s1) -> outcome (k a) s1 Q U F ->
  outcome (x <- c ;; k x) s Q U F.
Proof.
  unfold outcome. intros Hc Hk. rewrite (bind_step _ _ _ _ _ Hc). exact Hk.
Qed.

Lemma outcome_spec {A} (c : M T A) s Q U F :
  spec c s Q F -> outcome c s Q U F.
Proof.
  unfold spec, outcome. destruct (c s) as [[a s1]| |]; auto. contradiction.
Qed.

Lemma unlink_for_spec all q post update lv :
  NoDup (an_addr <$> all ++ q :: post) ->
  (forall j, j < lv -> exists u, update !! j = Some u /\ lane_pred all j u) ->
  1 <= an_level q <= lv ->
  forall k i (s : Skip_List T),
    i + k = lv ->
    mixed (heap s) all q post
      (fun j => bool_decide (i <= j)) (fun j => bool_decide (i <= j)) ->
    spec (unlink_for k i (Some (an_addr q)) update) s
      (fun _ s' => exists h',
         s' = with_heap s h' /\ dom h' = dom (heap s) /\
         mixed h' all q post (fun _ => false) (fun _ => false))
      False.
Proof.
  intros Hnd Hupd Hq.
  induction k as [|k IH]; intros i s Hlv Hmix.
  - apply spec_ret. exists (heap s).
    split; [destruct s; reflexivity|]. split; [reflexivity|].
    eapply mixed_ext; [exact Hmix|..];
      intros j Hj; symmetry; apply bool_decide_eq_false; lia.
  - cbn [unlink_for].
    destruct (Hupd i ltac:(lia)) as (u & Hu & Hpred).
    eapply spec_step; [apply arr_get_eq; exact Hu|].
    destruct (mixed_pred_cell _ _ _ _ _ _ _ _ Hmix Hpred)
      as (A & m & B & ndm & lkm & -> & -> & Him & HB & Hndm & Hlkm & Htgm & Hwm).
    eapply spec_step; [eapply load_link_eq; eassumption|].
    unfold mid_tail in Htgm. rewrite bool_decide_eq_true_2 in Htgm by lia.
    simpl in Htgm.
    destruct (decide (i < an_level q)) as [Hiq|Hiq].
    + (* the predecessor points at the node *)
      rewrite Htgm.
      destruct (decide (Some (an_addr q) <> Some (an_addr q))) as [Hc|_];
        [contradiction|].
      destruct (mixed_x_cell _ _ _ _ _ _ i Hmix Hiq)
        as (ndx & lkx & Hndx & Hlkx & Htgx & Hwx).
      unfold mid_target in Htgx.
      rewrite bool_decide_eq_true_2 in Htgx by lia.
      apply spec_assoc.
      eapply spec_step; [eapply load_link_eq; eassumption|].
      (* update[i]->forward_[i].node = x->forward_[i].node *)
      apply spec_assoc.
      eapply spec_step; [eapply store_node_eq; eassumption|].
      assert (Hmix1 := mixed_upd_pred _ _ _ _ _ _ _
                (fun j => bool_decide (S i <= j)) _ _ i
                (mkLink (width lkm) (node lkx)) Hmix Hnd Hndm Him HB).
      unfold mid_tail at 1 in Hmix1.
      rewrite bool_decide_eq_false_2 in Hmix1 by lia. simpl in Hmix1.
      specialize (Hmix1 Htgx Hwm
                    ltac:(intros j Hj; apply bool_decide_ext; lia)).
      set (h1 := <[an_addr m := _]> (heap s)) in *.
      assert (Hd1 : dom h1 = dom (heap s))
        by (apply dom_insert_lookup_L; eauto).
      (* x->forward_[i].node = nullptr *)
      destruct (mixed_x_cell _ _ _ _ _ _ i Hmix1 Hiq)
        as (ndx1 & lkx1 & Hndx1 & Hlkx1 & _ & Hwx1).
      apply spec_assoc.
      eapply spec_step;
        [eapply (store_node_eq (with_heap s h1)); simpl; eassumption|].
      simpl.
      assert (Hmix2 := mixed_upd_x _ _ _ _ _ _
                (fun j => bool_decide (S i <= j)) _ i
                (mkLink (width lkx1) None) Hmix1 Hnd Hndx1).
      simpl in Hmix2. unfold mid_target at 1 in Hmix2.
      rewrite bool_decide_eq_false_2 in Hmix2 by lia.
      specialize (Hmix2 eq_refl Hwx1
                    ltac:(intros j Hj _; apply bool_decide_ext; lia)).
      set (h2 := <[an_addr q := _]> h1) in *.
      assert (Hd2 : dom h2 = dom (heap s)).
      { rewrite <- Hd1. apply dom_insert_lookup_L. eauto. }
      clearbody h1 h2.
      clear Hmix Hmix1 Hndm Hlkm Htgm Hwm Hndx Hlkx Htgx Hwx Hndx1 Hlkx1 Hwx1 Hd1.
      (* the width of the merged link *)
      destruct (mixed_x_cell _ _ _ _ _ _ i Hmix2 Hiq)
        as (ndx2 & lkx2 & Hndx2 & Hlkx2 & _ & Hwx2).
      apply spec_assoc.
      eapply spec_step;
        [eapply (load_link_eq (with_heap s h2)); simpl; eassumption|].
      destruct (mixed_pred_cell _ _ _ _ _ _ i (Some (an_addr m)) Hmix2)
        as (A2 & m2 & B2 & nd2 & lk2 & _ & [= Em2] & _ & _ & Hnd2 & Hlk2 & _ & Hw2).
      { exists A, m, B. auto. }
      rewrite <- Em2 in Hnd2.
      set (w_new := if (0 <? width lkx2)%Z
                    then wrap (width lk2 + wrap (width lkx2 - 1))
                    else 0%Z).
      assert (Hw_new : i = 0 -> w_new = 1%Z).
      { intros Hi0. unfold w_new. rewrite (Hwx2 Hi0), (Hw2 Hi0). reflexivity. }
      destruct (store_width_mixed (with_heap s h2) _ _ _ _ _ _ _ _ _ w_new
                  Hmix2 Hnd2 Hlk2 Hw_new) as (h3 & Hst3 & Hd3 & Hmix3).
      simpl in Hd3, Hst3.
      eapply spec_step with (a := tt) (s1 := with_heap s h3).
      { unfold w_new in Hst3. destruct (0 <? width lkx2)%Z; [|exact Hst3].
        erewrite bind_step by (eapply (load_link_eq (with_heap s h2));
                               simpl; eassumption).
        exact Hst3. }
      eapply spec_conseq;
        [apply (IH (S i) (with_heap s h3)); [lia|exact Hmix3]| |auto].
      intros _ s' (h' & -> & Hd' & Hmix'). exists h'.
      split; [reflexivity|]. split; [|exact Hmix'].
      simpl in Hd'. congruence.
    + (* the node is skipped on this lane *)
      destruct (decide (i < an_level q)); [contradiction|].
      assert (Hne : node lkm <> Some (an_addr q)).
      { rewrite Htgm. intros Hin%next_at_elem.
        rewrite fmap_app, fmap_cons in Hnd.
        apply NoDup_app in Hnd as (_ & _ & Hnd).
        apply NoDup_cons in Hnd as [Hnd _]. contradiction. }
      destruct (decide (node lkm <> Some (an_addr q))) as [_|Hc];
        [|contradiction].
      destruct (store_width_mixed s _ _ _ _ _ _ _ _ _ (wrap (width lkm - 1))
                  Hmix Hndm Hlkm ltac:(lia)) as (h1 & Hst1 & Hd1 & Hmix1).
      eapply spec_step; [exact Hst1|].
      eapply spec_conseq;
        [apply (IH (S i) (with_heap s h1)); [lia|]| |auto].
      * eapply mixed_ext; [exact Hmix1|..];
          intros j Hj; apply bool_decide_ext; lia.
      * intros _ s' (h' & -> & Hd' & Hmix'). exists h'.
        split; [reflexivity|]. split; [|exact Hmix'].
        simpl in Hd'. congruence.
Qed.

Lemma lower_while_spec hd ns : forall k (s : Skip_List T) ha,
  head_ s = Some ha -> an_addr hd = ha ->
  chain (heap s) (hd :: ns) (fun _ => []) ->
  level_ s <= an_level hd ->
  Forall (fun n => an_level n <= level_ s) ns ->
  spec (lower_while k) s
    (fun _ s' => exists l,
       s' = with_level s l /\ l <= level_ s /\ (1 <= level_ s -> 1 <= l) /\
       Forall (fun n => an_level n <= l) ns)
    False.
Proof.
  induction k as [|k IH]; intros s ha Hhd Hha Hch Hlv Hns.
  - apply spec_ret. exists (level_ s).
    split; [destruct s; reflexivity|]. auto.
  - cbn [lower_while]. eapply spec_step; [reflexivity|].
    destruct (decide (1 < level_ s)) as [Hl|Hl].
    + eapply spec_step; [reflexivity|]. rewrite Hhd, <- Hha.
      assert (Hch' := Hch). destruct Hch' as [Hhdok _].
      destruct (node_ok_link _ _ _ (level_ s - 1) Hhdok ltac:(lia))
        as (nd & lk & Hnd & _ & _ & Hlk & Htg & _).
      rewrite app_nil_r in Htg.
      eapply spec_step; [eapply load_link_eq; eassumption|].
      rewrite Htg. destruct (next_at (level_ s - 1) ns) as [a|] eqn:Hnext.
      * apply spec_ret. exists (level_ s).
        split; [destruct s; reflexivity|]. auto.
      * eapply spec_step; [reflexivity|].
        eapply spec_conseq;
          [eapply (IH (with_level s (level_ s - 1)) ha); simpl; auto| |auto].
        -- lia.
        -- apply next_at_none_inv, Hnext.
        -- intros _ s' (l & -> & Hl1 & Hl2 & Hl3). simpl in *.
           exists l. split; [reflexivity|]. split; [lia|].
           split; [intros _; apply Hl2; lia|exact Hl3].
    + apply spec_ret. exists (level_ s).
      split; [destruct s; reflexivity|]. auto.
Qed.
End Unlink.

(** ** [remove] and [find] on a represented list *)

Section Remove.
Context {T : Type} `{ElementLaws T}.
Implicit Types (n m x : anode T) (j i : nat).
Implicit Types (h : gmap addr (Skip_Node T)).

Lemma delete_node_eq (s : Skip_List T) a nd :
  heap s !! a = Some nd ->
  delete_node (Some a) s = Ok (tt, with_heap s (delete a (heap s))).
Proof.
  intros Hnd. unfold delete_node.
  rewrite (bind_step _ _ _ _ _ (load_node_eq _ _ _ Hnd)). reflexivity.
Qed.

(** What the descent of [remove] and [find] delivers. *)
Lemma remove_for_spec fuel (key : T) (s : Skip_List T) ha pre post :
  rep s ha (pre ++ post) ->
  Forall (below key) pre -> Forall (not_below key) post ->
  spec (remove_for fuel (level_ s) key (Some ha)
          (replicate (level_ s) None)) s
    (fun r s' => s' = s /\
       (forall j, j < level_ s ->
          exists u, r.2 !! j = Some u /\
                    lane_pred (sentinel s ha :: pre) j u) /\
       exists A m,
         sentinel s ha :: pre = A ++ [m] /\ r.1 = Some (an_addr m) /\
         exists nd lk, heap s !! an_addr m = Some nd /\
                       forward_ nd !! 0 = Some lk /\
                       node lk = next_at 0 post)
    (fuel <= List.length (pre ++ post)).
Proof.
  intros Hrep Hpre Hpost.
  pose proof Hrep as [Hhd Hch Hnd Hdom Hlvs Hlv Hel Hso].
  set (hd := sentinel s ha) in *.
  change (hd :: pre ++ post) with ((hd :: pre) ++ post) in Hch.
  apply chain_app in Hch as [Hc1 Hc2].
  assert (Hc1' : chain (heap s) (hd :: pre) (fun _ => post)).
  { eapply chain_ext; [exact Hc1|]. intros n j _ _.
    rewrite app_nil_r. reflexivity. }
  apply Forall_app in Hlvs as [Hlpre Hlpost].
  eapply spec_conseq.
  - eapply spec_forget.
    + apply (remove_for_forget fuel key (level_ s) (Some ha) _
               (replicate (level_ s) 0%Z)).
      rewrite length_replicate. lia.
    + eapply (insert_for_spec s key post Hc2 Hpost hd pre Hc1' Hpre fuel
                (level_ s) [] hd pre); [reflexivity|simpl; lia| |..].
      * eapply Forall_impl; [exact Hlpre|]. simpl. intros n Hn. lia.
      * rewrite length_replicate. lia.
      * rewrite length_replicate. lia.
  - intros r s' ([[x update] uw] & -> & -> & _ & _ & _ & Hupd & Hcur).
    cbn [fst snd] in Hupd, Hcur |- *.
    split; [reflexivity|]. split; [exact Hupd|].
    destruct Hcur as (A' & m' & B' & Hsplit & -> & HB').
    assert (B' = []) as ->.
    { destruct B' as [|b B']; [reflexivity|].
      apply Forall_cons in HB' as [Hb _].
      assert (Hbin : b ∈ pre).
      { destruct A' as [|a A']; simpl in Hsplit; injection Hsplit as _ ->;
          set_solver. }
      rewrite Forall_forall in Hlpre. specialize (Hlpre b Hbin).
      simpl in Hlpre. lia. }
    exists A', m'. split; [exact Hsplit|]. split; [reflexivity|].
    rewrite Hsplit in Hc1'. apply chain_app in Hc1' as [_ [Hm' _]].
    simpl in Hm'.
    assert (Hm'lv : 0 < an_level m').
    { destruct A' as [|a A']; simpl in Hsplit.
      - injection Hsplit as <- _. simpl. lia.
      - injection Hsplit as _ ->. rewrite Forall_forall in Hlpre.
        specialize (Hlpre m' ltac:(set_solver)). simpl in Hlpre. lia. }
    destruct (node_ok_link _ _ _ 0 Hm' Hm'lv)
      as (ndm & lkm & Hndm & _ & _ & Hlkm & Htgm & _).
    exists ndm, lkm. auto.
  - rewrite length_app. lia.
Qed.

Lemma not_below_rest (key : T) q post' :
  Forall (fun n => is_Some (an_ptr n)) (q :: post') ->
  StronglySorted an_lt (q :: post') -> not_below key q ->
  Forall (not_below key) (q :: post').
Proof.
  intros Hel Hs Hq.
  destruct (split_by_key key (q :: post') Hel Hs)
    as (pre & post & Heq & Hpre & Hpost).
  destruct pre as [|p pre]; simpl in Heq.
  - rewrite Heq. exact Hpost.
  - injection Heq as <- _. apply Forall_cons in Hpre as [(e & He & Hlt) _].
    destruct Hq as (e' & He' & Hlt'). congruence.
Qed.

Theorem remove_outcome fuel (key : T) (s : Skip_List T) ha ns :
  rep s ha ns ->
  outcome (remove fuel key) s
    (fun r s' =>
       exists pre q post' e,
         ns = pre ++ q :: post' /\ Forall (below key) pre /\
         an_ptr q = Some e /\ elt_lt e key = false /\
         ((elt_eq e key = false /\ r = None /\ s' = s) \/
          (elt_eq e key = true /\ r = Some e /\
           rep s' ha (pre ++ post') /\ width_ s' = width_ s /\
           kMaxLevel_ s' = kMaxLevel_ s)))
    (Forall (below key) ns)
    (fuel <= List.length ns).
Proof.
  intros Hrep.
  destruct (split_by_key key ns (rep_elems _ _ _ Hrep) (rep_sorted _ _ _ Hrep))
    as (pre & post & -> & Hpre & Hpost).
  pose proof Hrep as [Hhd Hch Hnd Hdom Hlvs Hlv Hel Hso].
  set (hd := sentinel s ha) in *.
  unfold remove.
  eapply outcome_step; [reflexivity|].
  eapply outcome_step; [reflexivity|].
  rewrite Hhd.
  eapply outcome_bind; [apply (remove_for_spec fuel key s ha pre post); auto|].
  intros [x update] s1 (-> & Hupd & A & m & Hsplit & Hx & nd & lk & Hndm & Hlkm & Htg).
  cbn [fst snd] in Hupd, Hx. subst x.
  eapply outcome_step; [eapply load_link_eq; eassumption|].
  rewrite Htg.
  destruct post as [|q post'].
  - (* every element is below the key: [x] is null *)
    unfold outcome, bind. simpl. rewrite app_nil_r. exact Hpre.
  - apply Forall_app in Hlvs as [Hlpre Hlpost].
    apply Forall_cons in Hlpost as [Hlq Hlpost].
    simpl. destruct (decide (0 < an_level q)) as [_|Hc]; [|lia].
    change (hd :: pre ++ q :: post') with ((hd :: pre) ++ q :: post') in Hch.
    assert (Hmix0 := proj2 (mixed_linked _ _ _ _) Hch).
    destruct (mixed_x_cell _ _ _ _ _ _ 0 Hmix0 ltac:(lia))
      as (ndq & lkq & Hndq & _).
    apply chain_app in Hch as [_ [Hqok _]].
    destruct (node_ok_cell _ _ _ Hqok) as (ndq' & Hndq' & Hptr & _).
    rewrite Hndq in Hndq'. injection Hndq' as <-.
    apply Forall_cons in Hpost as [(e & He & Hlt) Hpost].
    rewrite He in Hptr.
    eapply outcome_step; [eapply load_elem_eq; eassumption|].
    destruct (elt_eq e key) eqn:Heq; simpl.
    + (* found: unlink and delete the node *)
      apply outcome_spec.
      eapply spec_step; [reflexivity|].
      eapply spec_bind.
      { apply spec_no_fuel.
        eapply (unlink_for_spec (hd :: pre) q post' update (level_ s));
          [exact Hnd|exact Hupd|exact Hlq|lia|].
        eapply mixed_ext; [exact Hmix0|..];
          intros j _; apply bool_decide_eq_true; lia. }
      intros _ s1 (h1 & -> & Hd1 & Hmix1).
      apply mixed_unlinked in Hmix1 as [Hch1 Hq1].
      destruct (node_ok_cell _ _ _ Hq1) as (ndq1 & Hndq1 & Hptr1 & _).
      eapply spec_step;
        [eapply (load_node_eq (with_heap s h1)); simpl; eassumption|].
      eapply spec_step;
        [eapply (delete_node_eq (with_heap s h1)); simpl; eassumption|].
      simpl heap. set (h2 := delete (an_addr q) h1).
      assert (Hne : forall n, n ∈ (hd :: pre) ++ post' ->
                              an_addr n <> an_addr q).
      { intros n Hn.
        apply (addr_ne_of_NoDup (hd :: pre) post' n q Hnd Hn). }
      assert (Hch2 : chain h2 ((hd :: pre) ++ post') (fun _ => [])).
      { eapply chain_heap; [exact Hch1|]. intros n Hn.
        apply lookup_delete_ne. intros E. exact (Hne n Hn (eq_sym E)). }
      eapply spec_step; [reflexivity|].
      eapply spec_bind.
      { apply spec_no_fuel.
        eapply (lower_while_spec hd (pre ++ post') (level_ s)
                  (with_heap s h2) ha);
          [exact Hhd|reflexivity|exact Hch2|simpl; lia|].
        apply Forall_app. split.
        - eapply Forall_impl; [exact Hlpre|]. simpl. intros n Hn. lia.
        - eapply Forall_impl; [exact Hlpost|]. simpl. intros n Hn. lia. }
      intros _ s1 (l & -> & Hl1 & Hl2 & Hl3). simpl in Hl1, Hl2.
      apply spec_ret. exists pre, q, post', e.
      split; [reflexivity|]. split; [exact Hpre|]. split; [exact He|].
      split; [exact Hlt|]. right.
      split; [exact Heq|]. split; [rewrite Hptr1; exact He|].
      split; [|split; reflexivity].
      constructor.
      * exact Hhd.
      * exact Hch2.
      * change (NoDup (an_addr <$> (hd :: pre) ++ post')).
        change (hd :: pre ++ q :: post')
          with ((hd :: pre) ++ q :: post') in Hnd.
        rewrite fmap_app in Hnd |- *.
        change (an_addr <$> q :: post')
          with (an_addr q :: (an_addr <$> post')) in Hnd.
        rewrite <- Permutation_middle in Hnd.
        apply NoDup_cons in Hnd as [_ Hnd]. exact Hnd.
      * change (dom h2 = list_to_set (an_addr <$> (hd :: pre) ++ post')).
        unfold h2. rewrite dom_delete_L, Hd1, Hdom.
        change (hd :: pre ++ q :: post') with ((hd :: pre) ++ q :: post').
        assert (Hq : an_addr q ∉ an_addr <$> (hd :: pre) ++ post').
        { intros (n & E & Hn)%list_elem_of_fmap. exact (Hne n Hn (eq_sym E)). }
        rewrite fmap_app in Hq. rewrite !fmap_app, fmap_cons.
        rewrite !list_to_set_app_L, list_to_set_cons.
        rewrite not_elem_of_app in Hq. destruct Hq as [Hq1' Hq2'].
        set_solver.
      * simpl. apply Forall_app. split.
        -- rewrite Forall_forall in Hlpre, Hl3 |- *. intros n Hn.
           specialize (Hlpre n Hn). specialize (Hl3 n ltac:(set_solver)).
           simpl in *. lia.
        -- rewrite Forall_forall in Hlpost, Hl3 |- *. intros n Hn.
           specialize (Hlpost n Hn). specialize (Hl3 n ltac:(set_solver)).
           simpl in *. lia.
      * simpl. lia.
      * apply Forall_app in Hel as [He1 He2].
        apply Forall_cons in He2 as [_ He2].
        apply Forall_app. auto.
      * apply StronglySorted_app in Hso as (Hcross & Hs1 & Hs2).
        apply StronglySorted_cons in Hs2 as [_ Hs2].
        apply StronglySorted_app. repeat split; try assumption.
        intros a b Ha Hb. apply Hcross; [exact Ha|set_solver].
    + (* the next element is not the key *)
      apply outcome_spec, spec_ret. exists pre, q, post', e.
      split; [reflexivity|]. split; [exact Hpre|]. split; [exact He|].
      split; [exact Hlt|]. left. auto.
Qed.
End Remove.

(** ** Searching and iterating a represented list *)

Section Find.
Context {T : Type} `{ElementLaws T}.
Implicit Types (n m : anode T) (j i : nat).
Implicit Types (h : gmap addr (Skip_Node T)).

Lemma find_for_remove_for fuel (key : T) : forall i x update s,
  i <= List.length update ->
  find_for fuel i key x s = forget fst (remove_for fuel i key x update s).
Proof.
  induction i as [|j IH]; intros x update s Hu; [reflexivity|].
  simpl. unfold bind.
  change (remove_while fuel j key x s) with (find_while fuel j key x s).
  destruct (find_while fuel j key x s) as [[x' s1]| |]; try reflexivity.
  unfold arr_set. destruct (decide (j < List.length update)); [|lia].
  simpl. apply IH. rewrite length_insert. lia.
Qed.

Theorem find_outcome fuel (key : T) (s : Skip_List T) ha ns :
  rep s ha ns ->
  outcome (find fuel key) s
    (fun r s' =>
       s' = s /\
       exists pre q post' e,
         ns = pre ++ q :: post' /\ Forall (below key) pre /\
         an_ptr q = Some e /\ elt_lt e key = false /\
         r = if elt_eq e key then Some (an_addr q) else None)
    (Forall (below key) ns)
    (fuel <= List.length ns).
Proof.
  intros Hrep.
  destruct (split_by_key key ns (rep_elems _ _ _ Hrep) (rep_sorted _ _ _ Hrep))
    as (pre & post & -> & Hpre & Hpost).
  pose proof Hrep as [Hhd Hch Hnd Hdom Hlvs Hlv Hel Hso].
  set (hd := sentinel s ha) in *.
  unfold find.
  eapply outcome_step; [reflexivity|].
  eapply outcome_step; [reflexivity|].
  rewrite Hhd.
  eapply outcome_bind.
  { eapply spec_forget.
    - apply (find_for_remove_for fuel key (level_ s) (Some ha)
               (replicate (level_ s) None)).
      rewrite length_replicate. lia.
    - apply (remove_for_spec fuel key s ha pre post); auto. }
  intros x s1 ([x' update] & -> & -> & _ & A & m & _ & Hx & nd & lk & Hndm & Hlkm & Htg).
  cbn [fst snd] in Hx |- *. subst x'.
  eapply outcome_step; [eapply load_link_eq; eassumption|].
  rewrite Htg.
  destruct post as [|q post'].
  - unfold outcome, bind. simpl. rewrite app_nil_r. exact Hpre.
  - apply Forall_app in Hlvs as [_ Hlpost].
    apply Forall_cons in Hlpost as [Hlq _].
    simpl. destruct (decide (0 < an_level q)) as [_|Hc]; [|lia].
    change (hd :: pre ++ q :: post') with ((hd :: pre) ++ q :: post') in Hch.
    apply chain_app in Hch as [_ [Hqok _]].
    destruct (node_ok_cell _ _ _ Hqok) as (ndq & Hndq & Hptr & _).
    apply Forall_cons in Hpost as [(e & He & Hlt) Hpost].
    rewrite He in Hptr.
    eapply outcome_step; [eapply load_elem_eq; eassumption|].
    apply outcome_spec.
    assert (Hres : forall r, r = (if elt_eq e key then Some (an_addr q) else None) ->
              spec (ret r) s
                (fun r s' => s' = s /\
                   exists pre0 q0 post0 e0,
                     pre ++ q :: post' = pre0 ++ q0 :: post0 /\
                     Forall (below key) pre0 /\ an_ptr q0 = Some e0 /\
                     elt_lt e0 key = false /\
                     r = if elt_eq e0 key then Some (an_addr q0) else None)
                (fuel <= List.length (pre ++ q :: post'))).
    { intros r ->. apply spec_ret. split; [reflexivity|].
      exists pre, q, post', e. auto. }
    destruct (elt_eq e key); apply Hres; reflexivity.
Qed.

Lemma level0_while_eq (s : Skip_List T) : forall ns fuel,
  chain (heap s) ns (fun _ => []) ->
  Forall (fun n => 1 <= an_level n) ns ->
  Forall (fun n => is_Some (an_ptr n)) ns ->
  List.length ns <= fuel ->
  level0_while fuel (next_at 0 ns) s = Ok (elems ns, s).
Proof.
  induction ns as [|n ns IH]; intros fuel Hch Hlv Hel Hfuel.
  - destruct fuel; reflexivity.
  - destruct Hch as [Hn Hch].
    apply Forall_cons in Hlv as [Hn1 Hlv].
    apply Forall_cons in Hel as [[e He] Hel].
    simpl. destruct (decide (0 < an_level n)) as [_|Hc]; [|lia].
    destruct fuel as [|fuel]; [simpl in Hfuel; lia|].
    destruct (node_ok_link _ _ _ 0 Hn ltac:(lia))
      as (nd & lk & Hnd & Hptr & _ & Hlk & Htg & _).
    rewrite He in Hptr. rewrite app_nil_r in Htg.
    cbn [level0_while].
    rewrite (bind_step _ _ _ _ _ (load_elem_eq _ _ _ _ Hnd Hptr)).
    rewrite (bind_step _ _ _ _ _ (load_link_eq _ _ _ _ _ Hnd Hlk)).
    rewrite Htg.
    rewrite (bind_step _ _ _ _ _ (IH fuel Hch Hlv Hel ltac:(simpl in Hfuel; lia))).
    unfold elems. simpl. rewrite He. reflexivity.
Qed.

Lemma level0_elements_eq (s : Skip_List T) ha ns fuel :
  rep s ha ns -> List.length ns <= fuel ->
  level0_elements fuel s = Ok (elems ns, s).
Proof.
  intros [Hhd Hch Hnd Hdom Hlvs Hlv Hel Hso] Hfuel.
  unfold level0_elements.
  rewrite (bind_step _ _ _ _ _ (eq_refl : get head_ s = Ok (head_ s, s))).
  rewrite Hhd. destruct Hch as [Hhdok Hch].
  destruct (node_ok_link _ _ _ 0 Hhdok ltac:(simpl; lia))
    as (nd & lk & Hndh & _ & _ & Hlk & Htg & _).
  rewrite app_nil_r in Htg.
  rewrite (bind_step _ _ _ _ _ (load_link_eq _ _ _ _ _ Hndh Hlk)), Htg.
  apply level0_while_eq; auto.
  eapply Forall_impl; [exact Hlvs|]. simpl. intros n Hn. lia.
Qed.

Lemma elems_sorted (ns : list (anode T)) :
  StronglySorted an_lt ns ->
  StronglySorted (fun a b => elt_lt a b = true) (elems ns).
Proof.
  induction ns as [|n ns IH]; intros Hs; [constructor|].
  apply StronglySorted_cons in Hs as [Hn Hs]. specialize (IH Hs).
  unfold elems in *. simpl.
  destruct (an_ptr n) as [e|] eqn:He; [|exact IH].
  constructor; [exact IH|].
  rewrite Forall_forall in Hn. apply Forall_forall. intros e' Hin.
  apply list_elem_of_omap in Hin as (m & Hm & He').
  specialize (Hn m Hm). unfold an_lt in Hn. rewrite He, He' in Hn. exact Hn.
Qed.

Lemma sorted_NoDup (l : list T) :
  StronglySorted (fun a b => elt_lt a b = true) l -> NoDup l.
Proof.
  induction l as [|a l IH]; intros Hs; [constructor|].
  apply StronglySorted_cons in Hs as [Ha Hs].
  apply NoDup_cons. split; [|auto].
  intros Hin. rewrite Forall_forall in Ha. specialize (Ha a Hin).
  rewrite elt_lt_irrefl in Ha. discriminate.
Qed.

Lemma rep_size (s : Skip_List T) ha ns :
  rep s ha ns -> size (heap s) = S (List.length ns).
Proof.
  intros Hrep. rewrite <- size_dom, (rep_dom _ _ _ Hrep).
  rewrite size_list_to_set by exact (rep_nodup _ _ _ Hrep).
  rewrite length_fmap. reflexivity.
Qed.

Lemma rep_new (max_level : nat) (p : Q) :
  0 < max_level ->
  rep (Skip_List_new max_level p : Skip_List T) (fresh (∅ : gset positive)) [].
Proof.
  intros Hk. constructor; simpl.
  - reflexivity.
  - split; [|exact I].
    eapply node_ok_ext;
      [apply (node_ok_new ∅ (fresh (∅ : gset positive)) None max_level [])|].
    intros j _. reflexivity.
  - apply NoDup_singleton.
  - rewrite dom_singleton_L. set_solver.
  - constructor.
  - lia.
  - constructor.
  - constructor.
Qed.

(** Every reachable state represents a skip list. *)
Theorem reachable_rep (s : Skip_List T) :
  reachable s -> exists ha ns, rep s ha ns.
Proof.
  induction 1 as [k p Hk|s fuel draws key r s' _ (ha & ns & Hrep) Hins
                 |s fuel key r s' _ (ha & ns & Hrep) Hrem].
  - eexists _, []. apply rep_new, Hk.
  - pose proof (spec_Ok _ _ _ _ _ _ (insert_spec fuel draws key s ha ns Hrep) Hins)
      as (pre & post & -> & _ & _ & [(q & post' & e & _ & _ & _ & _ & Hrep' & _)
                                    |(nn & _ & _ & Hrep' & _)]); eauto.
  - pose proof (remove_outcome fuel key s ha ns Hrep) as Hout.
    unfold outcome in Hout. rewrite Hrem in Hout.
    destruct Hout as (pre & q & post' & e & -> & _ & _ & _ &
                      [(_ & _ & ->)|(_ & _ & Hrep' & _)]); eauto.
Qed.
End Find.

(** ** The specification on reachable states *)

Section Reachable_States.
Context {T : Type} `{ElementLaws T}.

(** C4. In every state reachable by [insert] and [remove], iterating
    level 0 from the head (with fuel for every allocated node) returns a
    list of elements that is strictly ascending for the element order and
    has no duplicates. *)
Theorem level0_strictly_ascending (s : Skip_List T) :
  reachable s ->
  exists l,
    level0_elements (size (heap s)) s = Ok (l, s) /\
    StronglySorted (fun a b => elt_lt a b = true) l /\
    NoDup l.
Proof.
  intros (ha & ns & Hrep)%reachable_rep.
  exists (elems ns). split; [|split].
  - apply (level0_elements_eq s ha ns); [exact Hrep|].
    rewrite (rep_size s ha ns Hrep). lia.
  - apply elems_sorted, (rep_sorted s ha ns Hrep).
  - apply sorted_NoDup, elems_sorted, (rep_sorted s ha ns Hrep).
Qed.

(** C7, amended. In every reachable state [level_] is at most
    [kMaxLevel_]; the level [RandomLevel] generates there, whatever the
    draws, is at least 1, at most [kMaxLevel_ - 1] when [kMaxLevel_ >= 2],
    and exactly 1 when [kMaxLevel_ = 1]. *)
Theorem level_bounds (s : Skip_List T) (draws : nat -> Q) :
  reachable s ->
  level_ s <= kMaxLevel_ s /\
  exists lv,
    RandomLevel draws s = Ok (lv, s) /\
    1 <= lv /\
    (2 <= kMaxLevel_ s -> lv <= kMaxLevel_ s - 1) /\
    (kMaxLevel_ s = 1 -> lv = 1).
Proof.
  intros (ha & ns & Hrep)%reachable_rep.
  pose proof (rep_level s ha ns Hrep) as Hlv.
  split; [lia|].
  destruct (RandomLevel_spec draws s ltac:(lia)) as (lv & Hrl & Hl1 & Hl2).
  exists lv. split; [exact Hrl|]. lia.
Qed.

(** What holds on level 0: in every reachable state every level-0 link of an
    allocated node carries width 1; when the link has a target, that
    target is exactly one level-0 step away, and the last level-0 link,
    whose target is absent, carries 1 as well. *)
Theorem level0_widths_are_one (s : Skip_List T) :
  reachable s -> level0_width_invariant s.
Proof.
  intros (ha & ns & Hrep)%reachable_rep a nd lk Hnd Hlk.
  assert (Ha : a ∈ dom (heap s)) by (apply elem_of_dom; eauto).
  rewrite (rep_dom s ha ns Hrep) in Ha.
  apply elem_of_list_to_set, list_elem_of_fmap in Ha as (n & -> & Hn).
  destruct (chain_elem _ _ _ _ (rep_chain s ha ns Hrep) Hn)
    as (l1 & l2 & Hsplit & f & Hf & Hlen & Hfl).
  rewrite Hf in Hnd. injection Hnd as <-. simpl in Hlk.
  destruct (Hfl 0 lk Hlk) as [Htg Hw]. specialize (Hw eq_refl).
  split; [exact Hw|]. intros b Hb.
  rewrite Hb, app_nil_r in Htg. symmetry in Htg.
  assert (Hne : an_addr n <> b).
  { apply next_at_elem in Htg. intros <-.
    pose proof (rep_nodup s ha ns Hrep) as Hnd. rewrite Hsplit in Hnd.
    rewrite fmap_app, fmap_cons in Hnd.
    apply NoDup_app in Hnd as (_ & _ & Hnd).
    apply NoDup_cons in Hnd as [Hnd _]. contradiction. }
  rewrite (rep_size s ha ns Hrep). simpl.
  destruct (decide (an_addr n = b)) as [E|_]; [contradiction|].
  rewrite Hf. simpl. rewrite Hlk. simpl. rewrite Hb. simpl.
  assert (Hbb : level0_steps (List.length ns) (heap s) b b = Some 0).
  { destruct (List.length ns); simpl;
      destruct (decide (b = b)); congruence. }
  rewrite Hbb, Hw. reflexivity.
Qed.
End Reachable_States.

Lemma reachable_list_1_3 : reachable list_1_3.
Proof.
  eapply reachable_insert with (s := list_3) (fuel := 4)
    (draws := grow_never) (key := 1%Z);
    [eapply reachable_insert with (s := empty_list) (fuel := 4)
       (draws := grow_once) (key := 3%Z); [apply reachable_new; lia|]|];
    vm_compute; reflexivity.
Defined.

Lemma level0_strictly_ascending_witness :
  exists l,
    level0_elements (size (heap list_1_3)) list_1_3 = Ok (l, list_1_3) /\
    StronglySorted (fun a b : Z => elt_lt a b = true) l /\
    NoDup l.
Proof. exact (level0_strictly_ascending list_1_3 reachable_list_1_3). Defined.

Lemma level_bounds_witness :
  level_ list_1_3 <= kMaxLevel_ list_1_3 /\
  exists lv,
    RandomLevel grow_twice list_1_3 = Ok (lv, list_1_3) /\
    1 <= lv /\
    (2 <= kMaxLevel_ list_1_3 -> lv <= kMaxLevel_ list_1_3 - 1) /\
    (kMaxLevel_ list_1_3 = 1 -> lv = 1).
Proof. exact (level_bounds list_1_3 grow_twice reachable_list_1_3). Defined.

Lemma level0_widths_are_one_witness : level0_width_invariant list_1_3.
Proof. exact (level0_widths_are_one list_1_3 reachable_list_1_3). Defined.

(** ** Positional access on reachable states *)

Section Positional.
Context {T : Type} `{ElementLaws T}.
Implicit Types (n m : anode T) (j i : nat).

Lemma at_while_S fuel j w x :
  at_while (T:=T) (S fuel) j w x
  = (l <- load_link x j ;;
     if bool_decide (node l <> None) && (width l <=? w)%Z then
       if (wrap (w - width l) =? 0)%Z then ret (inl (node l))
       else at_while fuel j (wrap (w - width l)) (node l)
     else ret (inr (w, x))).
Proof. reflexivity. Qed.

(** Whatever the widths are, the loop of [at] walks along one lane and
    stops. *)
Lemma at_while_total (s : Skip_List T) j : forall B m fuel w,
  lane_link (heap s) m j (next_at j B) ->
  chain (heap s) B (fun _ => []) ->
  List.length B < fuel ->
  exists r,
    at_while fuel j w (Some (an_addr m)) s = Ok (r, s) /\
    match r with
    | inl _ => True
    | inr (_, x') =>
        exists B1 m' B2,
          m :: B = B1 ++ m' :: B2 /\ x' = Some (an_addr m') /\
          (B1 = [] \/ j < an_level m')
    end.
Proof.
  induction B as [|n B IH]; intros m fuel w Hlink Hch Hfuel.
  - destruct fuel as [|fuel]; [simpl in Hfuel; lia|].
    destruct Hlink as (nd & lk & Hnd & Hlk & Htg). simpl in Htg.
    rewrite at_while_S, (bind_step _ _ _ _ _ (load_link_eq _ _ _ _ _ Hnd Hlk)).
    rewrite Htg. simpl. eexists. split; [reflexivity|].
    exists [], m, []. auto.
  - destruct Hch as [Hn Hch]. simpl in Hfuel.
    destruct (decide (j < an_level n)) as [Hj|Hj].
    + destruct fuel as [|fuel]; [lia|].
      destruct Hlink as (nd & lk & Hnd & Hlk & Htg). simpl in Htg.
      destruct (decide (j < an_level n)); [|contradiction].
      rewrite at_while_S, (bind_step _ _ _ _ _ (load_link_eq _ _ _ _ _ Hnd Hlk)).
      rewrite Htg. rewrite bool_decide_eq_true_2 by discriminate.
      destruct (width lk <=? w)%Z; simpl.
      * destruct (wrap (w - width lk) =? 0)%Z.
        -- eexists. split; [reflexivity|exact I].
        -- destruct (node_ok_link _ _ _ j Hn Hj)
             as (ndn & lkn & Hndn & _ & _ & Hlkn & Htgn & _).
           rewrite app_nil_r in Htgn.
           destruct (IH n fuel (wrap (w - width lk))) as (r & Hr & Hpost);
             [exists ndn, lkn; auto|exact Hch|lia|].
           exists r. split; [exact Hr|].
           destruct r as [y|[w' x']]; [exact I|].
           destruct Hpost as (B1 & m' & B2 & Heq & Hx & Hlv).
           exists (m :: B1), m', B2. rewrite Heq. simpl.
           split; [reflexivity|]. split; [exact Hx|]. right.
           destruct Hlv as [->|Hlv]; [|exact Hlv].
           simpl in Heq. injection Heq as <- _. exact Hj.
      * eexists. split; [reflexivity|]. exists [], m, (n :: B). auto.
    + destruct (IH m fuel w) as (r & Hr & Hpost); [|exact Hch|lia|].
      * destruct Hlink as (nd & lk & Hnd & Hlk & Htg). simpl in Htg.
        destruct (decide (j < an_level n)); [contradiction|].
        exists nd, lk. auto.
      * exists r. split; [exact Hr|].
        destruct r as [y|[w' x']]; [exact I|].
        destruct Hpost as (B1 & m' & B2 & Heq & Hx & Hlv).
        destruct B1 as [|b B1]; simpl in Heq.
        -- injection Heq as <- <-. exists [], m, (n :: B). auto.
        -- injection Heq as <- ->. exists (m :: n :: B1), m', B2.
           split; [reflexivity|]. split; [exact Hx|].
           destruct Hlv as [[=]|Hlv]. auto.
Qed.

Lemma at_for_total (s : Skip_List T) all fuel :
  chain (heap s) all (fun _ => []) ->
  forall i A m B w,
    all = A ++ m :: B -> i <= an_level m -> List.length B < fuel ->
    exists r, at_for fuel i w (Some (an_addr m)) s = Ok (r, s).
Proof.
  intros Hch. induction i as [|j IH]; intros A m B w Hsplit Hlv Hfuel.
  - eexists. reflexivity.
  - assert (Hch' := Hch). rewrite Hsplit in Hch'.
    apply chain_app in Hch' as [_ [Hm HB]].
    destruct (node_ok_link _ _ _ j Hm ltac:(lia))
      as (nd & lk & Hnd & _ & _ & Hlk & Htg & _).
    rewrite app_nil_r in Htg.
    destruct (at_while_total s j B m fuel w) as (r & Hr & Hpost);
      [exists nd, lk; auto|exact HB|exact Hfuel|].
    cbn [at_for]. rewrite (bind_step _ _ _ _ _ Hr).
    destruct r as [y|[w' x']]; [eexists; reflexivity|].
    destruct Hpost as (B1 & m' & B2 & Heq & -> & Hlv').
    apply (IH (A ++ B1) m' B2 w').
    + rewrite Hsplit, Heq, <- app_assoc. reflexivity.
    + destruct Hlv' as [->|Hlv']; [|lia].
      simpl in Heq. injection Heq as <- _. lia.
    + assert (Hlen : List.length (m :: B) = List.length (B1 ++ m' :: B2))
        by (rewrite Heq; reflexivity).
      rewrite length_app in Hlen. simpl in Hlen. lia.
Qed.

Lemma at_total (s : Skip_List T) ha ns fuel index :
  rep s ha ns -> List.length ns < fuel ->
  exists r, at_ fuel index s = Ok (r, s).
Proof.
  intros Hrep Hfuel. unfold at_.
  rewrite (bind_step _ _ _ _ _ (eq_refl : get width_ s = Ok (width_ s, s))).
  destruct (index >=? width_ s)%Z; [eexists; reflexivity|].
  rewrite (bind_step _ _ _ _ _ (eq_refl : get head_ s = Ok (head_ s, s))).
  rewrite (bind_step _ _ _ _ _ (eq_refl : get level_ s = Ok (level_ s, s))).
  rewrite (rep_head s ha ns Hrep).
  apply (at_for_total s (sentinel s ha :: ns) fuel (rep_chain s ha ns Hrep)
           (level_ s) [] (sentinel s ha) ns); [reflexivity| |exact Hfuel].
  simpl. apply (rep_level s ha ns Hrep).
Qed.

(** C10. For every state and index, whatever the fuel: the index operator
    is [at]; when [at] returns, the list object (every node, link target
    and width in the heap, [level_] and [width_]) is the one it was called
    on; and in a reachable state [at] does return once the fuel covers the
    allocated nodes. *)
Theorem positional_access_read_only (fuel : nat) (index : Z)
    (s : Skip_List T) :
  operator_index fuel index s = at_ fuel index s /\
  (forall r s', at_ fuel index s = Ok (r, s') -> s' = s) /\
  (reachable s -> size (heap s) <= fuel ->
   exists r, at_ fuel index s = Ok (r, s)).
Proof.
  split; [reflexivity|]. split.
  - intros r s' Hat. exact (read_only_at fuel index s r s' Hat).
  - intros (ha & ns & Hrep)%reachable_rep Hfuel.
    rewrite (rep_size s ha ns Hrep) in Hfuel.
    apply (at_total s ha ns); [exact Hrep|lia].
Qed.
End Positional.

Lemma positional_access_read_only_witness :
  (exists r, at_ 3 1 list_1_3 = Ok (r, list_1_3)) /\
  (forall r s', at_ 3 1 list_1_3 = Ok (r, s') -> s' = list_1_3).
Proof.
  destruct (positional_access_read_only 3 1 list_1_3) as (_ & Hro & Htot).
  split; [|exact Hro].
  apply Htot; [exact reachable_list_1_3|]. vm_compute. lia.
Defined.

(** ** Consequences for whole calls *)

Section Calls.
Context {T : Type} `{ElementLaws T}.

(** X1. [insert] returns in every reachable state once the fuel covers the
    allocated nodes. *)
Corollary insert_returns fuel draws (key : T) (s : Skip_List T) :
  reachable s -> size (heap s) <= fuel ->
  exists r s', insert fuel draws key s = Ok (r, s').
Proof.
  intros (ha & ns & Hrep)%reachable_rep Hfuel.
  rewrite (rep_size s ha ns Hrep) in Hfuel.
  destruct (spec_total _ _ _ _ (insert_spec fuel draws key s ha ns Hrep))
    as (r & s' & Hins & _); [lia|eauto].
Qed.

(** X2. After a returning [insert(key)], [find(key)] returns a node holding
    an element equal to [key]. *)
Corollary find_after_insert fuel fuel' draws (key : T) (s : Skip_List T) r s' :
  reachable s -> insert fuel draws key s = Ok (r, s') ->
  size (heap s') <= fuel' ->
  exists e, find fuel' key s' = Ok (r, s') /\
            load_elem r s' = Ok (e, s') /\ elt_eq e key = true.
Proof.
  intros Hreach Hins Hfuel.
  assert (Hreach' : reachable s') by (eapply reachable_insert; eassumption).
  destruct (reachable_rep s Hreach) as (ha & ns & Hrep).
  pose proof (spec_Ok _ _ _ _ _ _ (insert_spec fuel draws key s ha ns Hrep) Hins)
    as (pre & post & -> & Hpre & Hpost & Hcases).
  assert (Hgoal : exists ns' pre' q post' e,
             rep s' ha ns' /\ ns' = pre' ++ q :: post' /\
             Forall (below key) pre' /\ an_ptr q = Some e /\
             elt_eq e key = true /\ r = Some (an_addr q)).
  { destruct Hcases as [(q & post' & e & -> & He & Heq & -> & Hrep' & _)
                       |(nn & Hnn & -> & Hrep' & _)].
    - exists (pre ++ q :: post'), pre, q, post', e. auto 10.
    - exists (pre ++ nn :: post), pre, nn, post, key.
      split; [exact Hrep'|]. split; [reflexivity|]. split; [exact Hpre|].
      split; [exact Hnn|]. split; [|reflexivity].
      apply elt_eq_refl. }
  destruct Hgoal as (ns' & pre' & q & post' & e & Hrep' & -> & Hpre' & He & Heq & ->).
  pose proof (find_outcome fuel' key s' ha _ Hrep') as Hout.
  unfold outcome in Hout.
  rewrite (rep_size s' ha _ Hrep') in Hfuel.
  assert (Hq : q ∈ pre' ++ q :: post') by set_solver.
  assert (Hnb : ~ below key q).
  { intros (e' & He' & Hlt). rewrite He in He'. injection He' as <-.
    apply elt_eq_lt in Heq as [Hlt' _]. congruence. }
  destruct (find fuel' key s') as [[r' s'']| |] eqn:Hfind.
  - destruct Hout as (-> & pre0 & q0 & post0 & e0 & Hsplit & Hpre0 & He0 & Hlt0 & ->).
    assert (Hsame : pre0 = pre' /\ q0 = q).
    { clear -Hsplit Hpre' Hpre0 Hnb He0 Hlt0 H0.
      revert pre0 Hsplit Hpre0. induction pre' as [|p pre' IH];
        intros pre0 Hsplit Hpre0.
      - destruct pre0 as [|p0 pre0]; simpl in Hsplit.
        + injection Hsplit as -> _. auto.
        + injection Hsplit as -> _. apply Forall_cons in Hpre0 as [Hb _].
          contradiction.
      - apply Forall_cons in Hpre' as [Hp Hpre'].
        destruct pre0 as [|p0 pre0]; simpl in Hsplit.
        + injection Hsplit as <- _. destruct Hp as (e' & He' & Hlt').
          congruence.
        + injection Hsplit as -> Hsplit.
          apply Forall_cons in Hpre0 as [_ Hpre0].
          destruct (IH Hpre' pre0 Hsplit Hpre0) as [-> ->]. auto. }
    destruct Hsame as [-> ->]. rewrite He in He0. injection He0 as <-.
    rewrite Heq. exists e. split; [reflexivity|]. split; [|exact Heq].
    pose proof (rep_chain s' ha _ Hrep') as Hch.
    destruct (chain_elem _ _ _ _ Hch ltac:(right; exact Hq))
      as (l1 & l2 & _ & Hqok).
    destruct (node_ok_cell _ _ _ Hqok) as (ndq & Hndq & Hptr & _).
    rewrite He in Hptr. eapply load_elem_eq; eassumption.
  - rewrite Forall_forall in Hout. destruct (Hnb (Hout q Hq)).
  - lia.
Qed.

(** A successful [remove] leaves [width_], hence [length()], as it was. *)
Corollary remove_keeps_width fuel (key : T) (s : Skip_List T) r s' :
  reachable s -> remove fuel key s = Ok (r, s') -> width_ s' = width_ s.
Proof.
  intros (ha & ns & Hrep)%reachable_rep Hrem.
  pose proof (remove_outcome fuel key s ha ns Hrep) as Hout.
  unfold outcome in Hout. rewrite Hrem in Hout.
  destruct Hout as (pre & q & post' & e & _ & _ & _ & _ &
                    [(_ & _ & ->)|(_ & _ & _ & Hw & _)]); auto.
Qed.

(** For a key above every stored element, [find] and [remove] never
    return: they dereference [nullptr] as soon as the fuel lets the
    descent finish. *)
Corollary find_remove_above_all fuel (key : T) (s : Skip_List T) :
  reachable s -> size (heap s) <= fuel ->
  (exists l, level0_elements fuel s = Ok (l, s) /\
             Forall (fun e => elt_lt e key = true) l) ->
  find fuel key s = Undefined /\ remove fuel key s = Undefined.
Proof.
  intros (ha & ns & Hrep)%reachable_rep Hfuel (l & Hl & Hall).
  rewrite (rep_size s ha ns Hrep) in Hfuel.
  rewrite (level0_elements_eq s ha ns fuel Hrep ltac:(lia)) in Hl.
  injection Hl as <-.
  assert (Hnone : forall pre q post' e,
            ns = pre ++ q :: post' -> an_ptr q = Some e ->
            elt_lt e key = false -> False).
  { intros pre q post' e -> He Hlt. rewrite Forall_forall in Hall.
    specialize (Hall e). rewrite Hlt in Hall. discriminate Hall.
    unfold elems. apply list_elem_of_omap. exists q. split; [set_solver|auto]. }
  pose proof (find_outcome fuel key s ha ns Hrep) as Hf.
  pose proof (remove_outcome fuel key s ha ns Hrep) as Hr.
  unfold outcome in Hf, Hr. split.
  - destruct (find fuel key s) as [[r s']| |]; [|reflexivity|lia].
    destruct Hf as (_ & pre & q & post' & e & Hs & _ & He & Hlt & _).
    destruct (Hnone pre q post' e Hs He Hlt).
  - destruct (remove fuel key s) as [[r s']| |]; [|reflexivity|lia].
    destruct Hr as (pre & q & post' & e & Hs & _ & He & Hlt & _).
    destruct (Hnone pre q post' e Hs He Hlt).
Qed.
End Calls.

(** ** The elements of a reachable list *)

Section Elements.
Context {T : Type} `{ElementLaws T}.
Implicit Types (n m : anode T).

Lemma rep_elements (s : Skip_List T) ha ns :
  rep s ha ns -> level0_elements (size (heap s)) s = Ok (elems ns, s).
Proof.
  intros Hrep. apply (level0_elements_eq s ha ns); [exact Hrep|].
  rewrite (rep_size s ha ns Hrep). lia.
Qed.

Lemma elems_app (l r : list (anode T)) : elems (l ++ r) = elems l ++ elems r.
Proof. apply omap_app. Qed.

Lemma elems_cons n (l : list (anode T)) e :
  an_ptr n = Some e -> elems (n :: l) = e :: elems l.
Proof. unfold elems. simpl. intros ->. reflexivity. Qed.

Lemma elems_length (ns : list (anode T)) :
  Forall (fun n => is_Some (an_ptr n)) ns ->
  List.length (elems ns) = List.length ns.
Proof.
  induction 1 as [|n ns [e He] _ IH]; [reflexivity|].
  rewrite (elems_cons n ns e He). simpl. rewrite IH. reflexivity.
Qed.

Lemma elems_below (key : T) ns :
  Forall (below key) ns -> Forall (fun e => elt_lt e key = true) (elems ns).
Proof.
  intros Hb. apply Forall_forall. intros e (n & Hn & He)%list_elem_of_omap.
  rewrite Forall_forall in Hb. destruct (Hb n Hn) as (e' & He' & Hlt).
  congruence.
Qed.

Lemma elems_not_below (key : T) ns :
  Forall (not_below key) ns -> Forall (fun e => elt_lt e key = false) (elems ns).
Proof.
  intros Hb. apply Forall_forall. intros e (n & Hn & He)%list_elem_of_omap.
  rewrite Forall_forall in Hb. destruct (Hb n Hn) as (e' & He' & Hlt).
  congruence.
Qed.

(** Past a first element that is neither below nor equal to the key,
    every element is above the key. *)
Lemma not_below_above (key : T) post :
  StronglySorted an_lt post -> Forall (not_below key) post ->
  (forall q post' e, post = q :: post' -> an_ptr q = Some e ->
                     elt_eq e key = false) ->
  Forall (fun e => elt_lt key e = true) (elems post).
Proof.
  intros Hs Hnb Hfirst. destruct post as [|q post']; [constructor|].
  apply Forall_cons in Hnb as [(e & He & Hlt) _].
  apply StronglySorted_cons in Hs as [Hall _].
  assert (Hq : elt_lt key e = true).
  { apply elt_lt_connex; [exact Hlt|]. exact (Hfirst q post' e eq_refl He). }
  rewrite (elems_cons q post' e He). constructor; [exact Hq|].
  apply Forall_forall. intros e' (m & Hm & He')%list_elem_of_omap.
  rewrite Forall_forall in Hall. specialize (Hall m Hm).
  unfold an_lt in Hall. rewrite He, He' in Hall.
  eapply elt_lt_trans; eassumption.
Qed.

Lemma above_not_eq (key : T) l :
  Forall (fun e => elt_lt key e = true) l ->
  Forall (fun e => elt_eq e key = false) l.
Proof.
  intros Hall. eapply Forall_impl; [exact Hall|]. simpl. intros e Hlt.
  destruct (elt_eq e key) eqn:Heq; [|reflexivity].
  apply elt_eq_lt in Heq as [_ Hc]. congruence.
Qed.

Lemma below_not_eq (key : T) l :
  Forall (fun e => elt_lt e key = true) l ->
  Forall (fun e => elt_eq e key = false) l.
Proof.
  intros Hall. eapply Forall_impl; [exact Hall|]. simpl. intros e Hlt.
  destruct (elt_eq e key) eqn:Heq; [|reflexivity].
  apply elt_eq_lt in Heq as [Hc _]. congruence.
Qed.

Lemma rep_load_elem (s : Skip_List T) ha ns n e :
  rep s ha ns -> n ∈ ns -> an_ptr n = Some e ->
  load_elem (Some (an_addr n)) s = Ok (e, s).
Proof.
  intros Hrep Hn He.
  destruct (chain_elem _ _ _ _ (rep_chain s ha ns Hrep) ltac:(right; exact Hn))
    as (l1 & l2 & _ & Hok).
  destruct (node_ok_cell _ _ _ Hok) as (nd & Hnd & Hptr & _).
  rewrite He in Hptr. eapply load_elem_eq; eassumption.
Qed.

Lemma rep_load_elem_inv (s : Skip_List T) ha ns x e s' :
  rep s ha ns -> load_elem x s = Ok (e, s') ->
  exists n, n ∈ ns /\ x = Some (an_addr n) /\ an_ptr n = Some e.
Proof.
  intros Hrep (a & nd & -> & Hnd & Hptr & _)%load_elem_Ok.
  assert (Ha : a ∈ dom (heap s)) by (apply elem_of_dom; eauto).
  rewrite (rep_dom s ha ns Hrep) in Ha.
  apply elem_of_list_to_set, list_elem_of_fmap in Ha as (n & -> & Hn).
  destruct (chain_elem _ _ _ _ (rep_chain s ha ns Hrep) Hn)
    as (l1 & l2 & _ & Hok).
  destruct (node_ok_cell _ _ _ Hok) as (nd' & Hnd' & Hptr' & _).
  rewrite Hnd in Hnd'. injection Hnd' as <-.
  apply elem_of_cons in Hn as [->|Hn].
  - simpl in Hptr'. congruence.
  - exists n. split; [exact Hn|]. split; [reflexivity|]. congruence.
Qed.

Lemma NoDup_mid_notin {A} (x a : A) (l1 l2 : list A) :
  NoDup (x :: l1 ++ a :: l2) -> a ∉ x :: l1 ++ l2.
Proof.
  change (x :: l1 ++ a :: l2) with ((x :: l1) ++ a :: l2).
  intros (_ & Hdis & (Ha & _)%NoDup_cons)%NoDup_app.
  change (x :: l1 ++ l2) with ((x :: l1) ++ l2).
  intros [Hin|Hin]%elem_of_app; [|contradiction].
  apply (Hdis a Hin). left.
Qed.

(** X3. Inserting a key that no stored element equals puts it at its place in
    the level-0 order, in a newly allocated node, and counts it. *)
Theorem insert_new_key fuel draws (key : T) (s : Skip_List T) l r s' :
  reachable s ->
  level0_elements (size (heap s)) s = Ok (l, s) ->
  Forall (fun e => elt_eq e key = false) l ->
  insert fuel draws key s = Ok (r, s') ->
  exists l1 l2 a,
    l = l1 ++ l2 /\
    Forall (fun e => elt_lt e key = true) l1 /\
    Forall (fun e => elt_lt key e = true) l2 /\
    level0_elements (size (heap s')) s' = Ok (l1 ++ key :: l2, s') /\
    r = Some a /\ heap s !! a = None /\
    load_elem r s' = Ok (key, s') /\
    width_ s' = wrap (width_ s + 1).
Proof.
  intros (ha & ns & Hrep)%reachable_rep Hl Hne Hins.
  rewrite (rep_elements s ha ns Hrep) in Hl. injection Hl as <-.
  pose proof (spec_Ok _ _ _ _ _ _ (insert_spec fuel draws key s ha ns Hrep) Hins)
    as (pre & post & -> & Hpre & Hpost & Hcases).
  destruct Hcases as [(q & post' & e & -> & He & Heq & _)
                     |(nn & Hnn & -> & Hrep' & Hw & Hfirst)].
  - exfalso. rewrite Forall_forall in Hne. rewrite (Hne e) in Heq; [discriminate|].
    rewrite elems_app, (elems_cons q post' e He). set_solver.
  - exists (elems pre), (elems post), (an_addr nn).
    split; [apply elems_app|]. split; [apply elems_below, Hpre|].
    split.
    { pose proof (rep_sorted s ha _ Hrep) as Hs.
      apply StronglySorted_app in Hs as (_ & _ & Hs).
      apply not_below_above; assumption. }
    split.
    { rewrite (rep_elements s' ha _ Hrep'), elems_app,
        (elems_cons nn post key Hnn). reflexivity. }
    split; [reflexivity|]. split.
    { apply not_elem_of_dom. rewrite (rep_dom s ha _ Hrep).
      pose proof (rep_nodup s' ha _ Hrep') as Hnd.
      simpl in Hnd. rewrite fmap_app, fmap_cons in Hnd.
      apply NoDup_mid_notin in Hnd.
      simpl. rewrite fmap_app. set_solver. }
    split; [|exact Hw].
    eapply rep_load_elem; [exact Hrep'|set_solver|exact Hnn].
Qed.

(** A stored element equal to the key is met by the descent: it is the
    first element that is not below the key. *)
Lemma stored_key_first (key : T) pre post :
  StronglySorted an_lt post ->
  Forall (below key) pre -> Forall (not_below key) post ->
  Exists (fun e => elt_eq e key = true) (elems (pre ++ post)) ->
  (forall q post' e, post = q :: post' -> an_ptr q = Some e ->
                     elt_eq e key = false) ->
  False.
Proof.
  intros Hs Hpre Hpost Hex Hfirst.
  rewrite elems_app in Hex. apply Exists_app in Hex as [Hex|Hex].
  - apply Exists_exists in Hex as (e & Hin & Heq).
    pose proof (below_not_eq key _ (elems_below key pre Hpre)) as Hne.
    rewrite Forall_forall in Hne. rewrite (Hne e Hin) in Heq. discriminate.
  - apply Exists_exists in Hex as (e & Hin & Heq).
    pose proof (above_not_eq key _ (not_below_above key post Hs Hpost Hfirst))
      as Hne.
    rewrite Forall_forall in Hne. rewrite (Hne e Hin) in Heq. discriminate.
Qed.

(** X4. Inserting a key that a stored element equals returns the node of such
    an element and leaves the elements and the count as they were: the
    stored element is kept, the one passed in is not stored. *)
Theorem insert_stored_key fuel draws (key : T) (s : Skip_List T) l r s' :
  reachable s ->
  level0_elements (size (heap s)) s = Ok (l, s) ->
  Exists (fun e => elt_eq e key = true) l ->
  insert fuel draws key s = Ok (r, s') ->
  level0_elements (size (heap s')) s' = Ok (l, s') /\
  width_ s' = width_ s /\
  size (heap s') = size (heap s) /\
  exists e, e ∈ l /\ elt_eq e key = true /\
            load_elem r s = Ok (e, s) /\ load_elem r s' = Ok (e, s').
Proof.
  intros (ha & ns & Hrep)%reachable_rep Hl Hex Hins.
  rewrite (rep_elements s ha ns Hrep) in Hl. injection Hl as <-.
  pose proof (spec_Ok _ _ _ _ _ _ (insert_spec fuel draws key s ha ns Hrep) Hins)
    as (pre & post & -> & Hpre & Hpost & Hcases).
  pose proof (rep_sorted s ha _ Hrep) as Hs.
  apply StronglySorted_app in Hs as (_ & _ & Hs).
  destruct Hcases as [(q & post' & e & -> & He & Heq & -> & Hrep' & Hw)
                     |(nn & _ & _ & _ & _ & Hfirst)].
  - split; [apply (rep_elements s' ha _ Hrep')|]. split; [exact Hw|].
    split; [rewrite (rep_size s ha _ Hrep), (rep_size s' ha _ Hrep'); reflexivity|].
    exists e. split.
    { rewrite elems_app, (elems_cons q post' e He). set_solver. }
    split; [exact Heq|].
    split; eapply rep_load_elem; eauto; set_solver.
  - destruct (stored_key_first key pre post Hs Hpre Hpost Hex Hfirst).
Qed.

(** The part of a represented list from the first node that is not
    below the key. *)
Lemma rep_suffix (key : T) (s : Skip_List T) ha pre q post' e :
  rep s ha (pre ++ q :: post') -> an_ptr q = Some e -> elt_lt e key = false ->
  StronglySorted an_lt (q :: post') /\ Forall (not_below key) (q :: post').
Proof.
  intros Hrep He Hlt.
  pose proof (rep_sorted s ha _ Hrep) as Hs.
  apply StronglySorted_app in Hs as (_ & _ & Hs).
  pose proof (rep_elems s ha _ Hrep) as Hel.
  apply Forall_app in Hel as [_ Hel].
  split; [exact Hs|]. apply not_below_rest; [exact Hel|exact Hs|].
  exists e. auto.
Qed.

(** When that node does not hold the key, no node does. *)
Lemma absent_key (key : T) (s : Skip_List T) ha pre q post' e :
  rep s ha (pre ++ q :: post') -> Forall (below key) pre ->
  an_ptr q = Some e -> elt_lt e key = false -> elt_eq e key = false ->
  Forall (fun e' => elt_eq e' key = false) (elems (pre ++ q :: post')).
Proof.
  intros Hrep Hpre He Hlt Heq.
  destruct (rep_suffix key s ha pre q post' e Hrep He Hlt) as [Hs Hnb].
  rewrite elems_app. apply Forall_app. split.
  - apply below_not_eq, elems_below, Hpre.
  - apply above_not_eq, not_below_above; [exact Hs|exact Hnb|].
    intros q0 post0 e0 [= <- <-] He0. congruence.
Qed.

(** X5. What [find] returns when it returns: the node of a stored element
    equal to the key, or [nullptr] when no stored element equals it; the
    list object is not written. *)
Theorem find_result fuel (key : T) (s : Skip_List T) l r s' :
  reachable s ->
  level0_elements (size (heap s)) s = Ok (l, s) ->
  find fuel key s = Ok (r, s') ->
  s' = s /\
  ((r = None /\ Forall (fun e => elt_eq e key = false) l) \/
   (exists e, e ∈ l /\ elt_eq e key = true /\ load_elem r s = Ok (e, s))).
Proof.
  intros (ha & ns & Hrep)%reachable_rep Hl Hfind.
  rewrite (rep_elements s ha ns Hrep) in Hl. injection Hl as <-.
  pose proof (find_outcome fuel key s ha ns Hrep) as Hout.
  unfold outcome in Hout. rewrite Hfind in Hout.
  destruct Hout as (-> & pre & q & post' & e & -> & Hpre & He & Hlt & ->).
  split; [reflexivity|].
  destruct (elt_eq e key) eqn:Heq.
  - right. exists e. split.
    { rewrite elems_app, (elems_cons q post' e He). set_solver. }
    split; [exact Heq|]. eapply rep_load_elem; eauto. set_solver.
  - left. split; [reflexivity|]. eapply absent_key; eauto.
Qed.

(** X6. What [remove] returns when it returns: [nullptr], with the list object
    untouched, when no stored element equals the key; otherwise a stored
    element equal to the key, which is taken out of the level-0 order and
    whose node is deallocated, while [width_] keeps its value. *)
Theorem remove_result fuel (key : T) (s : Skip_List T) l r s' :
  reachable s ->
  level0_elements (size (heap s)) s = Ok (l, s) ->
  remove fuel key s = Ok (r, s') ->
  (r = None /\ s' = s /\ Forall (fun e => elt_eq e key = false) l) \/
  (exists e l1 l2,
     r = Some e /\ elt_eq e key = true /\ l = l1 ++ e :: l2 /\
     Forall (fun e' => elt_lt e' key = true) l1 /\
     level0_elements (size (heap s')) s' = Ok (l1 ++ l2, s') /\
     S (size (heap s')) = size (heap s) /\
     width_ s' = width_ s).
Proof.
  intros (ha & ns & Hrep)%reachable_rep Hl Hrem.
  rewrite (rep_elements s ha ns Hrep) in Hl. injection Hl as <-.
  pose proof (remove_outcome fuel key s ha ns Hrep) as Hout.
  unfold outcome in Hout. rewrite Hrem in Hout.
  destruct Hout as (pre & q & post' & e & -> & Hpre & He & Hlt &
                    [(Heq & -> & ->)|(Heq & -> & Hrep' & Hw & _)]).
  - left. split; [reflexivity|]. split; [reflexivity|].
    eapply absent_key; eauto.
  - right. exists e, (elems pre), (elems post').
    split; [reflexivity|]. split; [exact Heq|].
    split; [rewrite elems_app, (elems_cons q post' e He); reflexivity|].
    split; [apply elems_below, Hpre|].
    split; [rewrite (rep_elements s' ha _ Hrep'), elems_app; reflexivity|].
    split; [|exact Hw].
    rewrite (rep_size s ha _ Hrep), (rep_size s' ha _ Hrep').
    rewrite !length_app. simpl. lia.
Qed.

(** The split of a list at its first node that is not below the key is
    unique. *)
Lemma split_unique (key : T) (pre pre0 : list (anode T)) q q0 post post0 :
  pre ++ q :: post = pre0 ++ q0 :: post0 ->
  Forall (below key) pre -> Forall (below key) pre0 ->
  ~ below key q -> ~ below key q0 ->
  pre0 = pre /\ q0 = q /\ post0 = post.
Proof.
  revert pre0. induction pre as [|p pre IH]; intros pre0 Hsplit Hpre Hpre0 Hq Hq0.
  - destruct pre0 as [|p0 pre0]; simpl in Hsplit.
    + injection Hsplit as -> ->. auto.
    + injection Hsplit as -> _. apply Forall_cons in Hpre0 as [Hb _].
      contradiction.
  - apply Forall_cons in Hpre as [Hp Hpre].
    destruct pre0 as [|p0 pre0]; simpl in Hsplit.
    + injection Hsplit as <- _. contradiction.
    + injection Hsplit as -> Hsplit.
      apply Forall_cons in Hpre0 as [_ Hpre0].
      destruct (IH pre0 Hsplit Hpre Hpre0 Hq Hq0) as (-> & -> & ->). auto.
Qed.

Lemma not_below_not (key : T) q e :
  an_ptr q = Some e -> elt_lt e key = false -> ~ below key q.
Proof. intros He Hlt (e' & He' & Hlt'). congruence. Qed.

(** X7. [find] and [remove] return exactly when a stored element is not below
    the key; when every stored element is below it (in particular on the
    empty list) both dereference [nullptr]. *)
Theorem find_remove_return_iff fuel (key : T) (s : Skip_List T) l :
  reachable s -> size (heap s) <= fuel ->
  level0_elements (size (heap s)) s = Ok (l, s) ->
  ((exists r, find fuel key s = Ok (r, s)) <->
   Exists (fun e => elt_lt e key = false) l) /\
  ((exists r s', remove fuel key s = Ok (r, s')) <->
   Exists (fun e => elt_lt e key = false) l) /\
  (~ Exists (fun e => elt_lt e key = false) l ->
   find fuel key s = Undefined /\ remove fuel key s = Undefined).
Proof.
  intros (ha & ns & Hrep)%reachable_rep Hfuel Hl.
  rewrite (rep_elements s ha ns Hrep) in Hl. injection Hl as <-.
  rewrite (rep_size s ha ns Hrep) in Hfuel.
  assert (Hsome : forall pre q post' e,
            ns = pre ++ q :: post' -> an_ptr q = Some e ->
            elt_lt e key = false ->
            Exists (fun e => elt_lt e key = false) (elems ns)).
  { intros pre q post' e -> He Hlt. apply Exists_exists. exists e.
    split; [|exact Hlt]. rewrite elems_app, (elems_cons q post' e He).
    set_solver. }
  assert (Hnone : Forall (below key) ns ->
            ~ Exists (fun e => elt_lt e key = false) (elems ns)).
  { intros Hb (e & Hin & Hlt)%Exists_exists.
    pose proof (elems_below key ns Hb) as Hall.
    rewrite Forall_forall in Hall. rewrite (Hall e Hin) in Hlt. discriminate. }
  pose proof (find_outcome fuel key s ha ns Hrep) as Hf.
  pose proof (remove_outcome fuel key s ha ns Hrep) as Hr.
  unfold outcome in Hf, Hr.
  destruct (find fuel key s) as [[r s1]| |] eqn:Hfind; [| |lia];
    destruct (remove fuel key s) as [[r' s1']| |] eqn:Hrem; try lia.
  - destruct Hf as (-> & pre & q & post' & e & Hs & _ & He & Hlt & _).
    pose proof (Hsome pre q post' e Hs He Hlt) as Hex.
    split; [split; eauto|]. split; [split; eauto|]. intros Hc. contradiction.
  - destruct Hf as (-> & pre & q & post' & e & Hs & _ & He & Hlt & _).
    destruct (Hnone Hr (Hsome pre q post' e Hs He Hlt)).
  - destruct Hr as (pre & q & post' & e & Hs & _ & He & Hlt & _).
    destruct (Hnone Hf (Hsome pre q post' e Hs He Hlt)).
  - specialize (Hnone Hf).
    split; [split; [intros (r0 & [=])|intros Hc; contradiction]|].
    split; [split; [intros (r0 & s0 & [=])|intros Hc; contradiction]|].
    auto.
Qed.

(** X8. A returning [insert] of a new key followed by [remove] of the same key
    gives back the key and restores the elements; the count stays
    incremented. *)
Theorem insert_remove_round_trip fuel fuel' draws (key : T)
    (s : Skip_List T) l r s1 :
  reachable s ->
  level0_elements (size (heap s)) s = Ok (l, s) ->
  Forall (fun e => elt_eq e key = false) l ->
  insert fuel draws key s = Ok (r, s1) ->
  size (heap s1) <= fuel' ->
  exists s2,
    remove fuel' key s1 = Ok (Some key, s2) /\
    level0_elements (size (heap s2)) s2 = Ok (l, s2) /\
    size (heap s2) = size (heap s) /\
    width_ s2 = wrap (width_ s + 1).
Proof.
  intros (ha & ns & Hrep)%reachable_rep Hl Hne Hins Hfuel.
  rewrite (rep_elements s ha ns Hrep) in Hl. injection Hl as <-.
  pose proof (spec_Ok _ _ _ _ _ _ (insert_spec fuel draws key s ha ns Hrep) Hins)
    as (pre & post & -> & Hpre & Hpost & Hcases).
  destruct Hcases as [(q & post' & e & -> & He & Heq & _)
                     |(nn & Hnn & -> & Hrep1 & Hw & Hfirst)].
  { exfalso. rewrite Forall_forall in Hne. rewrite (Hne e) in Heq; [discriminate|].
    rewrite elems_app, (elems_cons q post' e He). set_solver. }
  rewrite (rep_size s1 ha _ Hrep1) in Hfuel.
  assert (Hnn' : ~ below key nn).
  { apply (not_below_not key nn key Hnn), elt_lt_irrefl. }
  pose proof (remove_outcome fuel' key s1 ha _ Hrep1) as Hout.
  unfold outcome in Hout.
  destruct (remove fuel' key s1) as [[r' s2]| |] eqn:Hrem.
  - destruct Hout as (pre0 & q0 & post0 & e0 & Hsplit & Hpre0 & He0 & Hlt0 & Hcases).
    destruct (split_unique key pre pre0 nn q0 post post0 Hsplit Hpre Hpre0 Hnn'
                (not_below_not key q0 e0 He0 Hlt0)) as (-> & -> & ->).
    rewrite Hnn in He0. injection He0 as <-.
    destruct Hcases as [(Heq & _)|(_ & -> & Hrep2 & Hw2 & _)].
    { rewrite elt_eq_refl in Heq. discriminate. }
    exists s2. split; [reflexivity|].
    split; [apply (rep_elements s2 ha _ Hrep2)|].
    split; [rewrite (rep_size s ha _ Hrep), (rep_size s2 ha _ Hrep2); reflexivity|].
    congruence.
  - exfalso. rewrite Forall_forall in Hout. apply Hnn', Hout. set_solver.
  - lia.
Qed.

(** X9. Node pointers stay valid across [insert]: a node allocated before the
    call is allocated after it and holds the same element. *)
Theorem insert_keeps_nodes fuel draws (key : T) (s : Skip_List T) r s' x e :
  reachable s ->
  insert fuel draws key s = Ok (r, s') ->
  load_elem x s = Ok (e, s) ->
  load_elem x s' = Ok (e, s').
Proof.
  intros (ha & ns & Hrep)%reachable_rep Hins Hx.
  destruct (rep_load_elem_inv s ha ns x e s Hrep Hx) as (n & Hn & -> & He).
  pose proof (spec_Ok _ _ _ _ _ _ (insert_spec fuel draws key s ha ns Hrep) Hins)
    as (pre & post & -> & _ & _ & Hcases).
  destruct Hcases as [(q & post' & e0 & -> & _ & _ & _ & Hrep' & _)
                     |(nn & _ & _ & Hrep' & _)];
    (eapply rep_load_elem; [exact Hrep'| |exact He]); set_solver.
Qed.

(** X10. Across a returning [remove], every node but the removed one stays
    allocated with its element; the removed node is deallocated and its
    element is the one returned. *)
Theorem remove_keeps_other_nodes fuel (key : T) (s : Skip_List T) r s' a e :
  reachable s ->
  remove fuel key s = Ok (r, s') ->
  load_elem (Some a) s = Ok (e, s) ->
  load_elem (Some a) s' = Ok (e, s') \/
  (r = Some e /\ elt_eq e key = true /\ heap s' !! a = None).
Proof.
  intros (ha & ns & Hrep)%reachable_rep Hrem Hx.
  destruct (rep_load_elem_inv s ha ns _ e s Hrep Hx) as (n & Hn & [= ->] & He).
  pose proof (remove_outcome fuel key s ha ns Hrep) as Hout.
  unfold outcome in Hout. rewrite Hrem in Hout.
  destruct Hout as (pre & q & post' & e0 & -> & _ & He0 & _ &
                    [(_ & _ & ->)|(Heq & -> & Hrep' & _)]).
  { left. exact Hx. }
  apply elem_of_app in Hn as [Hn|[->|Hn]%elem_of_cons].
  - left. eapply rep_load_elem; [exact Hrep'|set_solver|exact He].
  - right. rewrite He in He0. injection He0 as <-.
    split; [reflexivity|]. split; [exact Heq|].
    apply not_elem_of_dom. rewrite (rep_dom s' ha _ Hrep').
    pose proof (rep_nodup s ha _ Hrep) as Hnd.
    simpl in Hnd. rewrite fmap_app, fmap_cons in Hnd.
    apply NoDup_mid_notin in Hnd. simpl. rewrite fmap_app. set_solver.
  - left. eapply rep_load_elem; [exact Hrep'|set_solver|exact He].
Qed.

(** The cell of an allocated address, as a node of the represented
    list. *)
Lemma rep_cell (s : Skip_List T) ha ns a nd :
  rep s ha ns -> heap s !! a = Some nd ->
  exists l1 n l2 f,
    sentinel s ha :: ns = l1 ++ n :: l2 /\ an_addr n = a /\
    nd = mkNode (an_level n) (an_ptr n) f /\
    List.length f = an_level n /\
    forall j lk, f !! j = Some lk ->
      node lk = next_at j l2 /\ (j = 0 -> width lk = 1%Z).
Proof.
  intros Hrep Hnd.
  assert (Ha : a ∈ dom (heap s)) by (apply elem_of_dom; eauto).
  rewrite (rep_dom s ha ns Hrep) in Ha.
  apply elem_of_list_to_set, list_elem_of_fmap in Ha as (n & -> & Hn).
  destruct (chain_elem _ _ _ _ (rep_chain s ha ns Hrep) Hn)
    as (l1 & l2 & Hsplit & f & Hf & Hlen & Hfl).
  rewrite Hf in Hnd. injection Hnd as <-.
  exists l1, n, l2, f. repeat (split; [auto; fail|]).
  intros j lk Hlk. destruct (Hfl j lk Hlk) as [Htg Hw].
  rewrite app_nil_r in Htg. auto.
Qed.

(** X11. The heap of a reachable list holds the sentinel and one node for each
    element of the level-0 order, and nothing else: no node is leaked. *)
Theorem heap_accounting (s : Skip_List T) :
  reachable s ->
  exists a hd l,
    head_ s = Some a /\ heap s !! a = Some hd /\ ptr_ hd = None /\
    level0_elements (size (heap s)) s = Ok (l, s) /\
    size (heap s) = S (List.length l) /\
    forall b nd, heap s !! b = Some nd -> b <> a ->
                 exists e, ptr_ nd = Some e /\ e ∈ l.
Proof.
  intros (ha & ns & Hrep)%reachable_rep.
  pose proof (rep_chain s ha ns Hrep) as [Hhd _].
  destruct (node_ok_cell _ _ _ Hhd) as (hd & Hhdc & Hptr & _).
  exists ha, hd, (elems ns).
  split; [apply (rep_head s ha ns Hrep)|]. split; [exact Hhdc|].
  split; [exact Hptr|]. split; [apply (rep_elements s ha ns Hrep)|].
  split.
  { rewrite (rep_size s ha ns Hrep), (elems_length ns (rep_elems s ha ns Hrep)).
    reflexivity. }
  intros b nd Hnd Hne.
  destruct (rep_cell s ha ns b nd Hrep Hnd)
    as (l1 & n & l2 & f & Hsplit & Hb & -> & _).
  assert (Hn : n ∈ ns).
  { destruct l1 as [|m l1]; simpl in Hsplit.
    - injection Hsplit as <- _. simpl in Hb. congruence.
    - injection Hsplit as _ ->. set_solver. }
  pose proof (rep_elems s ha ns Hrep) as Hel.
  rewrite Forall_forall in Hel. destruct (Hel n Hn) as [e He].
  exists e. split; [exact He|].
  unfold elems. apply list_elem_of_omap. eauto.
Qed.

(** X12. The shape of the cells of a reachable list: a link array has as many
    links as the node's level; the sentinel has [kMaxLevel_] links and no
    element; every other node has an element and between 1 and [level_]
    links. *)
Theorem node_shapes (s : Skip_List T) a nd :
  reachable s -> heap s !! a = Some nd ->
  List.length (forward_ nd) = n_level_ nd /\
  ((head_ s = Some a /\ ptr_ nd = None /\ n_level_ nd = kMaxLevel_ s) \/
   (head_ s <> Some a /\ is_Some (ptr_ nd) /\ 1 <= n_level_ nd <= level_ s)).
Proof.
  intros (ha & ns & Hrep)%reachable_rep Hnd.
  destruct (rep_cell s ha ns a nd Hrep Hnd)
    as (l1 & n & l2 & f & Hsplit & Ha & -> & Hlen & _).
  simpl. split; [exact Hlen|].
  rewrite (rep_head s ha ns Hrep).
  destruct l1 as [|m l1]; simpl in Hsplit.
  - injection Hsplit as <- _. left. simpl in *. subst a. auto.
  - injection Hsplit as _ ->. right.
    pose proof (rep_nodup s ha _ Hrep) as Hndp. simpl in Hndp.
    apply NoDup_cons in Hndp as [Hha _].
    pose proof (rep_elems s ha _ Hrep) as Hel.
    pose proof (rep_levels s ha _ Hrep) as Hlv.
    rewrite Forall_forall in Hel, Hlv.
    assert (Hn : n ∈ l1 ++ n :: l2) by set_solver.
    split; [|split; [exact (Hel n Hn)|exact (Hlv n Hn)]].
    intros [= Heq]. apply Hha. rewrite Heq, <- Ha.
    apply list_elem_of_fmap. eauto.
Qed.

(** X13. Links lead forward: the target of a link on lane [j] is an allocated
    node other than the sentinel, has a link on lane [j] itself, and holds
    an element above the element of the node the link leaves. *)
Theorem links_lead_forward (s : Skip_List T) a nd j lk b :
  reachable s -> heap s !! a = Some nd -> forward_ nd !! j = Some lk ->
  node lk = Some b ->
  exists nb eb,
    heap s !! b = Some nb /\ b <> a /\ head_ s <> Some b /\
    j < List.length (forward_ nb) /\ ptr_ nb = Some eb /\
    forall e, ptr_ nd = Some e -> elt_lt e eb = true.
Proof.
  intros (ha & ns & Hrep)%reachable_rep Hnd Hlk Hb.
  destruct (rep_cell s ha ns a nd Hrep Hnd)
    as (l1 & n & l2 & f & Hsplit & Ha & -> & Hlen & Hfl).
  simpl in Hlk. destruct (Hfl j lk Hlk) as [Htg _]. rewrite Hb in Htg.
  symmetry in Htg.
  apply next_at_some in Htg as (l3 & m & l4 & -> & Hm & Hj & _).
  pose proof (rep_nodup s ha ns Hrep) as Hndp. rewrite Hsplit in Hndp.
  assert (Hmall : m ∈ sentinel s ha :: ns) by (rewrite Hsplit; set_solver).
  destruct (chain_elem _ _ _ _ (rep_chain s ha ns Hrep) Hmall)
    as (_ & _ & _ & fm & Hfm & Hlenm & _).
  rewrite Hm in Hfm.
  assert (Hmns : m ∈ ns /\ (n ∈ ns -> an_lt n m)).
  { destruct l1 as [|x l1]; simpl in Hsplit.
    - injection Hsplit as <- ->. split; [set_solver|].
      intros Hn. pose proof (rep_elems s ha _ Hrep) as Hel.
      rewrite Forall_forall in Hel. destruct (Hel _ Hn) as [e He].
      simpl in He. discriminate.
    - injection Hsplit as _ ->. split; [set_solver|]. intros _.
      pose proof (rep_sorted s ha _ Hrep) as Hs.
      apply StronglySorted_app in Hs as (_ & _ & Hs).
      apply StronglySorted_cons in Hs as [Hall _].
      rewrite Forall_forall in Hall. apply Hall. set_solver. }
  destruct Hmns as [Hmns Hlt].
  pose proof (rep_elems s ha ns Hrep) as Hel.
  rewrite Forall_forall in Hel. destruct (Hel m Hmns) as [eb Heb].
  exists (mkNode (an_level m) (an_ptr m) fm), eb. simpl.
  split; [exact Hfm|].
  rewrite fmap_app, fmap_cons, fmap_app, fmap_cons in Hndp.
  apply NoDup_app in Hndp as (_ & _ & Hndp).
  apply NoDup_cons in Hndp as [Hnot _].
  split. { intros Hba. apply Hnot. rewrite Ha, <- Hba, <- Hm. set_solver. }
  split.
  { rewrite (rep_head s ha ns Hrep). intros [= Hhb].
    pose proof (rep_nodup s ha ns Hrep) as Hnd0. simpl in Hnd0.
    apply NoDup_cons in Hnd0 as [Hha _]. apply Hha.
    rewrite Hhb, <- Hm. apply list_elem_of_fmap. eauto. }
  split; [lia|]. split; [exact Heb|].
  intros e He. simpl in He.
  assert (Hn : n ∈ ns).
  { destruct l1 as [|x l1]; simpl in Hsplit.
    - injection Hsplit as <- _. simpl in He. discriminate.
    - injection Hsplit as _ ->. set_solver. }
  specialize (Hlt Hn). unfold an_lt in Hlt. rewrite He, Heb in Hlt. exact Hlt.
Qed.

(** X14. [empty()] returns, and tells whether the level-0 order has no
    element. *)
Theorem empty_iff_no_elements (s : Skip_List T) :
  reachable s ->
  exists l,
    level0_elements (size (heap s)) s = Ok (l, s) /\
    empty s = Ok (match l with [] => true | _ :: _ => false end, s).
Proof.
  intros (ha & ns & Hrep)%reachable_rep.
  exists (elems ns). split; [apply (rep_elements s ha ns Hrep)|].
  unfold empty.
  rewrite (bind_step _ _ _ _ _ (eq_refl : get head_ s = Ok (head_ s, s))).
  rewrite (rep_head s ha ns Hrep).
  pose proof (rep_chain s ha ns Hrep) as [Hhd _].
  pose proof (rep_level s ha ns Hrep) as Hlv.
  destruct (node_ok_link _ _ _ 0 Hhd ltac:(simpl; lia))
    as (nd & lk & Hnd & _ & _ & Hlk & Htg & _).
  rewrite app_nil_r in Htg.
  rewrite (bind_step _ _ _ _ _ (load_link_eq _ _ _ _ _ Hnd Hlk)), Htg.
  destruct ns as [|n ns]; [reflexivity|].
  pose proof (rep_levels s ha _ Hrep) as Hlvs.
  apply Forall_cons in Hlvs as [Hn _].
  pose proof (rep_elems s ha _ Hrep) as Hel.
  apply Forall_cons in Hel as [[e He] _].
  rewrite (elems_cons n ns e He). simpl.
  destruct (decide (0 < an_level n)); [reflexivity|lia].
Qed.

(** The loop of the destructor deallocates the nodes of a chain one by
    one, reading each node's level-0 link before the node is deleted. *)
Lemma destructor_while_spec : forall (l : list (anode T)) (s : Skip_List T) fuel,
  chain (heap s) l (fun _ => []) ->
  Forall (fun n => 1 <= an_level n) l ->
  NoDup (an_addr <$> l) ->
  List.length l <= fuel ->
  exists h',
    destructor_while fuel (next_at 0 l) s = Ok (tt, with_heap s h') /\
    dom h' = dom (heap s) ∖ list_to_set (an_addr <$> l).
Proof.
  induction l as [|n l IH]; intros s fuel Hch Hlv Hnd Hfuel.
  - exists (heap s). split; [destruct fuel, s; reflexivity|]. simpl. set_solver.
  - destruct Hch as [Hn Hch].
    apply Forall_cons in Hlv as [Hn1 Hlv].
    rewrite fmap_cons in Hnd. apply NoDup_cons in Hnd as [Hnot Hnd].
    simpl in Hfuel. destruct fuel as [|fuel]; [lia|].
    simpl next_at. destruct (decide (0 < an_level n)) as [_|Hc]; [|lia].
    destruct (node_ok_link _ _ _ 0 Hn ltac:(lia))
      as (nd & lk & Hndc & _ & _ & Hlk & Htg & _).
    rewrite app_nil_r in Htg.
    cbn [destructor_while].
    rewrite (bind_step _ _ _ _ _ (load_link_eq _ _ _ _ _ Hndc Hlk)).
    rewrite (bind_step _ _ _ _ _ (delete_node_eq _ _ _ Hndc)), Htg.
    destruct (IH (with_heap s (delete (an_addr n) (heap s))) fuel)
      as (h' & Hrun & Hdom); [|exact Hlv|exact Hnd|lia|].
    { eapply chain_heap; [exact Hch|]. intros m Hm. simpl.
      apply lookup_delete_ne. intros Heq. apply Hnot. rewrite Heq.
      apply list_elem_of_fmap. eauto. }
    exists h'. split; [exact Hrun|].
    rewrite Hdom. simpl. rewrite dom_delete_L. set_solver.
Qed.

(** X15. The destructor of a reachable list returns and leaves no node
    allocated: every node is deleted once, and none is read after its
    deletion. *)
Theorem destructor_frees_all fuel (s : Skip_List T) :
  reachable s -> size (heap s) <= fuel ->
  exists s', Skip_List_destructor fuel s = Ok (tt, s') /\ heap s' = ∅.
Proof.
  intros (ha & ns & Hrep)%reachable_rep Hfuel.
  rewrite (rep_size s ha ns Hrep) in Hfuel.
  pose proof (rep_level s ha ns Hrep) as Hlv.
  destruct (destructor_while_spec (sentinel s ha :: ns) s fuel)
    as (h' & Hrun & Hdom).
  - apply (rep_chain s ha ns Hrep).
  - constructor; [simpl; lia|].
    eapply Forall_impl; [apply (rep_levels s ha ns Hrep)|].
    simpl. intros n Hn. lia.
  - apply (rep_nodup s ha ns Hrep).
  - simpl. lia.
  - exists (with_heap s h'). split.
    + unfold Skip_List_destructor.
      rewrite (bind_step _ _ _ _ _ (eq_refl : get head_ s = Ok (head_ s, s))).
      rewrite (rep_head s ha ns Hrep).
      simpl next_at in Hrun.
      destruct (decide (0 < kMaxLevel_ s)) as [_|Hc]; [exact Hrun|lia].
    + simpl. apply dom_empty_iff_L.
      rewrite Hdom, (rep_dom s ha ns Hrep). set_solver.
Qed.

Lemma grown_reachable (s : Skip_List T) : grown s -> reachable s.
Proof.
  induction 1 as [k p Hk|s fuel draws key r s' _ IH Hins].
  - apply reachable_new, Hk.
  - eapply reachable_insert; eassumption.
Qed.

(** X16. As long as nothing is removed, [length()] is the number of stored
    elements (as a [size_t]). *)
Theorem length_counts_elements (s : Skip_List T) :
  grown s ->
  exists l,
    level0_elements (size (heap s)) s = Ok (l, s) /\
    length s = Ok (wrap (Z.of_nat (List.length l)), s).
Proof.
  unfold length, get.
  induction 1 as [k p Hk|s fuel draws key r s' Hg (l & Hl & Hw) Hins].
  - exists []. split; [|reflexivity].
    rewrite (rep_elements _ _ _ (rep_new k p Hk)). reflexivity.
  - destruct (reachable_rep s (grown_reachable s Hg)) as (ha & ns & Hrep).
    rewrite (rep_elements s ha ns Hrep) in Hl. injection Hl as <-.
    injection Hw as Hw.
    pose proof (spec_Ok _ _ _ _ _ _ (insert_spec fuel draws key s ha ns Hrep) Hins)
      as (pre & post & -> & _ & _ & Hcases).
    pose proof (rep_elems s ha _ Hrep) as Hel.
    destruct Hcases as [(q & post' & e & -> & _ & _ & _ & Hrep' & Hw')
                       |(nn & Hnn & _ & Hrep' & Hw' & _)].
    + exists (elems (pre ++ q :: post')).
      split; [apply (rep_elements s' ha _ Hrep')|]. congruence.
    + exists (elems (pre ++ nn :: post)).
      split; [apply (rep_elements s' ha _ Hrep')|].
      rewrite Hw', Hw. f_equal. f_equal.
      rewrite (elems_length _ (rep_elems s' ha _ Hrep')).
      rewrite (elems_length _ Hel), !length_app. simpl.
      unfold wrap. rewrite Z.add_mod_idemp_l by (unfold size_max; lia).
      f_equal. lia.
Qed.

Lemma elems_lookup (ns : list (anode T)) i :
  Forall (fun n => is_Some (an_ptr n)) ns ->
  elems ns !! i = ns !! i ≫= an_ptr.
Proof.
  intros Hel. revert i. induction Hel as [|n ns [e He] _ IH]; intros i.
  - reflexivity.
  - rewrite (elems_cons n ns e He). destruct i as [|i]; simpl; [auto|apply IH].
Qed.

(** [width_] stays in the range of [size_t]. *)
Lemma reachable_width_range (s : Skip_List T) :
  reachable s -> (0 <= width_ s < size_max)%Z.
Proof.
  induction 1 as [k p Hk|s fuel draws key r s' Hr IH Hins
                 |s fuel key r s' Hr IH Hrem].
  - simpl. unfold size_max. lia.
  - destruct (reachable_rep s Hr) as (ha & ns & Hrep).
    pose proof (spec_Ok _ _ _ _ _ _ (insert_spec fuel draws key s ha ns Hrep) Hins)
      as (pre & post & _ & _ & _ & [(q & post' & e & _ & _ & _ & _ & _ & ->)
                                   |(nn & _ & _ & _ & -> & _)]); [exact IH|].
    apply Z.mod_pos_bound. unfold size_max. lia.
  - rewrite (remove_keeps_width fuel key s r s' Hr Hrem). exact IH.
Qed.

(** On lane 0 every width is 1, so the loop of [at] counts nodes: started
    with [w] at a node followed by the nodes [B], it returns the [w]-th of
    them, or runs off the lane when there are fewer. *)
Lemma at_while_lane0 (s : Skip_List T) : forall B m fuel w,
  lane_link (heap s) m 0 (next_at 0 B) ->
  (forall nd lk, heap s !! an_addr m = Some nd -> forward_ nd !! 0 = Some lk ->
                 width lk = 1%Z) ->
  chain (heap s) B (fun _ => []) ->
  Forall (fun n => 1 <= an_level n) B ->
  (1 <= w < size_max)%Z ->
  List.length B < fuel ->
  exists r,
    at_while fuel 0 w (Some (an_addr m)) s = Ok (r, s) /\
    match B !! Z.to_nat (w - 1) with
    | Some n => r = inl (Some (an_addr n))
    | None => exists w' x', r = inr (w', x')
    end.
Proof.
  induction B as [|n B IH]; intros m fuel w Hlink Hw1 Hch Hlv Hw Hfuel.
  - destruct fuel as [|fuel]; [simpl in Hfuel; lia|].
    destruct Hlink as (nd & lk & Hnd & Hlk & Htg). simpl in Htg.
    rewrite at_while_S, (bind_step _ _ _ _ _ (load_link_eq _ _ _ _ _ Hnd Hlk)).
    rewrite Htg. simpl. eexists. split; [reflexivity|]. eauto.
  - destruct Hch as [Hn Hch]. simpl in Hfuel.
    apply Forall_cons in Hlv as [Hn1 Hlv].
    destruct fuel as [|fuel]; [lia|].
    destruct Hlink as (nd & lk & Hnd & Hlk & Htg). simpl in Htg.
    destruct (decide (0 < an_level n)) as [_|Hc]; [|lia].
    rewrite at_while_S, (bind_step _ _ _ _ _ (load_link_eq _ _ _ _ _ Hnd Hlk)).
    rewrite Htg, (Hw1 nd lk Hnd Hlk).
    rewrite bool_decide_eq_true_2 by discriminate.
    destruct (Z.leb_spec 1 w) as [_|Hc]; [|lia]. simpl.
    assert (Hwrap : wrap (w - 1) = (w - 1)%Z).
    { unfold wrap. apply Z.mod_small. lia. }
    rewrite Hwrap.
    destruct (Z.eqb_spec (w - 1) 0) as [Hz|Hz].
    + eexists. split; [reflexivity|]. rewrite Hz. reflexivity.
    + destruct (node_ok_link _ _ _ 0 Hn ltac:(lia))
        as (ndn & lkn & Hndn & _ & _ & Hlkn & Htgn & Hwn).
      rewrite app_nil_r in Htgn.
      destruct (IH n fuel (w - 1)%Z) as (r & Hr & Hpost);
        [exists ndn, lkn; auto| |exact Hch|exact Hlv|lia|lia|].
      { intros nd' lk' Hnd' Hlk'. rewrite Hndn in Hnd'. injection Hnd' as <-.
        rewrite Hlkn in Hlk'. injection Hlk' as <-. auto. }
      exists r. split; [exact Hr|].
      replace (Z.to_nat (w - 1)) with (S (Z.to_nat (w - 1 - 1))) by lia.
      exact Hpost.
Qed.

(** X17. While the list has a single level it is a sorted linked list, and
    [at(index)] is positional access into the level-0 order: it returns
    the node of the element at position [index], and [nullptr] when the
    index is not below the number of elements. *)
Theorem at_single_level fuel (index : Z) (s : Skip_List T) l :
  reachable s -> level_ s = 1 -> size (heap s) <= fuel ->
  level0_elements (size (heap s)) s = Ok (l, s) ->
  (0 <= index < width_ s)%Z ->
  exists r,
    at_ fuel index s = Ok (r, s) /\
    match l !! Z.to_nat index with
    | Some e => load_elem r s = Ok (e, s)
    | None => r = None
    end.
Proof.
  intros Hreach Hl1 Hfuel Hl Hidx.
  pose proof (reachable_width_range s Hreach) as Hwr.
  destruct (reachable_rep s Hreach) as (ha & ns & Hrep).
  rewrite (rep_elements s ha ns Hrep) in Hl. injection Hl as <-.
  rewrite (rep_size s ha ns Hrep) in Hfuel.
  unfold at_.
  rewrite (bind_step _ _ _ _ _ (eq_refl : get width_ s = Ok (width_ s, s))).
  destruct (Z.geb_spec index (width_ s)) as [Hc|_]; [lia|].
  rewrite (bind_step _ _ _ _ _ (eq_refl : get head_ s = Ok (head_ s, s))).
  rewrite (bind_step _ _ _ _ _ (eq_refl : get level_ s = Ok (level_ s, s))).
  rewrite (rep_head s ha ns Hrep), Hl1.
  assert (Hwrap : wrap (index + 1) = (index + 1)%Z).
  { unfold wrap. apply Z.mod_small. lia. }
  rewrite Hwrap.
  pose proof (rep_chain s ha ns Hrep) as [Hhd Hch].
  pose proof (rep_level s ha ns Hrep) as Hlv.
  destruct (node_ok_link _ _ _ 0 Hhd ltac:(simpl; lia))
    as (nd & lk & Hnd & _ & _ & Hlk & Htg & Hw).
  rewrite app_nil_r in Htg.
  destruct (at_while_lane0 s ns (sentinel s ha) fuel (index + 1)%Z)
    as (r & Hr & Hpost);
    [exists nd, lk; auto| |exact Hch| |lia|lia|].
  { intros nd' lk' Hnd' Hlk'. simpl in Hnd, Hnd'. rewrite Hnd in Hnd'.
    injection Hnd' as <-. rewrite Hlk in Hlk'. injection Hlk' as <-. auto. }
  { eapply Forall_impl; [apply (rep_levels s ha ns Hrep)|].
    simpl. intros n Hn. lia. }
  simpl in Hr. cbn [at_for].
  rewrite (bind_step _ _ _ _ _ Hr).
  replace (Z.to_nat (index + 1 - 1)) with (Z.to_nat index) in Hpost by lia.
  rewrite (elems_lookup ns _ (rep_elems s ha ns Hrep)).
  destruct (ns !! Z.to_nat index) as [n|] eqn:Hn; simpl.
  - subst r. eexists. split; [reflexivity|].
    pose proof (rep_elems s ha ns Hrep) as Hel.
    rewrite Forall_forall in Hel.
    destruct (Hel n (list_elem_of_lookup_2 _ _ _ Hn)) as [e He].
    rewrite He. eapply rep_load_elem; eauto.
    eapply list_elem_of_lookup_2, Hn.
  - destruct Hpost as (w' & x' & ->). eexists. split; reflexivity.
Qed.

(** The loop of [RandomLevel] stops at the first draw that is not below
    [p], or when the level reaches the cap. *)
Lemma RandomLevel_while_run (p : Q) (cap : Z) (draws : nat -> Q) :
  forall (n k level : nat),
    (cap <= Z.of_nat (n + level))%Z ->
    let lv := RandomLevel_while n p cap draws k level in
    level <= lv /\
    (forall i, i < lv - level -> float_lt (draws (k + i)) p = true) /\
    ((Z.of_nat lv < cap)%Z -> float_lt (draws (k + (lv - level))) p = false) /\
    ((Z.of_nat lv <= Z.max (Z.of_nat level) cap)%Z).
Proof.
  intros n. induction n as [|n IH]; intros k level Hcap; simpl.
  - split; [lia|]. split; [intros i Hi; lia|]. split; lia.
  - destruct (float_lt (draws k) p) eqn:Hd; simpl.
    + destruct (Z.ltb_spec (Z.of_nat level) cap) as [Hlt|Hge].
      * destruct (IH (S k) (S level) ltac:(lia)) as (H1 & H2 & H3 & H4).
        split; [lia|]. split; [|split].
        -- intros i Hi. destruct i as [|i].
           ++ rewrite Nat.add_0_r. exact Hd.
           ++ replace (k + S i) with (S k + i) by lia. apply H2. lia.
        -- intros Hlv.
           replace (k + (RandomLevel_while n p cap draws (S k) (S level) - level))
             with (S k + (RandomLevel_while n p cap draws (S k) (S level) - S level))
             by lia.
           apply H3, Hlv.
        -- lia.
      * split; [lia|]. split; [intros i Hi; lia|]. split; lia.
    + split; [lia|]. split; [intros i Hi; lia|].
      split; [|lia]. intros _. rewrite Nat.sub_diag, Nat.add_0_r. exact Hd.
Qed.

(** When the loop of [at] returns a node, it is the target of a link it
    has just read. *)
Lemma at_while_inl : forall fuel j (w : Z) x (s : Skip_List T) y s',
  at_while fuel j w x s = Ok (inl y, s') ->
  exists a nd lk b,
    heap s !! a = Some nd /\ forward_ nd !! j = Some lk /\
    node lk = Some b /\ y = Some b.
Proof.
  induction fuel as [|fuel IH]; intros j w x s y s' Hrun; [discriminate|].
  rewrite at_while_S in Hrun.
  apply bind_Ok in Hrun as (lk & s1 & Hlk & Hrun).
  apply load_link_Ok in Hlk as (a & nd & -> & Hnd & Hlk & ->).
  destruct (bool_decide (node lk <> None) && (width lk <=? w)%Z) eqn:Hc;
    [|discriminate].
  apply andb_prop in Hc as [Hne%bool_decide_eq_true _].
  destruct (wrap (w - width lk) =? 0)%Z.
  - injection Hrun as <- _.
    destruct (node lk) as [b|] eqn:Hb; [|contradiction].
    exists a, nd, lk, b. auto.
  - eapply IH, Hrun.
Qed.

Lemma at_for_Some fuel : forall i (w : Z) x (s : Skip_List T) b s',
  at_for fuel i w x s = Ok (Some b, s') ->
  exists j a nd lk,
    heap s !! a = Some nd /\ forward_ nd !! j = Some lk /\ node lk = Some b.
Proof.
  induction i as [|i IH]; intros w x s b s' Hrun; [discriminate|].
  cbn [at_for] in Hrun.
  apply bind_Ok in Hrun as (r & s1 & Hr & Hrun).
  pose proof (read_only_at_while fuel i w x s r s1 Hr) as ->.
  destruct r as [y|[w' x']].
  - injection Hrun as -> _.
    apply at_while_inl in Hr as (a & nd & lk & b' & Hnd & Hlk & Hb & [= ->]).
    eauto 10.
  - eapply IH, Hrun.
Qed.

(** X18. Whatever the widths are, a node returned by [at] is an allocated node
    of the list that holds one of its elements (never the sentinel or a
    dangling pointer), so [*(skip[i]->ptr_)] is safe when [skip[i]] is
    not [nullptr]. *)
Theorem at_returns_element_node fuel (index : Z) (s : Skip_List T) l b s' :
  reachable s ->
  level0_elements (size (heap s)) s = Ok (l, s) ->
  at_ fuel index s = Ok (Some b, s') ->
  exists e, load_elem (Some b) s = Ok (e, s) /\ e ∈ l.
Proof.
  intros (ha & ns & Hrep)%reachable_rep Hl Hat.
  rewrite (rep_elements s ha ns Hrep) in Hl. injection Hl as <-.
  unfold at_ in Hat.
  apply bind_Ok in Hat as (n & s0 & Hg & Hat). injection Hg as <- <-.
  destruct (index >=? width_ s)%Z; [discriminate|].
  apply bind_Ok in Hat as (x & s0 & Hg & Hat). injection Hg as <- <-.
  apply bind_Ok in Hat as (lv & s0 & Hg & Hat). injection Hg as <- <-.
  apply at_for_Some in Hat as (j & a & nd & lk & Hnd & Hlk & Hb).
  destruct (rep_cell s ha ns a nd Hrep Hnd)
    as (l1 & m & l2 & f & Hsplit & Ha & -> & Hlen & Hfl).
  simpl in Hlk. destruct (Hfl j lk Hlk) as [Htg _]. rewrite Hb in Htg.
  symmetry in Htg.
  apply next_at_some in Htg as (l3 & q & l4 & -> & Hq & _ & _).
  assert (Hqns : q ∈ ns).
  { destruct l1 as [|x0 l1]; simpl in Hsplit.
    - injection Hsplit as _ ->. set_solver.
    - injection Hsplit as _ ->. set_solver. }
  pose proof (rep_elems s ha ns Hrep) as Hel.
  rewrite Forall_forall in Hel. destruct (Hel q Hqns) as [e He].
  exists e. rewrite <- Hq. split.
  - eapply rep_load_elem; eauto.
  - unfold elems. apply list_elem_of_omap. eauto.
Qed.

(** X19. [RandomLevel] is one more than the number of leading draws below
    [p_], capped at [kMaxLevel_ - 1] (and at least 1). *)
Theorem RandomLevel_geometric draws (s : Skip_List T) :
  0 < kMaxLevel_ s -> (Z.of_nat (kMaxLevel_ s) < size_max)%Z ->
  exists lv,
    RandomLevel draws s = Ok (lv, s) /\
    1 <= lv <= Nat.max 1 (kMaxLevel_ s - 1) /\
    (forall k, k < lv - 1 -> float_lt (draws k) (p_ s) = true) /\
    (lv < kMaxLevel_ s - 1 -> float_lt (draws (lv - 1)) (p_ s) = false).
Proof.
  intros Hk Hmax.
  exists (RandomLevel_while (Z.to_nat (wrap (Z.of_nat (kMaxLevel_ s) - 1))) (p_ s)
            (wrap (Z.of_nat (kMaxLevel_ s) - 1)) draws 0 1).
  split; [reflexivity|].
  assert (Hcap : wrap (Z.of_nat (kMaxLevel_ s) - 1) = (Z.of_nat (kMaxLevel_ s) - 1)%Z).
  { unfold wrap. apply Z.mod_small. lia. }
  rewrite Hcap.
  destruct (RandomLevel_while_run (p_ s) (Z.of_nat (kMaxLevel_ s) - 1) draws
              (Z.to_nat (Z.of_nat (kMaxLevel_ s) - 1)) 0 1 ltac:(lia))
    as (H1 & H2 & H3 & H4).
  split; [lia|]. split.
  - intros k Hlt. apply (H2 k Hlt).
  - intros Hlt. apply H3. lia.
Qed.
End Elements.

(** ** What the member functions write *)

Section Frame_Lemmas.
Context {T : Type} `{Element T}.

Lemma heap_only_ret {A} (a : A) : heap_only (ret a : M T A).
Proof. intros s b s' [= _ <-]. destruct s; reflexivity. Qed.

Lemma heap_only_read_only {A} (m : M T A) : read_only m -> heap_only m.
Proof. intros Hm s a s' Hr. rewrite (Hm s a s' Hr). destruct s; reflexivity. Qed.

Lemma heap_only_bind {A B} (m : M T A) (k : A -> M T B) :
  heap_only m -> (forall a, heap_only (k a)) -> heap_only (x <- m ;; k x).
Proof.
  intros Hm Hk s b s' (a & s1 & H1 & H2)%bind_Ok.
  rewrite (Hk a s1 b s' H2), (Hm s a s1 H1). reflexivity.
Qed.

Lemma read_only_undefined {A} : read_only (undefined : M T A).
Proof. intros s a s' [=]. Qed.

Lemma read_only_load_node x : read_only (load_node x : M T (Skip_Node T)).
Proof. intros s n s' (a & _ & _ & ->)%load_node_Ok. reflexivity. Qed.

Lemma read_only_arr_get {A} (a : list A) i : read_only (arr_get a i : M T A).
Proof.
  unfold arr_get. destruct (a !! i); [apply read_only_ret|apply read_only_undefined].
Qed.

Lemma read_only_arr_set {A} (a : list A) i v :
  read_only (arr_set a i v : M T (list A)).
Proof.
  unfold arr_set. destruct (decide _); [apply read_only_ret|apply read_only_undefined].
Qed.

Lemma heap_only_set_heap h : heap_only (set_heap h : M T unit).
Proof. intros s a s' [= _ <-]. reflexivity. Qed.

Lemma heap_only_store_link x i l : heap_only (store_link x i l : M T unit).
Proof.
  unfold store_link. apply heap_only_bind.
  - apply heap_only_read_only, read_only_load_node.
  - intros n. destruct x as [a|]; [|apply heap_only_read_only, read_only_undefined].
    destruct (decide _); [|apply heap_only_read_only, read_only_undefined].
    apply heap_only_bind; [apply heap_only_read_only, read_only_get|].
    intros h. apply heap_only_set_heap.
Qed.

Lemma heap_only_store_width x i w : heap_only (store_width x i w : M T unit).
Proof.
  unfold store_width. apply heap_only_bind.
  - apply heap_only_read_only, read_only_load_link.
  - intros l. apply heap_only_store_link.
Qed.

Lemma heap_only_store_node x i y : heap_only (store_node x i y : M T unit).
Proof.
  unfold store_node. apply heap_only_bind.
  - apply heap_only_read_only, read_only_load_link.
  - intros l. apply heap_only_store_link.
Qed.

Lemma heap_only_CreateNode (p : option T) level :
  heap_only (CreateNode p level).
Proof.
  unfold CreateNode. apply heap_only_bind.
  - apply heap_only_read_only, read_only_get.
  - intros h. apply heap_only_bind; [apply heap_only_set_heap|].
    intros _. apply heap_only_ret.
Qed.

Lemma heap_only_delete_node x : heap_only (delete_node x : M T unit).
Proof.
  unfold delete_node. destruct x as [a|]; [|apply heap_only_ret].
  apply heap_only_bind; [apply heap_only_read_only, read_only_load_node|].
  intros _. apply heap_only_bind; [apply heap_only_read_only, read_only_get|].
  intros h. apply heap_only_set_heap.
Qed.

Lemma read_only_find_while fuel j (key : T) :
  forall x, read_only (find_while fuel j key x).
Proof.
  induction fuel as [|fuel IH]; intros x; simpl.
  - intros s a s' [=].
  - apply read_only_bind; [apply read_only_load_link|].
    intros l. destruct (node l); [|apply read_only_ret].
    apply read_only_bind; [apply read_only_load_elem|].
    intros e. destruct (elt_lt e key); [apply IH|apply read_only_ret].
Qed.

Lemma read_only_find_for fuel (key : T) :
  forall i x, read_only (find_for fuel i key x).
Proof.
  induction i as [|i IH]; intros x; simpl.
  - apply read_only_ret.
  - apply read_only_bind; [apply read_only_find_while|]. intros x'. apply IH.
Qed.

Lemma read_only_insert_while fuel j (key : T) :
  forall x w, read_only (insert_while fuel j key x w).
Proof.
  induction fuel as [|fuel IH]; intros x w; simpl.
  - intros s a s' [=].
  - apply read_only_bind; [apply read_only_load_link|].
    intros l. destruct (node l); [|apply read_only_ret].
    apply read_only_bind; [apply read_only_load_elem|].
    intros e. destruct (elt_lt e key); [apply IH|apply read_only_ret].
Qed.

Lemma read_only_insert_for fuel (key : T) :
  forall i x update update_width,
    read_only (insert_for fuel i key x update update_width).
Proof.
  induction i as [|i IH]; intros x update update_width; simpl.
  - apply read_only_ret.
  - apply read_only_bind; [apply read_only_insert_while|]. intros r.
    apply read_only_bind; [apply read_only_arr_set|]. intros u.
    apply read_only_bind; [apply read_only_arr_set|]. intros uw.
    apply IH.
Qed.

Lemma read_only_remove_for fuel (key : T) :
  forall i x update, read_only (remove_for fuel i key x update).
Proof.
  induction i as [|i IH]; intros x update; simpl.
  - apply read_only_ret.
  - apply read_only_bind; [apply read_only_find_while|]. intros x'.
    apply read_only_bind; [apply read_only_arr_set|]. intros u.
    apply IH.
Qed.

Lemma heap_only_raise_for : forall n i update,
  heap_only (raise_for (T:=T) n i update).
Proof.
  induction n as [|n IH]; intros i update; simpl.
  - apply heap_only_ret.
  - apply heap_only_bind; [apply heap_only_read_only, read_only_get|]. intros h.
    apply heap_only_bind; [apply heap_only_read_only, read_only_arr_set|].
    intros u. apply heap_only_bind; [apply heap_only_store_width|].
    intros _. apply IH.
Qed.

Lemma heap_only_splice_for : forall n i new_node update update_width,
  heap_only (splice_for (T:=T) n i new_node update update_width).
Proof.
  induction n as [|n IH]; intros i new_node update update_width; simpl.
  - apply heap_only_ret.
  - apply heap_only_bind; [apply heap_only_read_only, read_only_arr_get|]. intros u.
    apply heap_only_bind; [apply heap_only_read_only, read_only_load_link|].
    intros lu. apply heap_only_bind; [apply heap_only_store_node|].
    intros _. apply heap_only_bind; [apply heap_only_store_node|].
    intros _. apply heap_only_bind; [|intros _; apply IH].
    destruct (decide (0 < i)); [|apply heap_only_ret].
    apply heap_only_bind; [apply heap_only_read_only, read_only_arr_get|]. intros uw.
    apply heap_only_bind; [apply heap_only_read_only, read_only_arr_get|]. intros u1.
    apply heap_only_bind; [apply heap_only_read_only, read_only_load_link|]. intros l1.
    apply heap_only_bind; [apply heap_only_read_only, read_only_load_link|]. intros lu'.
    apply heap_only_bind; [|intros _; apply heap_only_store_width].
    destruct (0 <? width lu')%Z; apply heap_only_store_width.
Qed.

Lemma heap_only_unlink_for : forall n i x update,
  heap_only (unlink_for (T:=T) n i x update).
Proof.
  induction n as [|n IH]; intros i x update; simpl.
  - apply heap_only_ret.
  - apply heap_only_bind; [apply heap_only_read_only, read_only_arr_get|]. intros u.
    apply heap_only_bind; [apply heap_only_read_only, read_only_load_link|].
    intros lu. apply heap_only_bind; [|intros _; apply IH].
    destruct (decide (node lu <> x)); [apply heap_only_store_width|].
    apply heap_only_bind; [apply heap_only_read_only, read_only_load_link|]. intros lx.
    apply heap_only_bind; [apply heap_only_store_node|]. intros _.
    apply heap_only_bind; [apply heap_only_store_node|]. intros _.
    apply heap_only_bind; [apply heap_only_read_only, read_only_load_link|]. intros lx'.
    destruct (0 <? width lx')%Z; [|apply heap_only_store_width].
    apply heap_only_bind; [apply heap_only_read_only, read_only_load_link|]. intros lu'.
    apply heap_only_store_width.
Qed.

(** X20. [find] writes nothing, whatever state it is called in. *)
Theorem find_read_only fuel (key : T) (s : Skip_List T) r s' :
  find fuel key s = Ok (r, s') -> s' = s.
Proof.
  revert s r s'. change (read_only (find fuel key)). unfold find.
  apply read_only_bind; [apply read_only_get|]. intros h.
  apply read_only_bind; [apply read_only_get|]. intros lv.
  apply read_only_bind; [apply read_only_find_for|]. intros x.
  apply read_only_bind; [apply read_only_load_link|]. intros l.
  apply read_only_bind; [apply read_only_load_elem|]. intros e.
  destruct (elt_eq e key); apply read_only_ret.
Qed.
End Frame_Lemmas.

Section Frame_Calls.
Context {T : Type} `{Element T}.

Lemma read_only_RandomLevel draws : read_only (RandomLevel (T:=T) draws).
Proof.
  unfold RandomLevel.
  apply read_only_bind; [apply read_only_get|]. intros p.
  apply read_only_bind; [apply read_only_get|]. intros kmax.
  apply read_only_ret.
Qed.

(** The list object after a returning [insert]. *)
Lemma insert_state fuel draws (key : T) (s : Skip_List T) r s' :
  insert fuel draws key s = Ok (r, s') ->
  exists lv w,
    RandomLevel draws s = Ok (lv, s) /\
    s' = mkList (kMaxLevel_ s) (p_ s) (Nat.max (level_ s) lv) w (head_ s)
           (heap s') /\
    (w = width_ s \/ w = wrap (width_ s + 1)).
Proof.
  unfold insert. intros Hins.
  apply bind_Ok in Hins as (kmax & s0 & Hg & Hins). injection Hg as <- <-.
  apply bind_Ok in Hins as (x0 & s0 & Hg & Hins). injection Hg as <- <-.
  apply bind_Ok in Hins as (lv0 & s0 & Hg & Hins). injection Hg as <- <-.
  apply bind_Ok in Hins as ([[x update] uw] & s1 & Hfor & Hins).
  apply read_only_insert_for in Hfor as ->.
  apply bind_Ok in Hins as (level & s1 & Hrl & Hins).
  pose proof (read_only_RandomLevel draws s level s1 Hrl) as ->.
  exists level.
  apply bind_Ok in Hins as (lv1 & s0 & Hg & Hins). injection Hg as <- <-.
  apply bind_Ok in Hins as (update' & s2 & Hraise & Hins).
  assert (Hs2 : s2 = mkList (kMaxLevel_ s) (p_ s) (Nat.max (level_ s) level)
                       (width_ s) (head_ s) (heap s2)).
  { destruct (decide (level_ s < level)) as [Hlt|Hge].
    - apply bind_Ok in Hraise as (u & s3 & Hrf & Hrest).
      apply heap_only_raise_for in Hrf.
      apply bind_Ok in Hrest as ([] & s4 & Hset & Hret).
      injection Hset as <-. injection Hret as _ <-. rewrite Hrf. simpl.
      f_equal. lia.
    - injection Hraise as _ <-. destruct s; simpl in *. f_equal. lia. }
  apply bind_Ok in Hins as (l & s3 & Hl & Hins).
  apply read_only_load_link in Hl as ->.
  apply bind_Ok in Hins as (dup & s3 & Hdup & Hins).
  assert (s3 = s2) as ->.
  { destruct (node l).
    - apply bind_Ok in Hdup as (e & s4 & He & Hret).
      apply read_only_load_elem in He as ->. injection Hret as _ <-. reflexivity.
    - injection Hdup as _ <-. reflexivity. }
  destruct dup.
  - injection Hins as _ <-. exists (width_ s).
    split; [exact Hrl|]. split; [exact Hs2|]. left. reflexivity.
  - apply bind_Ok in Hins as (new_node & s4 & Hnew & Hins).
    apply heap_only_CreateNode in Hnew.
    apply bind_Ok in Hins as ([] & s5 & Hsp & Hins).
    apply heap_only_splice_for in Hsp.
    apply bind_Ok in Hins as (w & s0 & Hg & Hins). injection Hg as <- <-.
    apply bind_Ok in Hins as ([] & s6 & Hset & Hret).
    injection Hset as <-. injection Hret as _ <-.
    exists (wrap (width_ s + 1)). split; [exact Hrl|].
    split; [|right; reflexivity].
    rewrite Hsp, Hnew, Hs2. reflexivity.
Qed.

(** The loop that lowers [level_] stops at level 1 or at a lane on which
    the sentinel has a successor. *)
Lemma lower_while_state : forall k (s : Skip_List T) r s',
  lower_while k s = Ok (r, s') ->
  exists l,
    s' = with_level s l /\ l <= level_ s /\
    (level_ s <= k ->
     l <= 1 \/
     exists a nd lk b,
       head_ s = Some a /\ heap s !! a = Some nd /\
       forward_ nd !! (l - 1) = Some lk /\ node lk = Some b).
Proof.
  induction k as [|k IH]; intros s r s' Hrun.
  - injection Hrun as _ <-. exists (level_ s).
    split; [destruct s; reflexivity|]. split; [lia|]. intros Hk. left. lia.
  - cbn [lower_while] in Hrun.
    apply bind_Ok in Hrun as (lv & s0 & Hg & Hrun). injection Hg as <- <-.
    assert (Hstay : s' = s -> level_ s <= 1 ->
              exists l, s' = with_level s l /\ l <= level_ s /\
                (level_ s <= S k -> l <= 1 \/
                 exists a nd lk b, head_ s = Some a /\ heap s !! a = Some nd /\
                   forward_ nd !! (l - 1) = Some lk /\ node lk = Some b)).
    { intros -> Hl. exists (level_ s).
      split; [destruct s; reflexivity|]. split; [lia|]. intros _. left. exact Hl. }
    destruct (decide (1 < level_ s)) as [Hl|Hl].
    + apply bind_Ok in Hrun as (h & s0 & Hg & Hrun). injection Hg as <- <-.
      apply bind_Ok in Hrun as (lk & s1 & Hlk & Hrun).
      apply load_link_Ok in Hlk as (a & nd & Hhd & Hnd & Hlk & ->).
      destruct (node lk) as [b|] eqn:Hb.
      * injection Hrun as _ <-. exists (level_ s).
        split; [destruct s; reflexivity|]. split; [lia|]. intros _. right.
        exists a, nd, lk, b. auto.
      * apply bind_Ok in Hrun as ([] & s1 & Hset & Hrun).
        injection Hset as <-.
        apply IH in Hrun as (l & -> & Hle & Htop). simpl in Hle, Htop.
        exists l. split; [reflexivity|]. split; [lia|].
        intros Hk. apply Htop. lia.
    + injection Hrun as _ <-. apply Hstay; [reflexivity|lia].
Qed.

(** The list object after a returning [remove]. *)
Lemma remove_state fuel (key : T) (s : Skip_List T) r s' :
  remove fuel key s = Ok (r, s') ->
  (r = None /\ s' = s) \/
  exists l,
    s' = mkList (kMaxLevel_ s) (p_ s) l (width_ s) (head_ s) (heap s') /\
    l <= level_ s /\
    (l <= 1 \/
     exists a nd lk b,
       head_ s = Some a /\ heap s' !! a = Some nd /\
       forward_ nd !! (l - 1) = Some lk /\ node lk = Some b).
Proof.
  unfold remove. intros Hrem.
  apply bind_Ok in Hrem as (lv & s0 & Hg & Hrem). injection Hg as <- <-.
  apply bind_Ok in Hrem as (x0 & s0 & Hg & Hrem). injection Hg as <- <-.
  apply bind_Ok in Hrem as ([x update] & s1 & Hfor & Hrem).
  apply read_only_remove_for in Hfor as ->.
  apply bind_Ok in Hrem as (l & s1 & Hl & Hrem).
  apply read_only_load_link in Hl as ->.
  apply bind_Ok in Hrem as (e & s1 & He & Hrem).
  apply read_only_load_elem in He as ->.
  destruct (negb (elt_eq e key)).
  { injection Hrem as <- <-. left. auto. }
  right.
  apply bind_Ok in Hrem as (lv & s0 & Hg & Hrem). injection Hg as <- <-.
  apply bind_Ok in Hrem as ([] & s1 & Hun & Hrem).
  apply heap_only_unlink_for in Hun.
  apply bind_Ok in Hrem as (n & s2 & Hn & Hrem).
  apply read_only_load_node in Hn as ->.
  apply bind_Ok in Hrem as ([] & s2 & Hdel & Hrem).
  apply heap_only_delete_node in Hdel.
  apply bind_Ok in Hrem as (lv & s0 & Hg & Hrem). injection Hg as <- <-.
  apply bind_Ok in Hrem as ([] & s3 & Hlow & Hret).
  injection Hret as _ <-.
  apply lower_while_state in Hlow as (l' & -> & Hle & Htop).
  rewrite Hdel, Hun in Hle, Htop |- *. simpl in Hle, Htop |- *.
  exists l'. split; [reflexivity|]. split; [exact Hle|].
  apply Htop. lia.
Qed.

(** X21. In any state, a returning [insert] keeps [kMaxLevel_], [p_] and
    [head_], sets [level_] to the larger of its value and the level drawn
    by [RandomLevel] (it never lowers it), and leaves [width_] or
    increments it. *)
Theorem insert_frame fuel draws (key : T) (s : Skip_List T) r s' :
  insert fuel draws key s = Ok (r, s') ->
  kMaxLevel_ s' = kMaxLevel_ s /\ p_ s' = p_ s /\ head_ s' = head_ s /\
  (exists lv, RandomLevel draws s = Ok (lv, s) /\
              level_ s' = Nat.max (level_ s) lv) /\
  (width_ s' = width_ s \/ width_ s' = wrap (width_ s + 1)).
Proof.
  intros (lv & w & Hrl & -> & Hw)%insert_state. simpl. eauto 10.
Qed.

(** X22. In any state, a returning [remove] keeps [kMaxLevel_], [p_], [head_]
    and [width_], and never raises [level_]. *)
Theorem remove_frame fuel (key : T) (s : Skip_List T) r s' :
  remove fuel key s = Ok (r, s') ->
  kMaxLevel_ s' = kMaxLevel_ s /\ p_ s' = p_ s /\ head_ s' = head_ s /\
  width_ s' = width_ s /\ level_ s' <= level_ s.
Proof.
  intros [(-> & ->)|(l & Hs' & Hle & _)]%remove_state.
  - repeat (split; [reflexivity|]). lia.
  - rewrite Hs'. simpl. repeat (split; [reflexivity|]). exact Hle.
Qed.
End Frame_Calls.

Section Levels_Of_Reachable.
Context {T : Type} `{ElementLaws T}.

(** X23. A successful [remove] leaves no empty lane on top: afterwards
    [level_] is 1, or the sentinel has a successor on lane
    [level_ - 1]. *)
Theorem remove_trims_levels fuel (key : T) (s : Skip_List T) e s' :
  reachable s -> remove fuel key s = Ok (Some e, s') ->
  level_ s' = 1 \/
  exists a nd lk b,
    head_ s' = Some a /\ heap s' !! a = Some nd /\
    forward_ nd !! (level_ s' - 1) = Some lk /\ node lk = Some b.
Proof.
  intros Hreach Hrem.
  assert (Hreach' : reachable s') by (eapply reachable_remove; eassumption).
  destruct (reachable_rep s' Hreach') as (ha & ns & Hrep').
  pose proof (rep_level s' ha ns Hrep') as Hlv.
  apply remove_state in Hrem as [([=] & _)|(l & Hs' & _ & Htop)].
  rewrite Hs' in Hlv |- *. simpl in Hlv |- *.
  destruct Htop as [Hl|Htop]; [left; lia|right; exact Htop].
Qed.

(** X24. With [kMaxLevel_] at most 2, [RandomLevel] only generates level 1:
    the list never leaves level 1 and every node has exactly one link. *)
Theorem single_level_of_max_level (s : Skip_List T) :
  reachable s -> kMaxLevel_ s <= 2 ->
  level_ s = 1 /\
  forall a nd, heap s !! a = Some nd -> head_ s <> Some a ->
               List.length (forward_ nd) = 1.
Proof.
  intros Hreach Hk.
  assert (Hl : level_ s = 1).
  { induction Hreach as [k p Hk0|s fuel draws key r s' Hr IH Hins
                        |s fuel key r s' Hr IH Hrem].
    - reflexivity.
    - destruct (insert_state fuel draws key s r s' Hins)
        as (lv & w & Hrl & Hs' & _).
      rewrite Hs' in Hk |- *. simpl in Hk |- *. specialize (IH Hk).
      destruct (reachable_rep s Hr) as (ha & ns & Hrep).
      pose proof (rep_level s ha ns Hrep) as Hlev.
      destruct (RandomLevel_spec draws s ltac:(lia)) as (lv' & Hrl' & Hl1 & Hl2).
      rewrite Hrl in Hrl'. injection Hrl' as <-. lia.
    - assert (Hreach' : reachable s') by (eapply reachable_remove; eassumption).
      destruct (reachable_rep s' Hreach') as (ha & ns & Hrep').
      pose proof (rep_level s' ha ns Hrep') as Hlev.
      destruct (remove_state fuel key s r s' Hrem) as [(_ & ->)|(l & Hs' & Hle & _)];
        [exact (IH Hk)|].
      rewrite Hs' in Hk, Hlev |- *. simpl in Hk, Hlev |- *.
      specialize (IH Hk). lia. }
  split; [exact Hl|]. intros a nd Hnd Hne.
  destruct (reachable_rep s Hreach) as (ha & ns & Hrep).
  destruct (rep_cell s ha ns a nd Hrep Hnd)
    as (l1 & n & l2 & f & Hsplit & Ha & -> & Hlen & _).
  simpl. rewrite Hlen.
  destruct l1 as [|m l1]; simpl in Hsplit.
  - injection Hsplit as <- _. simpl in Ha.
    rewrite (rep_head s ha ns Hrep), Ha in Hne. contradiction.
  - injection Hsplit as _ ->.
    pose proof (rep_levels s ha _ Hrep) as Hlvs.
    rewrite Forall_forall in Hlvs.
    specialize (Hlvs n ltac:(set_solver)). lia.
Qed.
End Levels_Of_Reachable.

(** ** Construction *)

Section Construction.
Context {T : Type} `{ElementLaws T}.

(** X25. [Skip_List(0, p)] allocates a sentinel without links: [empty], [find],
    [remove], [insert] and the destructor then read [head_->forward_[0]]
    out of bounds, and only [at] (which tests the index against
    [width_ = 0] first) returns. *)
Theorem max_level_zero_undefined (p : Q) fuel draws (key : T) (index : Z) :
  let s : Skip_List T := Skip_List_new 0 p in
  empty s = Undefined /\
  find (S fuel) key s = Undefined /\
  remove (S fuel) key s = Undefined /\
  insert (S fuel) draws key s = Undefined /\
  Skip_List_destructor (S fuel) s = Undefined /\
  ((0 <= index)%Z -> at_ fuel index s = Ok (None, s)).
Proof.
  intros s. repeat (split; [reflexivity|]).
  intros Hi. unfold at_, bind, get. simpl.
  destruct (Z.geb_spec index 0) as [_|Hc]; [reflexivity|lia].
Qed.

(** X26. A list constructed with at least one level is empty: [empty()] is
    true, [length()] is 0, level 0 has no element and [at] returns
    [nullptr] for every index. *)
Theorem new_list_is_empty (max_level : nat) (p : Q) fuel (index : Z) :
  0 < max_level ->
  let s : Skip_List T := Skip_List_new max_level p in
  empty s = Ok (true, s) /\
  length s = Ok (0%Z, s) /\
  level0_elements fuel s = Ok ([], s) /\
  ((0 <= index)%Z -> at_ fuel index s = Ok (None, s)).
Proof.
  intros Hk s. destruct max_level as [|k]; [lia|].
  split; [reflexivity|]. split; [reflexivity|].
  split; [destruct fuel; reflexivity|].
  intros Hi. unfold at_, bind, get. simpl.
  destruct (Z.geb_spec index 0) as [_|Hc]; [reflexivity|lia].
Qed.

(** X27. After a [remove(key)] that returns an element, [find(key)] never
    returns a node, for an element type whose [==] is compatible with [<]:
    it returns [nullptr] exactly when an element above the key is left,
    and dereferences [nullptr] exactly when every element left is below
    the key (in particular when none is left). *)
Theorem find_after_remove fuel fuel' (key : T) (s : Skip_List T) e s' l' :
  (forall a b c : T, elt_eq a b = true -> elt_lt a c = true ->
                     elt_lt b c = true) ->
  reachable s -> remove fuel key s = Ok (Some e, s') ->
  size (heap s') <= fuel' ->
  level0_elements (size (heap s')) s' = Ok (l', s') ->
  (find fuel' key s' = Ok (None, s') <->
   Exists (fun e' => elt_lt key e' = true) l') /\
  (find fuel' key s' = Undefined <->
   Forall (fun e' => elt_lt e' key = true) l') /\
  (find fuel' key s' = Ok (None, s') \/ find fuel' key s' = Undefined).
Proof.
  intros Hcompat (ha & ns & Hrep)%reachable_rep Hrem Hfuel Hl'.
  pose proof (remove_outcome fuel key s ha ns Hrep) as Hout.
  unfold outcome in Hout. rewrite Hrem in Hout.
  destruct Hout as (pre & q & post' & e0 & -> & Hpre & He0 & Hlt0 &
                    [(_ & [=] & _)|(Heq & [= <-] & Hrep' & _)]).
  rewrite (rep_elements s' ha _ Hrep') in Hl'. injection Hl' as <-.
  rewrite (rep_size s' ha _ Hrep') in Hfuel.
  assert (Hexcl : Exists (fun e' => elt_lt key e' = true) (elems (pre ++ post')) ->
                  Forall (fun e' => elt_lt e' key = true) (elems (pre ++ post')) ->
                  False).
  { intros (e' & Hin & Habove)%Exists_exists Hall.
    rewrite Forall_forall in Hall. specialize (Hall e' Hin).
    pose proof (elt_lt_trans key e' key Habove Hall) as Hc.
    rewrite elt_lt_irrefl in Hc. discriminate. }
  assert (Hcases :
            (find fuel' key s' = Ok (None, s') /\
             Exists (fun e' => elt_lt key e' = true) (elems (pre ++ post'))) \/
            (find fuel' key s' = Undefined /\
             Forall (fun e' => elt_lt e' key = true) (elems (pre ++ post')))).
  { pose proof (find_outcome fuel' key s' ha _ Hrep') as Hf.
    unfold outcome in Hf.
    destruct (find fuel' key s') as [[r s'']| |]; [|right|lia].
    - destruct Hf as (-> & pre1 & q1 & post1 & e1 & Hsplit & Hpre1 & He1 &
                      Hlt1 & ->).
      assert (Hin1 : q1 ∈ pre ++ post') by (rewrite Hsplit; set_solver).
      assert (Hq1 : q1 ∈ post').
      { apply elem_of_app in Hin1 as [Hin|Hin]; [|exact Hin].
        rewrite Forall_forall in Hpre.
        destruct (Hpre q1 Hin) as (e' & He' & Hlt'). congruence. }
      pose proof (rep_sorted s ha _ Hrep) as Hs.
      apply StronglySorted_app in Hs as (_ & _ & Hs).
      apply StronglySorted_cons in Hs as [Hall _].
      rewrite Forall_forall in Hall. specialize (Hall q1 Hq1).
      unfold an_lt in Hall. rewrite He0, He1 in Hall.
      pose proof (Hcompat e key e1 Heq Hall) as Hk.
      left. split.
      + replace (elt_eq e1 key) with false; [reflexivity|].
        symmetry. destruct (elt_eq e1 key) eqn:Heq1; [|reflexivity].
        apply elt_eq_lt in Heq1 as [_ Hc]. congruence.
      + apply Exists_exists. exists e1. split; [|exact Hk].
        unfold elems. apply list_elem_of_omap. eauto.
    - split; [reflexivity|]. apply elems_below, Hf. }
  split; [|split].
  - split.
    + intros Hfind. destruct Hcases as [[_ Hex]|[Hund _]]; [exact Hex|].
      rewrite Hund in Hfind. discriminate.
    + intros Hex. destruct Hcases as [[Hfind _]|[_ Hall]]; [exact Hfind|].
      destruct (Hexcl Hex Hall).
  - split.
    + intros Hfind. destruct Hcases as [[Hnone _]|[_ Hall]]; [|exact Hall].
      rewrite Hnone in Hfind. discriminate.
    + intros Hall. destruct Hcases as [[_ Hex]|[Hund _]]; [|exact Hund].
      destruct (Hexcl Hex Hall).
  - destruct Hcases as [[Hfind _]|[Hund _]]; auto.
Qed.
End Construction.

(** ** Drawing the list *)

Section Centering.
Import Ascii.
Local Open Scope char_scope.

(** X28. A string shorter than the field is centred in it: [CenterString]
    returns the string between two runs of spaces that fill the field,
    the right run longer than the left one by at most 2. *)
Theorem CenterString_centers (max_size : Z) (s : list ascii) (width : Z) :
  (Z.of_nat (List.length s) < width)%Z ->
  (width <= max_size)%Z -> (width < size_max)%Z ->
  exists lpad rpad,
    CenterString max_size s width
    = Some (replicate lpad " " ++ s ++ replicate rpad " ") /\
    lpad + List.length s + rpad = Z.to_nat width /\
    lpad <= rpad <= lpad + 2.
Proof.
  intros Hlen Hmax Hsz.
  set (len := Z.of_nat (List.length s)) in *.
  assert (Hw1 : wrap (width - 1) = (width - 1)%Z).
  { unfold wrap. apply Z.mod_small. lia. }
  set (a := ((width - 1) / 2 - len / 2)%Z).
  assert (Ha : (0 <= a)%Z /\ (a + len <= width)%Z /\
               (0 <= width - a - len - a <= 2)%Z).
  { unfold a. Z.div_mod_to_equations. lia. }
  assert (Hwa : wrap a = a).
  { unfold wrap. apply Z.mod_small. lia. }
  exists (Z.to_nat a), (Z.to_nat width - (Z.to_nat a + List.length s)).
  unfold CenterString. rewrite Hw1. fold len. fold a. rewrite Hwa.
  unfold string_fill. destruct (Z.leb_spec a max_size) as [_|Hc]; [|lia]. simpl.
  unfold string_append. rewrite length_replicate.
  destruct (Z.leb_spec (Z.of_nat (Z.to_nat a + List.length s)) max_size)
    as [_|Hc]; [|lia].
  simpl. unfold string_resize.
  destruct (Z.leb_spec width max_size) as [_|Hc]; [|lia].
  split; [|lia].
  f_equal. rewrite take_ge by (rewrite length_app, length_replicate; lia).
  rewrite length_app, length_replicate, <- app_assoc. reflexivity.
Qed.

(** X29. A string that does not fit makes the padding [(width - 1) / 2 -
    s.length() / 2] wrap around in [size_t]: [CenterString] throws
    [std::length_error] (for instance for a string as long as an even
    field) instead of cutting the string. *)
Theorem CenterString_throws (max_size : Z) (s : list ascii) (width : Z) :
  (max_size < 2 ^ 63)%Z -> (Z.of_nat (List.length s) <= max_size)%Z ->
  (1 <= width < size_max)%Z ->
  ((width - 1) / 2 < Z.of_nat (List.length s) / 2)%Z ->
  CenterString max_size s width = None.
Proof.
  intros Hmax Hlen Hw Hlt.
  assert (Hw1 : wrap (width - 1) = (width - 1)%Z).
  { unfold wrap. apply Z.mod_small. lia. }
  unfold CenterString. rewrite Hw1. unfold string_fill.
  destruct (Z.leb_spec (wrap ((width - 1) / 2 - Z.of_nat (List.length s) / 2))
              max_size) as [Hc|_]; [|reflexivity].
  exfalso. unfold wrap, size_max in *.
  change (2 ^ 64)%Z with 18446744073709551616%Z in *.
  change (2 ^ 63)%Z with 9223372036854775808%Z in *.
  Z.div_mod_to_equations. lia.
Qed.
End Centering.

Section Drawing.
Import Ascii.
Local Open Scope char_scope.
Context {T : Type} `{ElementLaws T} `{Printable T}.
Variable max_size : Z.
Implicit Types (n m : anode T) (j i : nat) (out : list ascii).

Lemma labels_while_None fuel j out (s : Skip_List T) :
  labels_while max_size fuel j None out s = Ok (Some out, s).
Proof. destruct fuel; reflexivity. Qed.

Lemma arrows_while_None fuel j out (s : Skip_List T) :
  arrows_while max_size fuel j None out s = Ok (Some out, s).
Proof. destruct fuel; reflexivity. Qed.

Lemma names_while_None fuel out (s : Skip_List T) :
  names_while max_size fuel None out s = Ok (Some out, s).
Proof. destruct fuel; reflexivity. Qed.

(** One round of each loop at a node whose link is known. *)
Lemma labels_while_step fuel j a nd lk out (s : Skip_List T) :
  heap s !! a = Some nd -> forward_ nd !! j = Some lk ->
  labels_while max_size (S fuel) j (Some a) out s
  = if (0 <? width lk)%Z then
      match CenterString max_size (to_string_size (width lk))
              (wrap (width lk * 6)) with
      | Some t => labels_while max_size fuel j (node lk) (out ++ t) s
      | None => Ok (None, s)
      end
    else labels_while max_size fuel j (node lk) out s.
Proof.
  intros Hnd Hlk. cbn [labels_while].
  rewrite (bind_step _ _ _ _ _ (load_link_eq _ _ _ _ _ Hnd Hlk)).
  destruct (0 <? width lk)%Z; [|reflexivity].
  destruct (CenterString _ _ _); reflexivity.
Qed.

Lemma arrows_while_step fuel j a nd lk out (s : Skip_List T) :
  heap s !! a = Some nd -> forward_ nd !! j = Some lk ->
  arrows_while max_size (S fuel) j (Some a) out s
  = if (0 <? width lk)%Z then
      match string_fill max_size (wrap (wrap (width lk * 6) - 3)) "-" with
      | Some d =>
          arrows_while max_size fuel j (node lk) (out ++ ["o"] ++ d ++ [">"; " "]) s
      | None => Ok (None, s)
      end
    else arrows_while max_size fuel j (node lk) (out ++ ["x"; " "]) s.
Proof.
  intros Hnd Hlk. cbn [arrows_while].
  rewrite (bind_step _ _ _ _ _ (load_link_eq _ _ _ _ _ Hnd Hlk)).
  destruct (0 <? width lk)%Z; [|reflexivity].
  destruct (string_fill _ _ _); reflexivity.
Qed.

(** Whatever the widths are, the two loops of a lane walk along the lane
    and stop; they only append to the text. *)
Lemma labels_while_total (s : Skip_List T) j : forall B m fuel out,
  lane_link (heap s) m j (next_at j B) ->
  chain (heap s) B (fun _ => []) ->
  List.length B < fuel ->
  exists r,
    labels_while max_size fuel j (Some (an_addr m)) out s = Ok (r, s) /\
    (r = None \/ exists t, r = Some (out ++ t)).
Proof.
  induction B as [|n B IH]; intros m fuel out Hlink Hch Hfuel.
  - destruct fuel as [|fuel]; [simpl in Hfuel; lia|].
    destruct Hlink as (nd & lk & Hnd & Hlk & Htg). simpl in Htg.
    rewrite (labels_while_step _ _ _ _ _ _ _ Hnd Hlk), Htg.
    destruct (0 <? width lk)%Z.
    + destruct (CenterString _ _ _) as [t|].
      * rewrite labels_while_None. eauto.
      * eauto.
    + rewrite labels_while_None. eexists. split; [reflexivity|].
      right. exists []. rewrite app_nil_r. reflexivity.
  - destruct Hch as [Hn Hch]. simpl in Hfuel.
    destruct (decide (j < an_level n)) as [Hj|Hj].
    + destruct fuel as [|fuel]; [lia|].
      destruct Hlink as (nd & lk & Hnd & Hlk & Htg). simpl in Htg.
      destruct (decide (j < an_level n)); [|contradiction].
      destruct (node_ok_link _ _ _ j Hn Hj)
        as (ndn & lkn & Hndn & _ & _ & Hlkn & Htgn & _).
      rewrite app_nil_r in Htgn.
      assert (Hnext : lane_link (heap s) n j (next_at j B))
        by (exists ndn, lkn; auto).
      rewrite (labels_while_step _ _ _ _ _ _ _ Hnd Hlk), Htg.
      destruct (0 <? width lk)%Z.
      * destruct (CenterString _ _ _) as [t|]; [|eauto].
        destruct (IH n fuel (out ++ t) Hnext Hch ltac:(lia))
          as (r & Hr & [->|(t' & ->)]); [eauto|].
        eexists. split; [exact Hr|]. right. exists (t ++ t').
        rewrite app_assoc. reflexivity.
      * apply (IH n fuel out Hnext Hch). lia.
    + apply (IH m fuel out); [|exact Hch|lia].
      destruct Hlink as (nd & lk & Hnd & Hlk & Htg). simpl in Htg.
      destruct (decide (j < an_level n)); [contradiction|].
      exists nd, lk. auto.
Qed.

Lemma arrows_while_total (s : Skip_List T) j : forall B m fuel out,
  lane_link (heap s) m j (next_at j B) ->
  chain (heap s) B (fun _ => []) ->
  List.length B < fuel ->
  exists r,
    arrows_while max_size fuel j (Some (an_addr m)) out s = Ok (r, s) /\
    (r = None \/ exists t, r = Some (out ++ t)).
Proof.
  induction B as [|n B IH]; intros m fuel out Hlink Hch Hfuel.
  - destruct fuel as [|fuel]; [simpl in Hfuel; lia|].
    destruct Hlink as (nd & lk & Hnd & Hlk & Htg). simpl in Htg.
    rewrite (arrows_while_step _ _ _ _ _ _ _ Hnd Hlk), Htg.
    destruct (0 <? width lk)%Z.
    + destruct (string_fill _ _ _) as [d|].
      * rewrite arrows_while_None. eauto.
      * eauto.
    + rewrite arrows_while_None. eauto.
  - destruct Hch as [Hn Hch]. simpl in Hfuel.
    destruct (decide (j < an_level n)) as [Hj|Hj].
    + destruct fuel as [|fuel]; [lia|].
      destruct Hlink as (nd & lk & Hnd & Hlk & Htg). simpl in Htg.
      destruct (decide (j < an_level n)); [|contradiction].
      destruct (node_ok_link _ _ _ j Hn Hj)
        as (ndn & lkn & Hndn & _ & _ & Hlkn & Htgn & _).
      rewrite app_nil_r in Htgn.
      assert (Hnext : lane_link (heap s) n j (next_at j B))
        by (exists ndn, lkn; auto).
      rewrite (arrows_while_step _ _ _ _ _ _ _ Hnd Hlk), Htg.
      destruct (0 <? width lk)%Z.
      * destruct (string_fill _ _ _) as [d|]; [|eauto].
        destruct (IH n fuel (out ++ ["o"] ++ d ++ [">"; " "]) Hnext Hch ltac:(lia))
          as (r & Hr & [->|(t' & ->)]); [eauto|].
        eexists. split; [exact Hr|]. right.
        exists ((["o"] ++ d ++ [">"; " "]) ++ t').
        rewrite <- !app_assoc. reflexivity.
      * destruct (IH n fuel (out ++ ["x"; " "]) Hnext Hch ltac:(lia))
          as (r & Hr & [->|(t' & ->)]); [eauto|].
        eexists. split; [exact Hr|]. right. exists (["x"; " "] ++ t').
        rewrite <- !app_assoc. reflexivity.
    + apply (IH m fuel out); [|exact Hch|lia].
      destruct Hlink as (nd & lk & Hnd & Hlk & Htg). simpl in Htg.
      destruct (decide (j < an_level n)); [contradiction|].
      exists nd, lk. auto.
Qed.

(** The label and the arrow of a link of width 1. *)
Lemma CenterString_one :
  (6 <= max_size)%Z ->
  CenterString max_size (to_string_size 1) (wrap (1 * 6))
  = Some [" "; " "; "1"; " "; " "; " "].
Proof.
  intros Hm. unfold CenterString, string_fill, string_append, string_resize.
  change (wrap (wrap (wrap (1 * 6) - 1) / 2
                - Z.of_nat (List.length (to_string_size 1)) / 2)) with 2%Z.
  change (wrap (1 * 6)) with 6%Z.
  repeat match goal with
         | |- context [(?a <=? max_size)%Z] =>
             let E := fresh in
             assert (E : (a <=? max_size)%Z = true) by (apply Z.leb_le; simpl; lia);
             rewrite E; clear E; simpl
         end.
  reflexivity.
Qed.

Lemma arrow_one :
  (6 <= max_size)%Z ->
  string_fill max_size (wrap (wrap (1 * 6) - 3)) "-" = Some ["-"; "-"; "-"].
Proof.
  intros Hm. unfold string_fill. change (wrap (wrap (1 * 6) - 3)) with 3%Z.
  destruct (Z.leb_spec 3 max_size) as [_|Hc]; [|lia]. reflexivity.
Qed.

(** On lane 0 every width is 1: the loops draw one label and one arrow
    for the node they start at and for each node after it. *)
Lemma labels_while_lane0 (s : Skip_List T) : forall B m fuel out,
  (6 <= max_size)%Z ->
  lane_link (heap s) m 0 (next_at 0 B) ->
  (forall nd lk, heap s !! an_addr m = Some nd -> forward_ nd !! 0 = Some lk ->
                 width lk = 1%Z) ->
  chain (heap s) B (fun _ => []) ->
  Forall (fun n => 1 <= an_level n) B ->
  List.length B < fuel ->
  labels_while max_size fuel 0 (Some (an_addr m)) out s
  = Ok (Some (out ++ List.concat (replicate (S (List.length B))
                                    [" "; " "; "1"; " "; " "; " "])), s).
Proof.
  induction B as [|n B IH]; intros m fuel out Hm Hlink Hw1 Hch Hlv Hfuel.
  - destruct fuel as [|fuel]; [simpl in Hfuel; lia|].
    destruct Hlink as (nd & lk & Hnd & Hlk & Htg). simpl in Htg.
    rewrite (labels_while_step _ _ _ _ _ _ _ Hnd Hlk), Htg, (Hw1 nd lk Hnd Hlk).
    change (0 <? 1)%Z with true. cbv iota.
    rewrite (CenterString_one Hm), labels_while_None. reflexivity.
  - destruct Hch as [Hn Hch]. simpl in Hfuel.
    apply Forall_cons in Hlv as [Hn1 Hlv].
    destruct fuel as [|fuel]; [lia|].
    destruct Hlink as (nd & lk & Hnd & Hlk & Htg). simpl in Htg.
    destruct (decide (0 < an_level n)) as [_|Hc]; [|lia].
    destruct (node_ok_link _ _ _ 0 Hn ltac:(lia))
      as (ndn & lkn & Hndn & _ & _ & Hlkn & Htgn & Hwn).
    rewrite app_nil_r in Htgn.
    rewrite (labels_while_step _ _ _ _ _ _ _ Hnd Hlk), Htg, (Hw1 nd lk Hnd Hlk).
    change (0 <? 1)%Z with true. cbv iota.
    rewrite (CenterString_one Hm).
    rewrite (IH n fuel _ Hm); [| |  |exact Hch|exact Hlv|lia].
    + rewrite <- app_assoc. reflexivity.
    + exists ndn, lkn. auto.
    + intros nd' lk' Hnd' Hlk'. rewrite Hndn in Hnd'. injection Hnd' as <-.
      rewrite Hlkn in Hlk'. injection Hlk' as <-. auto.
Qed.

Lemma arrows_while_lane0 (s : Skip_List T) : forall B m fuel out,
  (6 <= max_size)%Z ->
  lane_link (heap s) m 0 (next_at 0 B) ->
  (forall nd lk, heap s !! an_addr m = Some nd -> forward_ nd !! 0 = Some lk ->
                 width lk = 1%Z) ->
  chain (heap s) B (fun _ => []) ->
  Forall (fun n => 1 <= an_level n) B ->
  List.length B < fuel ->
  arrows_while max_size fuel 0 (Some (an_addr m)) out s
  = Ok (Some (out ++ List.concat (replicate (S (List.length B))
                                    ["o"; "-"; "-"; "-"; ">"; " "])), s).
Proof.
  induction B as [|n B IH]; intros m fuel out Hm Hlink Hw1 Hch Hlv Hfuel.
  - destruct fuel as [|fuel]; [simpl in Hfuel; lia|].
    destruct Hlink as (nd & lk & Hnd & Hlk & Htg). simpl in Htg.
    rewrite (arrows_while_step _ _ _ _ _ _ _ Hnd Hlk), Htg, (Hw1 nd lk Hnd Hlk).
    change (0 <? 1)%Z with true. cbv iota.
    rewrite (arrow_one Hm), arrows_while_None. reflexivity.
  - destruct Hch as [Hn Hch]. simpl in Hfuel.
    apply Forall_cons in Hlv as [Hn1 Hlv].
    destruct fuel as [|fuel]; [lia|].
    destruct Hlink as (nd & lk & Hnd & Hlk & Htg). simpl in Htg.
    destruct (decide (0 < an_level n)) as [_|Hc]; [|lia].
    destruct (node_ok_link _ _ _ 0 Hn ltac:(lia))
      as (ndn & lkn & Hndn & _ & _ & Hlkn & Htgn & Hwn).
    rewrite app_nil_r in Htgn.
    rewrite (arrows_while_step _ _ _ _ _ _ _ Hnd Hlk), Htg, (Hw1 nd lk Hnd Hlk).
    change (0 <? 1)%Z with true. cbv iota.
    rewrite (arrow_one Hm).
    rewrite (IH n fuel _ Hm); [| |  |exact Hch|exact Hlv|lia].
    + rewrite <- app_assoc. reflexivity.
    + exists ndn, lkn. auto.
    + intros nd' lk' Hnd' Hlk'. rewrite Hndn in Hnd'. injection Hnd' as <-.
      rewrite Hlkn in Hlk'. injection Hlk' as <-. auto.
Qed.

(** The label of an element whose text has at most 6 characters. *)
Lemma node_label_elem (e : T) :
  (6 <= max_size)%Z -> List.length (to_string e) <= 6 ->
  node_label max_size (Some e)
  = Some (to_string e ++ replicate (6 - List.length (to_string e)) " ").
Proof.
  intros Hm He. unfold node_label, string_fill.
  assert (Hw : wrap (6 - Z.of_nat (List.length (to_string e)))
               = (6 - Z.of_nat (List.length (to_string e)))%Z).
  { unfold wrap, size_max. apply Z.mod_small. lia. }
  rewrite Hw.
  destruct (Z.leb_spec (6 - Z.of_nat (List.length (to_string e))) max_size)
    as [_|Hc]; [|lia].
  simpl. do 3 f_equal. lia.
Qed.

Lemma node_label_sentinel :
  (6 <= max_size)%Z ->
  node_label max_size (None : option T) = Some (replicate 6 " ").
Proof.
  intros Hm. unfold node_label, string_fill.
  destruct (Z.leb_spec 6 max_size) as [_|Hc]; [|lia]. reflexivity.
Qed.

(** The last loop walks level 0 and writes the label of every node. *)
Lemma names_while_spec (s : Skip_List T) (lab : anode T -> list ascii) :
  forall B fuel out,
    chain (heap s) B (fun _ => []) ->
    Forall (fun n => 1 <= an_level n) B ->
    Forall (fun n => node_label max_size (an_ptr n) = Some (lab n)) B ->
    List.length B <= fuel ->
    names_while max_size fuel (next_at 0 B) out s
    = Ok (Some (out ++ List.concat (List.map lab B)), s).
Proof.
  induction B as [|n B IH]; intros fuel out Hch Hlv Hlab Hfuel.
  - simpl. rewrite names_while_None, app_nil_r. reflexivity.
  - destruct Hch as [Hn Hch]. simpl in Hfuel.
    apply Forall_cons in Hlv as [Hn1 Hlv].
    apply Forall_cons in Hlab as [Hlabn Hlab].
    destruct fuel as [|fuel]; [lia|].
    simpl next_at. destruct (decide (0 < an_level n)) as [_|Hc]; [|lia].
    destruct (node_ok_link _ _ _ 0 Hn ltac:(lia))
      as (nd & lk & Hnd & Hptr & _ & Hlk & Htg & _).
    rewrite app_nil_r in Htg.
    cbn [names_while].
    rewrite (bind_step _ _ _ _ _ (load_node_eq _ _ _ Hnd)), Hptr, Hlabn.
    rewrite (bind_step _ _ _ _ _ (load_link_eq _ _ _ _ _ Hnd Hlk)), Htg.
    rewrite (IH fuel _ Hch Hlv Hlab ltac:(lia)).
    simpl. rewrite <- app_assoc. reflexivity.
Qed.

(** The rows of the lanes: the loop over the lanes returns; what it has
    written ends with the drawing of level 0, and is that drawing alone
    when it starts at lane 0. *)
Lemma DisplayList_for_spec (s : Skip_List T) ha ns fuel :
  rep s ha ns -> List.length ns < fuel -> (6 <= max_size)%Z ->
  forall i out,
    1 <= i <= kMaxLevel_ s ->
    exists r,
      DisplayList_for max_size fuel i out s = Ok (r, s) /\
      (r = None \/
       exists upper,
         r = Some (out ++ upper ++ level0_rows (List.length ns))) /\
      (i = 1 -> r = Some (out ++ level0_rows (List.length ns))).
Proof.
  intros Hrep Hfuel Hm.
  pose proof (rep_chain s ha ns Hrep) as [Hhd Hch].
  pose proof (rep_level s ha ns Hrep) as Hlevel.
  assert (Hlv1 : Forall (fun n => 1 <= an_level n) ns).
  { eapply Forall_impl; [apply (rep_levels s ha ns Hrep)|].
    simpl. intros n Hn. lia. }
  assert (Hlink : forall j, j < kMaxLevel_ s ->
            lane_link (heap s) (sentinel s ha) j (next_at j ns)).
  { intros j Hj. destruct (node_ok_link _ _ _ j Hhd ltac:(simpl; lia))
      as (nd & lk & Hnd & _ & _ & Hlk & Htg & _).
    rewrite app_nil_r in Htg. exists nd, lk. auto. }
  assert (Hw0 : forall nd lk, heap s !! an_addr (sentinel s ha) = Some nd ->
            forward_ nd !! 0 = Some lk -> width lk = 1%Z).
  { intros nd lk Hnd Hlk.
    destruct (node_ok_link _ _ _ 0 Hhd ltac:(simpl; lia))
      as (nd' & lk' & Hnd' & _ & _ & Hlk' & _ & Hw).
    rewrite Hnd in Hnd'. injection Hnd' as <-.
    rewrite Hlk in Hlk'. injection Hlk' as <-. auto. }
  induction i as [|j IH]; intros out Hi; [lia|].
  cbn [DisplayList_for].
  rewrite (bind_step _ _ _ _ _ (eq_refl : get head_ s = Ok (head_ s, s))).
  rewrite (rep_head s ha ns Hrep).
  change (Some ha) with (Some (an_addr (sentinel s ha))).
  destruct j as [|j'].
  - rewrite (bind_step _ _ _ _ _
               (labels_while_lane0 s ns _ fuel out Hm (Hlink 0 ltac:(lia))
                  Hw0 Hch Hlv1 Hfuel)).
    rewrite (bind_step _ _ _ _ _ (eq_refl : get head_ s = Ok (head_ s, s))).
    rewrite (rep_head s ha ns Hrep).
    change (Some ha) with (Some (an_addr (sentinel s ha))).
    rewrite (bind_step _ _ _ _ _
               (arrows_while_lane0 s ns _ fuel _ Hm (Hlink 0 ltac:(lia))
                  Hw0 Hch Hlv1 Hfuel)).
    eexists. split; [reflexivity|].
    split; [right; exists []|intros _]; unfold level0_rows;
      change (to_string_size (Z.of_nat 0)) with ["0"];
      rewrite <- !app_assoc; reflexivity.
  - destruct (labels_while_total s (S j') ns (sentinel s ha) fuel out
                (Hlink (S j') ltac:(lia)) Hch Hfuel) as (r1 & Hr1 & Hout1).
    rewrite (bind_step _ _ _ _ _ Hr1).
    destruct Hout1 as [->|(t1 & ->)].
    { eexists. split; [reflexivity|]. split; [auto|intros [=]]. }
    rewrite (bind_step _ _ _ _ _ (eq_refl : get head_ s = Ok (head_ s, s))).
    rewrite (rep_head s ha ns Hrep).
    change (Some ha) with (Some (an_addr (sentinel s ha))).
    destruct (arrows_while_total s (S j') ns (sentinel s ha) fuel
                ((out ++ t1) ++ endl)
                (Hlink (S j') ltac:(lia)) Hch Hfuel) as (r2 & Hr2 & Hout2).
    rewrite (bind_step _ _ _ _ _ Hr2).
    destruct Hout2 as [->|(t2 & ->)].
    { eexists. split; [reflexivity|]. split; [auto|intros [=]]. }
    destruct (IH ((((out ++ t1) ++ endl) ++ t2)
                    ++ ["L"; "e"; "v"; "e"; "l"; " "]
                    ++ to_string_size (Z.of_nat (S j')) ++ endl)
                ltac:(lia)) as (r & Hr & Hout & _).
    exists r. split; [exact Hr|]. split; [|intros [=]].
    destruct Hout as [->|(upper & ->)]; [auto|]. right.
    exists (t1 ++ endl ++ t2 ++ ["L"; "e"; "v"; "e"; "l"; " "]
               ++ to_string_size (Z.of_nat (S j')) ++ endl ++ upper).
    rewrite <- !app_assoc. reflexivity.
Qed.

(** X30. [DisplayList] on a reachable list returns without writing to the list
    object.  Unless a string operation throws on a lane above level 0, the
    text it writes ends with the drawing of level 0 (one label [1] and one
    arrow for the sentinel and for each element, also the last one) and
    the line of node labels; for a list of a single level that is the
    whole text. *)
Theorem DisplayList_draws fuel (s : Skip_List T) l :
  reachable s -> size (heap s) <= fuel ->
  level0_elements (size (heap s)) s = Ok (l, s) ->
  (6 <= max_size)%Z ->
  Forall (fun e => List.length (to_string e) <= 6) l ->
  exists r,
    DisplayList max_size fuel s = Ok (r, s) /\
    (r = None \/
     exists upper,
       r = Some (upper ++ level0_rows (List.length l) ++ node_labels l)) /\
    (level_ s = 1 ->
     r = Some (level0_rows (List.length l) ++ node_labels l)).
Proof.
  intros (ha & ns & Hrep)%reachable_rep Hfuel Hl Hm Hfit.
  rewrite (rep_elements s ha ns Hrep) in Hl. injection Hl as <-.
  rewrite (rep_size s ha ns Hrep) in Hfuel.
  pose proof (rep_level s ha ns Hrep) as Hlevel.
  pose proof (rep_elems s ha ns Hrep) as Hel.
  rewrite (elems_length ns Hel).
  set (lab := fun n : anode T =>
         match an_ptr n with
         | Some e => to_string e ++ replicate (6 - List.length (to_string e)) " "
         | None => replicate 6 " "
         end).
  assert (Hnames : forall out,
            names_while max_size fuel (Some ha) out s
            = Ok (Some (out ++ node_labels (elems ns)), s)).
  { intros out.
    pose proof (names_while_spec s lab (sentinel s ha :: ns) fuel out
                  (rep_chain s ha ns Hrep)) as Hn.
    simpl next_at in Hn.
    destruct (decide (0 < kMaxLevel_ s)) as [_|Hc]; [|lia].
    rewrite Hn; [| | |simpl; lia].
    - assert (Hmap : List.concat (List.map lab ns)
                     = List.concat
                         (List.map
                            (fun e => to_string e
                               ++ replicate (6 - List.length (to_string e)) " ")
                            (elems ns))).
      { clear -Hel. induction Hel as [|n ns [e He] _ IH]; [reflexivity|].
        rewrite (elems_cons n ns e He). cbn [List.map List.concat].
        rewrite IH. unfold lab at 1. rewrite He. reflexivity. }
      unfold node_labels. cbn [List.map List.concat]. rewrite Hmap.
      reflexivity.
    - constructor; [simpl; lia|].
      eapply Forall_impl; [apply (rep_levels s ha ns Hrep)|].
      simpl. intros n Hn'. lia.
    - constructor; [apply node_label_sentinel, Hm|].
      apply Forall_forall. intros n Hn'.
      rewrite Forall_forall in Hel. destruct (Hel n Hn') as [e He].
      unfold lab. rewrite He. apply node_label_elem; [exact Hm|].
      rewrite Forall_forall in Hfit. apply Hfit.
      unfold elems. apply list_elem_of_omap. eauto. }
  destruct (DisplayList_for_spec s ha ns fuel Hrep ltac:(lia) Hm (level_ s) []
              ltac:(lia)) as (r & Hr & Hout & Hone).
  unfold DisplayList.
  rewrite (bind_step _ _ _ _ _ (eq_refl : get level_ s = Ok (level_ s, s))).
  rewrite (bind_step _ _ _ _ _ Hr).
  destruct r as [out|].
  - rewrite (bind_step _ _ _ _ _ (eq_refl : get head_ s = Ok (head_ s, s))).
    rewrite (rep_head s ha ns Hrep), Hnames.
    eexists. split; [reflexivity|]. split.
    + right. destruct Hout as [[=]|(upper & [= ->])].
      exists upper. simpl. rewrite <- app_assoc. reflexivity.
    + intros H1'. specialize (Hone H1'). injection Hone as ->. reflexivity.
  - eexists. split; [reflexivity|]. split; [auto|].
    intros H1'. specialize (Hone H1'). discriminate.
Qed.
End Drawing.

(** ** The theorems at concrete lists *)

Lemma reachable_list_1_2_3 : reachable list_1_2_3.
Proof.
  eapply reachable_insert with (s := list_1_3) (fuel := 4)
    (draws := grow_never) (key := 2%Z); [exact reachable_list_1_3|].
  vm_compute; reflexivity.
Defined.

Lemma reachable_list_1 : reachable list_1.
Proof.
  eapply reachable_remove with (s := list_1_3) (fuel := 4) (key := 3%Z);
    [exact reachable_list_1_3|].
  vm_compute; reflexivity.
Defined.

Lemma reachable_list_5_8 : reachable list_5_8.
Proof.
  eapply reachable_insert with (s := list_5) (fuel := 4)
    (draws := grow_never) (key := 8%Z);
    [eapply reachable_insert with (s := empty_list) (fuel := 4)
       (draws := grow_never) (key := 5%Z); [apply reachable_new; lia|]|];
    vm_compute; reflexivity.
Defined.

Lemma reachable_flat_5_8 : reachable flat_5_8.
Proof.
  eapply reachable_insert with (s := flat_5) (fuel := 4)
    (draws := grow_twice) (key := 8%Z);
    [eapply reachable_insert with (s := flat_list) (fuel := 4)
       (draws := grow_twice) (key := 5%Z); [apply reachable_new; lia|]|];
    vm_compute; reflexivity.
Defined.

Lemma grown_list_1_3 : grown list_1_3.
Proof.
  eapply grown_insert with (s := list_3) (fuel := 4)
    (draws := grow_never) (key := 1%Z);
    [eapply grown_insert with (s := empty_list) (fuel := 4)
       (draws := grow_once) (key := 3%Z); [apply grown_new; lia|]|];
    vm_compute; reflexivity.
Defined.

Lemma insert_new_key_witness :
  exists l1 l2 a,
    [1; 3]%Z = l1 ++ l2 /\
    Forall (fun e : Z => elt_lt e 2%Z = true) l1 /\
    Forall (fun e : Z => elt_lt 2%Z e = true) l2 /\
    level0_elements (size (heap list_1_2_3)) list_1_2_3
    = Ok (l1 ++ 2%Z :: l2, list_1_2_3) /\
    Some 4%positive = Some a /\ heap list_1_3 !! a = None /\
    load_elem (Some 4%positive) list_1_2_3 = Ok (2%Z, list_1_2_3) /\
    width_ list_1_2_3 = wrap (width_ list_1_3 + 1).
Proof.
  apply (insert_new_key 4 grow_never 2%Z list_1_3 [1; 3]%Z (Some 4%positive)
           list_1_2_3).
  - exact reachable_list_1_3.
  - vm_compute; reflexivity.
  - repeat constructor.
  - vm_compute; reflexivity.
Defined.

Lemma insert_stored_key_witness :
  level0_elements (size (heap list_1_3)) list_1_3 = Ok ([1; 3]%Z, list_1_3) /\
  width_ list_1_3 = width_ list_1_3 /\
  size (heap list_1_3) = size (heap list_1_3) /\
  exists e : Z, e ∈ [1; 3]%Z /\ elt_eq e 3%Z = true /\
    load_elem (Some 2%positive) list_1_3 = Ok (e, list_1_3) /\
    load_elem (Some 2%positive) list_1_3 = Ok (e, list_1_3).
Proof.
  apply (insert_stored_key 4 grow_never 3%Z list_1_3 [1; 3]%Z (Some 2%positive)
           list_1_3).
  - exact reachable_list_1_3.
  - vm_compute; reflexivity.
  - apply Exists_cons_tl, Exists_cons_hd. reflexivity.
  - vm_compute; reflexivity.
Defined.

Lemma find_result_witness :
  list_1_3 = list_1_3 /\
  ((Some 2%positive = None /\ Forall (fun e : Z => elt_eq e 3%Z = false) [1; 3]%Z) \/
   (exists e : Z, e ∈ [1; 3]%Z /\ elt_eq e 3%Z = true /\
                  load_elem (Some 2%positive) list_1_3 = Ok (e, list_1_3))).
Proof.
  apply (find_result 4 3%Z list_1_3 [1; 3]%Z (Some 2%positive) list_1_3).
  - exact reachable_list_1_3.
  - vm_compute; reflexivity.
  - vm_compute; reflexivity.
Defined.

Lemma remove_result_witness :
  (Some 3%Z = None /\ list_1 = list_1_3 /\
   Forall (fun e : Z => elt_eq e 3%Z = false) [1; 3]%Z) \/
  (exists (e : Z) l1 l2,
     Some 3%Z = Some e /\ elt_eq e 3%Z = true /\ [1; 3]%Z = l1 ++ e :: l2 /\
     Forall (fun e' : Z => elt_lt e' 3%Z = true) l1 /\
     level0_elements (size (heap list_1)) list_1 = Ok (l1 ++ l2, list_1) /\
     S (size (heap list_1)) = size (heap list_1_3) /\
     width_ list_1 = width_ list_1_3).
Proof.
  apply (remove_result 4 3%Z list_1_3 [1; 3]%Z (Some 3%Z) list_1).
  - exact reachable_list_1_3.
  - vm_compute; reflexivity.
  - vm_compute; reflexivity.
Defined.

Lemma find_remove_return_iff_witness :
  ((exists r, find 4 2%Z list_1_3 = Ok (r, list_1_3)) <->
   Exists (fun e : Z => elt_lt e 2%Z = false) [1; 3]%Z) /\
  ((exists r s', remove 4 2%Z list_1_3 = Ok (r, s')) <->
   Exists (fun e : Z => elt_lt e 2%Z = false) [1; 3]%Z) /\
  (~ Exists (fun e : Z => elt_lt e 2%Z = false) [1; 3]%Z ->
   find 4 2%Z list_1_3 = Undefined /\ remove 4 2%Z list_1_3 = Undefined).
Proof.
  apply (find_remove_return_iff 4 2%Z list_1_3 [1; 3]%Z).
  - exact reachable_list_1_3.
  - vm_compute. lia.
  - vm_compute; reflexivity.
Defined.

Lemma insert_remove_round_trip_witness :
  exists s2,
    remove 4 2%Z list_1_2_3 = Ok (Some 2%Z, s2) /\
    level0_elements (size (heap s2)) s2 = Ok ([1; 3]%Z, s2) /\
    size (heap s2) = size (heap list_1_3) /\
    width_ s2 = wrap (width_ list_1_3 + 1).
Proof.
  apply (insert_remove_round_trip 4 4 grow_never 2%Z list_1_3 [1; 3]%Z
           (Some 4%positive) list_1_2_3).
  - exact reachable_list_1_3.
  - vm_compute; reflexivity.
  - repeat constructor.
  - vm_compute; reflexivity.
  - vm_compute. lia.
Defined.

Lemma insert_keeps_nodes_witness :
  load_elem (Some 2%positive) list_1_2_3 = Ok (3%Z, list_1_2_3).
Proof.
  apply (insert_keeps_nodes 4 grow_never 2%Z list_1_3 (Some 4%positive)
           list_1_2_3 (Some 2%positive) 3%Z).
  - exact reachable_list_1_3.
  - vm_compute; reflexivity.
  - vm_compute; reflexivity.
Defined.

Lemma remove_keeps_other_nodes_witness :
  load_elem (Some 3%positive) list_1 = Ok (1%Z, list_1) \/
  (Some 3%Z = Some 1%Z /\ elt_eq 1%Z 3%Z = true /\ heap list_1 !! 3%positive = None).
Proof.
  apply (remove_keeps_other_nodes 4 3%Z list_1_3 (Some 3%Z) list_1 3%positive 1%Z).
  - exact reachable_list_1_3.
  - vm_compute; reflexivity.
  - vm_compute; reflexivity.
Defined.

Lemma heap_accounting_witness :
  exists a hd (l : list Z),
    head_ list_1_3 = Some a /\ heap list_1_3 !! a = Some hd /\ ptr_ hd = None /\
    level0_elements (size (heap list_1_3)) list_1_3 = Ok (l, list_1_3) /\
    size (heap list_1_3) = S (List.length l) /\
    forall b nd, heap list_1_3 !! b = Some nd -> b <> a ->
                 exists e, ptr_ nd = Some e /\ e ∈ l.
Proof. exact (heap_accounting list_1_3 reachable_list_1_3). Defined.

Lemma node_shapes_witness :
  List.length [mkLink 1 None; mkLink 0 None] = 2 /\
  ((head_ list_1_3 = Some 2%positive /\ Some 3%Z = None /\ 2 = kMaxLevel_ list_1_3) \/
   (head_ list_1_3 <> Some 2%positive /\ is_Some (Some 3%Z) /\
    1 <= 2 <= level_ list_1_3)).
Proof.
  apply (node_shapes list_1_3 2%positive
           (mkNode 2 (Some 3%Z) [mkLink 1 None; mkLink 0 None])).
  - exact reachable_list_1_3.
  - vm_compute; reflexivity.
Defined.

Lemma links_lead_forward_witness :
  exists nb (eb : Z),
    heap list_1_3 !! 2%positive = Some nb /\ 2%positive <> 3%positive /\
    head_ list_1_3 <> Some 2%positive /\
    0 < List.length (forward_ nb) /\ ptr_ nb = Some eb /\
    forall e, Some 1%Z = Some e -> elt_lt e eb = true.
Proof.
  apply (links_lead_forward list_1_3 3%positive
           (mkNode 1 (Some 1%Z) [mkLink 1 (Some 2%positive)]) 0
           (mkLink 1 (Some 2%positive)) 2%positive).
  - exact reachable_list_1_3.
  - vm_compute; reflexivity.
  - reflexivity.
  - reflexivity.
Defined.

Lemma empty_iff_no_elements_witness :
  exists l : list Z,
    level0_elements (size (heap list_1_3)) list_1_3 = Ok (l, list_1_3) /\
    empty list_1_3 = Ok (match l with [] => true | _ :: _ => false end, list_1_3).
Proof. exact (empty_iff_no_elements list_1_3 reachable_list_1_3). Defined.

Lemma destructor_frees_all_witness :
  exists s', Skip_List_destructor 3 list_1_3 = Ok (tt, s') /\ heap s' = ∅.
Proof.
  apply (destructor_frees_all 3 list_1_3).
  - exact reachable_list_1_3.
  - vm_compute. lia.
Defined.

Lemma length_counts_elements_witness :
  exists l : list Z,
    level0_elements (size (heap list_1_3)) list_1_3 = Ok (l, list_1_3) /\
    length list_1_3 = Ok (wrap (Z.of_nat (List.length l)), list_1_3).
Proof. exact (length_counts_elements list_1_3 grown_list_1_3). Defined.

Lemma at_single_level_witness :
  exists r,
    at_ 3 1%Z list_5_8 = Ok (r, list_5_8) /\
    match [5; 8]%Z !! Z.to_nat 1 with
    | Some e => load_elem r list_5_8 = Ok (e, list_5_8)
    | None => r = None
    end.
Proof.
  apply (at_single_level 3 1%Z list_5_8 [5; 8]%Z).
  - exact reachable_list_5_8.
  - reflexivity.
  - vm_compute. lia.
  - vm_compute; reflexivity.
  - vm_compute. split; [discriminate|reflexivity].
Defined.

Lemma RandomLevel_geometric_witness :
  exists lv,
    RandomLevel grow_twice empty_list = Ok (lv, empty_list) /\
    1 <= lv <= Nat.max 1 (kMaxLevel_ empty_list - 1) /\
    (forall k, k < lv - 1 -> float_lt (grow_twice k) (p_ empty_list) = true) /\
    (lv < kMaxLevel_ empty_list - 1 ->
     float_lt (grow_twice (lv - 1)) (p_ empty_list) = false).
Proof.
  apply (RandomLevel_geometric grow_twice empty_list).
  - vm_compute. lia.
  - vm_compute. reflexivity.
Defined.

Lemma find_read_only_witness : list_1_3 = list_1_3.
Proof.
  apply (find_read_only 4 3%Z list_1_3 (Some 2%positive) list_1_3).
  vm_compute; reflexivity.
Defined.

Lemma insert_frame_witness :
  kMaxLevel_ list_1_2_3 = kMaxLevel_ list_1_3 /\ p_ list_1_2_3 = p_ list_1_3 /\
  head_ list_1_2_3 = head_ list_1_3 /\
  (exists lv, RandomLevel grow_never list_1_3 = Ok (lv, list_1_3) /\
              level_ list_1_2_3 = Nat.max (level_ list_1_3) lv) /\
  (width_ list_1_2_3 = width_ list_1_3 \/
   width_ list_1_2_3 = wrap (width_ list_1_3 + 1)).
Proof.
  apply (insert_frame 4 grow_never 2%Z list_1_3 (Some 4%positive) list_1_2_3).
  vm_compute; reflexivity.
Defined.

Lemma remove_frame_witness :
  kMaxLevel_ list_1 = kMaxLevel_ list_1_3 /\ p_ list_1 = p_ list_1_3 /\
  head_ list_1 = head_ list_1_3 /\ width_ list_1 = width_ list_1_3 /\
  level_ list_1 <= level_ list_1_3.
Proof.
  apply (remove_frame 4 3%Z list_1_3 (Some 3%Z) list_1).
  vm_compute; reflexivity.
Defined.

Lemma remove_trims_levels_witness :
  level_ list_1 = 1 \/
  exists a nd lk b,
    head_ list_1 = Some a /\ heap list_1 !! a = Some nd /\
    forward_ nd !! (level_ list_1 - 1) = Some lk /\ node lk = Some b.
Proof.
  apply (remove_trims_levels 4 3%Z list_1_3 3%Z list_1).
  - exact reachable_list_1_3.
  - vm_compute; reflexivity.
Defined.

Lemma single_level_of_max_level_witness :
  level_ flat_5_8 = 1 /\
  forall a nd, heap flat_5_8 !! a = Some nd -> head_ flat_5_8 <> Some a ->
               List.length (forward_ nd) = 1.
Proof.
  apply (single_level_of_max_level flat_5_8).
  - exact reachable_flat_5_8.
  - vm_compute. lia.
Defined.

Lemma insert_returns_witness :
  exists r s', insert 4 grow_once 2%Z list_1_3 = Ok (r, s').
Proof.
  apply (insert_returns 4 grow_once 2%Z list_1_3).
  - exact reachable_list_1_3.
  - vm_compute. lia.
Defined.

Lemma find_after_insert_witness :
  exists e : Z,
    find 4 2%Z list_1_2_3 = Ok (Some 4%positive, list_1_2_3) /\
    load_elem (Some 4%positive) list_1_2_3 = Ok (e, list_1_2_3) /\
    elt_eq e 2%Z = true.
Proof.
  apply (find_after_insert 4 4 grow_never 2%Z list_1_3 (Some 4%positive)
           list_1_2_3).
  - exact reachable_list_1_3.
  - vm_compute; reflexivity.
  - vm_compute. lia.
Defined.

Lemma new_list_is_empty_witness :
  empty (empty_list) = Ok (true, empty_list) /\
  length empty_list = Ok (0%Z, empty_list) /\
  level0_elements 0 empty_list = Ok ([], empty_list) /\
  ((0 <= 7)%Z -> at_ 0 7%Z empty_list = Ok (None, empty_list)).
Proof.
  apply (new_list_is_empty (T:=Z) 16 (1 # 2)%Q 0 7%Z). lia.
Defined.

Lemma find_after_remove_witness :
  (find 4 3%Z list_1 = Ok (None, list_1) <->
   Exists (fun e' : Z => elt_lt 3%Z e' = true) [1]%Z) /\
  (find 4 3%Z list_1 = Undefined <->
   Forall (fun e' : Z => elt_lt e' 3%Z = true) [1]%Z) /\
  (find 4 3%Z list_1 = Ok (None, list_1) \/ find 4 3%Z list_1 = Undefined).
Proof.
  apply (find_after_remove 4 4 3%Z list_1_3 3%Z list_1 [1]%Z).
  - intros a b c Hab Hac. simpl in *. apply Z.eqb_eq in Hab. subst b. exact Hac.
  - exact reachable_list_1_3.
  - vm_compute; reflexivity.
  - vm_compute. lia.
  - vm_compute; reflexivity.
Defined.

Lemma at_returns_element_node_witness :
  exists e : Z, load_elem (Some 2%positive) list_1_3 = Ok (e, list_1_3) /\
                e ∈ [1; 3]%Z.
Proof.
  apply (at_returns_element_node 3 0%Z list_1_3 [1; 3]%Z 2%positive list_1_3).
  - exact reachable_list_1_3.
  - vm_compute; reflexivity.
  - vm_compute; reflexivity.
Defined.

Section Drawing_Examples.
Import Ascii.
Local Open Scope char_scope.

Lemma CenterString_centers_witness :
  exists lpad rpad,
    CenterString 100 (to_string_size 12) 6
    = Some (replicate lpad " " ++ to_string_size 12 ++ replicate rpad " ") /\
    lpad + List.length (to_string_size 12) + rpad = Z.to_nat 6 /\
    lpad <= rpad <= lpad + 2.
Proof.
  apply (CenterString_centers 100 (to_string_size 12) 6).
  - vm_compute; reflexivity.
  - lia.
  - unfold size_max. lia.
Defined.

Lemma CenterString_throws_witness :
  CenterString 100 (to_string_size 12) 2 = None.
Proof.
  apply (CenterString_throws 100 (to_string_size 12) 2).
  - lia.
  - vm_compute; discriminate.
  - unfold size_max. lia.
  - vm_compute; reflexivity.
Defined.

Lemma DisplayList_draws_witness :
  exists r,
    DisplayList 100 3 list_5_8 = Ok (r, list_5_8) /\
    (r = None \/
     exists upper,
       r = Some (upper ++ level0_rows 2 ++ node_labels [5; 8]%Z)) /\
    (level_ list_5_8 = 1 ->
     r = Some (level0_rows 2 ++ node_labels [5; 8]%Z)).
Proof.
  apply (DisplayList_draws 100 3 list_5_8 [5; 8]%Z).
  - exact reachable_list_5_8.
  - vm_compute. lia.
  - vm_compute; reflexivity.
  - lia.
  - repeat (constructor; [vm_compute; lia|]). constructor.
Defined.
End Drawing_Examples.

End jhr.
